(** * ContactSequenceWrapper (crocoddyl, locomotion unit-test utilities)

    A shallow embedding of
    [unittest/python/crocoddyl/locomotion/contact_sequence_wrapper.py]:
    the two methods [createEESplines] and [createCentroidalPhi] of the class
    [ContactSequenceWrapper], the numpy slice operations they use, and the
    helpers they import.

    Conventions.
    - A Python float is an element of an abstract scalar type [num] with
      decidable equality and a multiplication; nothing else is assumed of it
      (in particular no algebraic law), so "equal" always means "the very
      same value".
    - A 2-D numpy array is the list of its rows; a 1-D array is a list.
    - A Python exception is the [Raise] result of the error monad [Exc];
      code that also mutates objects lives in the monad [M], whose state
      survives a raised exception, as the objects of a Python program do.
    - pinocchio, numpy's [linspace] and [polyfit] are external libraries:
      they are the fields of the classes [Pinocchio] and [Numpy]. *)

From stdpp Require Import base list strings sorting.
From Stdlib Require Import ZArith Lia.

Open Scope string_scope.
Open Scope list_scope.
Open Scope nat_scope.

(** ** Exceptions *)

Inductive PyError : Type :=
  | KeyError (key : string)
  | IndexError
  | ValueError
  | LibraryError (code : nat).

Inductive Exc (A : Type) : Type :=
  | Ok (a : A)
  | Raise (e : PyError).
Arguments Ok {A} a.
Arguments Raise {A} e.

Definition exc_bind {A B} (m : Exc A) (k : A → Exc B) : Exc B :=
  match m with Ok a => k a | Raise e => Raise e end.

Notation "x <- m ;; k" := (exc_bind m (λ x, k))
  (at level 100, m at next level, right associativity).

Definition is_Ok {A} (m : Exc A) : Prop := ∃ a, m = Ok a.

Definition exc_okb {A} (m : Exc A) : bool :=
  match m with Ok _ => true | Raise _ => false end.

Fixpoint exc_mapM {A B} (k : A → Exc B) (l : list A) : Exc (list B) :=
  match l with
  | [] => Ok []
  | a :: l' => b <- k a;; bs <- exc_mapM k l';; Ok (b :: bs)
  end.

Fixpoint exc_foldl {A B} (k : B → A → Exc B) (b : B) (l : list A) : Exc B :=
  match l with
  | [] => Ok b
  | a :: l' => b' <- k b a;; exc_foldl k b' l'
  end.

(** ** Python sequences *)

(** [range(a, b)] *)
Definition py_range (a b : nat) : list nat := seq a (b - a).

(** [l[a:b]] for [0 <= a], [0 <= b] *)
Definition py_slice {A} (a b : nat) (l : list A) : list A := take (b - a) (drop a l).

(** [l[-k:]]; for [k = 0] this is [l[0:]], the whole sequence *)
Definition py_suffix {A} (k : nat) (l : list A) : list A :=
  if decide (k = 0) then l else drop (length l - k) l.

(** [l[:-1]] *)
Definition py_but_last {A} (l : list A) : list A := take (length l - 1) l.

(** [l[i]] for [0 <= i] *)
Definition py_index {A} (l : list A) (i : nat) : Exc A :=
  match l !! i with Some a => Ok a | None => Raise IndexError end.

(** ** collections.OrderedDict with string keys *)

Abbreviation OrderedDict V := (list (string * V)).

(** [d.update([[k, v]])], also [d[k] = v]: an existing key keeps its place *)
Fixpoint od_update {V} (d : OrderedDict V) (k : string) (v : V) : OrderedDict V :=
  match d with
  | [] => [(k, v)]
  | (k', v') :: d' =>
      if decide (k' = k) then (k, v) :: d' else (k', v') :: od_update d' k v
  end.

(** [d[k]] *)
Fixpoint od_get {V} (d : OrderedDict V) (k : string) : Exc V :=
  match d with
  | [] => Raise (KeyError k)
  | (k', v') :: d' => if decide (k' = k) then Ok v' else od_get d' k
  end.

(** [d.keys()] *)
Definition od_keys {V} (d : OrderedDict V) : list string := d.*1.

(** ** Scalars and numpy arrays *)

Class Scalar : Type := {
  num : Type;
  num_eq_dec :: EqDecision num;
  num_zero : num;
  num_mul : num → num → num;
}.

Section Arrays.
Context {Sc : Scalar}.

(** A 2-D array is the list of its rows. An array without rows carries no
    width (numpy keeps the [k] of a shape [(0, k)]); the assignments below
    accept it for any block without rows. *)
Abbreviation Array2 := (list (list num)).

(** [np.zeros((n, c))] *)
Definition np_zeros (n c : nat) : Array2 := replicate n (replicate c num_zero).

(** [a[:, c0:c1]] *)
Definition np_cols (c0 c1 : nat) (a : Array2) : Array2 := py_slice c0 c1 <$> a.

(** [a[:, -k:]] *)
Definition np_last_cols (k : nat) (a : Array2) : Array2 := py_suffix k <$> a.

(** [s * a] *)
Definition np_scale (s : num) (a : Array2) : Array2 :=
  (λ r : list num, num_mul s <$> r) <$> a.

(** The columns of an array (what iterating over [a.T] yields). *)
Definition np_width (a : Array2) : nat :=
  match a with [] => 0 | r :: _ => length r end.
Definition np_column (c : nat) (a : Array2) : list num :=
  (λ r, default num_zero (r !! c)) <$> a.
Definition np_columns (a : Array2) : list (list num) :=
  (λ c, np_column c a) <$> seq 0 (np_width a).

(** numpy broadcasting of one axis to extent [n]: the extent must already be
    [n], or be 1. *)
Definition broadcast1 {A} (n : nat) (l : list A) : Exc (list A) :=
  if decide (length l = n) then Ok l
  else match l with
       | [a] => Ok (replicate n a)
       | _ => Raise ValueError
       end.

Definition broadcast_to (nr nc : nat) (src : Array2) : Exc Array2 :=
  rows <- exc_mapM (broadcast1 nc) src;;
  broadcast1 nr rows.

(** [dst[r0:r1, c0:c1] = src], in place: the block of [dst] is overwritten
    by [src] broadcast to the block's shape; a shape that does not broadcast
    raises [ValueError]. The result is the new content of [dst]. *)
Definition np_setitem (dst : Array2) (r0 r1 c0 c1 : nat) (src : Array2) : Exc Array2 :=
  let old := py_slice r0 r1 dst in
  blk <- broadcast_to (length old) (c1 - c0) src;;
  Ok (take r0 dst
      ++ zip_with (λ row new, take c0 row ++ new ++ drop c1 row) old blk
      ++ drop (r0 + length old) dst).

End Arrays.

Abbreviation Array2 := (list (list num)).

(** ** spline_utils (imported by the wrapper, not part of the file) *)

Section SplineUtils.
Context {Sc : Scalar}.

(** Modelled from the spec: [findDuplicates] of [spline_utils.py] is not in
    the sources at hand. "Scan the concatenated timeline once; any timestamp
    equal to an already-seen timestamp is marked a duplicate": one pass that
    carries the timestamps seen so far and returns the marked indices. *)
Fixpoint findDuplicates_from (seen : list num) (i : nat) (arr : list num) : list nat :=
  match arr with
  | [] => []
  | t :: arr' =>
      if decide (t ∈ seen) then i :: findDuplicates_from seen (S i) arr'
      else findDuplicates_from (t :: seen) (S i) arr'
  end.

Definition findDuplicates (arr : list num) : list nat := findDuplicates_from [] 0 arr.

(** Modelled from the spec: [removeDuplicates] of [spline_utils.py] is not in
    the sources at hand. "Remove all duplicate-marked rows, in one pass,
    [...] preserving relative order of the remaining rows": the rows whose
    index is marked are dropped, the others kept in order. *)
Fixpoint removeDuplicates_from {A} (i : nat) (arr : list A) (indices : list nat) : list A :=
  match arr with
  | [] => []
  | a :: arr' =>
      if decide (i ∈ indices) then removeDuplicates_from (S i) arr' indices
      else a :: removeDuplicates_from (S i) arr' indices
  end.

Definition removeDuplicates {A} (arr : list A) (indices : list nat) : list A :=
  removeDuplicates_from 0 arr indices.

End SplineUtils.

(** ** External numerical routines *)

Class Numpy {Sc : Scalar} : Type := {
  (** [np.poly1d] objects *)
  poly1d : Type;
  (** [np.polyfit(x, y, deg, ...)] for one column [y] *)
  np_polyfit : list num → list num → nat → Exc poly1d;
  (** [p(t)] *)
  poly_eval : poly1d → num → num;
  (** [p.deriv(1)] *)
  poly_deriv : poly1d → poly1d;
  (** [np.linspace(0., t_sampling * (N - 1), N)], as a function of
      [t_sampling] and [N] *)
  np_linspace : num → nat → list num;
  np_linspace_length : ∀ t n, length (np_linspace t n) = n;
}.

Section PolyFit.
Context {Sc : Scalar} {NP : Numpy}.

(** Modelled from the spec: [polyfitND] of [spline_utils.py] is not in the
    sources at hand. "Degree-N least-squares polynomial fit over (time,
    value-columns) with a numerical tolerance, returning evaluable value and
    derivative functions per column": one fit per column of [y], and the
    derivative of each fitted polynomial. The tolerance is part of the
    column fit. *)
Definition polyfitND (x : list num) (y : Array2) (deg : nat)
    : Exc (list poly1d * list poly1d) :=
  p <- exc_mapM (λ y_a, np_polyfit x y_a deg) (np_columns y);;
  Ok (p, poly_deriv <$> p).

End PolyFit.

(** ** crocoddyl conversions, multicontact_api containers *)

(** Modelled from the spec: [a2m] and [m2a] of the crocoddyl package are not
    in the sources at hand. The spec speaks of "a state array, a
    state-derivative array, and a control array" and of "value and derivative
    arrays passed to interpolant construction": the conversions change the
    container (numpy matrix or array), not the samples, so both are the
    identity on the rows. *)
Definition a2m {A} (a : A) : A := a.
Definition m2a {A} (m : A) : A := m.

(** One element of [cs.ms_interval_data]. *)
Record MsInterval {Sc : Scalar} : Type := {
  time_trajectory : list num;
  state_trajectory : Array2;
  dot_state_trajectory : Array2;
  control_trajectory : Array2;
}.

Record ContactSequence {Sc : Scalar} : Type := {
  ms_interval_data : list MsInterval;
}.

(** [CubicHermiteSpline(abscissa, points, derivatives)] of multicontact_api:
    the object built from its three arguments. *)
Record CubicHermiteSpline {Sc : Scalar} : Type := {
  abscissa : list num;
  points : Array2;
  derivatives : Array2;
}.

(** The attributes of the local classes [PhiC] and [PhiC2] of
    [createCentroidalPhi] (both have the same ones). *)
Module PhiC.
Record t {Sc : Scalar} : Type := mk {
  f : OrderedDict Array2;
  df : OrderedDict Array2;
  com_vcom : Array2;
  vcom_acom : Array2;
  hg : Array2;
  dhg : Array2;
}.
End PhiC.

(** ** createCentroidalPhi: the computation on local variables *)

Section Centroidal.
Context {Sc : Scalar} {NP : Numpy}.

(** Lines 45-49. *)
Definition range_def : OrderedDict (list nat) :=
  let range_def := [] in
  let range_def := od_update range_def "RF_patch" (py_range 0 6) in
  let range_def := od_update range_def "LF_patch" (py_range 6 12) in
  let range_def := od_update range_def "RH_patch" (py_range 12 18) in
  let range_def := od_update range_def "LH_patch" (py_range 18 24) in
  range_def.

(** Lines 55-58: the concatenated timeline of all intervals but the last. *)
Definition timeline (cs : ContactSequence) : list num :=
  foldl (λ t_traj spl, t_traj ++ time_trajectory spl) []
        (py_but_last (ms_interval_data cs)).

(** Lines 62-74: the class body of [PhiC]. *)
Definition PhiC_new (patch_names : list string) (N : nat) : PhiC.t :=
  let fdf :=
    foldl (λ fdf patch,
             (od_update fdf.1 patch (np_zeros N 6),
              od_update fdf.2 patch (np_zeros N 6)))
          ([], []) patch_names in
  {| PhiC.f := fdf.1; PhiC.df := fdf.2;
     PhiC.com_vcom := np_zeros N 6; PhiC.vcom_acom := np_zeros N 6;
     PhiC.hg := np_zeros N 6; PhiC.dhg := np_zeros N 6 |}.

(** Lines 95-99. *)
Definition f_poly (poly_u : list poly1d) (t : num) (r : list nat) : Exc (list num) :=
  exc_mapM (λ i, p <- py_index poly_u i;; Ok (poly_eval p t)) r.

Definition f_dpoly (dpoly_u : list poly1d) (t : num) (r : list nat) : Exc (list num) :=
  exc_mapM (λ i, p <- py_index dpoly_u i;; Ok (poly_eval p t)) r.

(** [dst[n:n + nt, :] = np.array(rows)] for a list of rows produced by a
    list comprehension: an empty list makes a 1-D array of shape [(0,)],
    which does not broadcast to 6 columns. *)
Definition set_patch_rows (dst : Array2) (n nt : nat) (rows : Array2) : Exc Array2 :=
  match rows with
  | [] => Raise ValueError
  | _ => np_setitem dst n (n + nt) 0 6 rows
  end.

(** Lines 101-103: one iteration of the loop over the patches. *)
Definition patch_step (poly_u dpoly_u : list poly1d) (tt : list num) (n nt : nat)
    (fdf : OrderedDict Array2 * OrderedDict Array2) (patch : string)
    : Exc (OrderedDict Array2 * OrderedDict Array2) :=
  rows <- exc_mapM (λ t, r <- od_get range_def patch;; f_poly poly_u t r) tt;;
  f_patch <- od_get fdf.1 patch;;
  f_patch <- set_patch_rows f_patch n nt rows;;
  let f := od_update fdf.1 patch f_patch in
  drows <- exc_mapM (λ t, r <- od_get range_def patch;; f_dpoly dpoly_u t r) tt;;
  df_patch <- od_get fdf.2 patch;;
  df_patch <- set_patch_rows df_patch n nt drows;;
  Ok (f, od_update fdf.2 patch df_patch).

(** Lines 78-105: one iteration of the loop over the intervals; the loop
    state is the row offset [n] and the arrays of [phi_c_]. *)
Definition segment_step (mass : num) (patch_names : list string) (t_traj : list num)
    (st : nat * PhiC.t) (spl : MsInterval) : Exc (nat * PhiC.t) :=
  let n := st.1 in
  let phi_c_ := st.2 in
  let x := m2a (state_trajectory spl) in
  let dx := m2a (dot_state_trajectory spl) in
  let u := m2a (control_trajectory spl) in
  let nt := length x in
  let tt := py_slice n (n + nt) t_traj in
  com_vcom <- np_setitem (PhiC.com_vcom phi_c_) n (n + nt) 0 6 (np_cols 0 6 x);;
  vcom_acom <- np_setitem (PhiC.vcom_acom phi_c_) n (n + nt) 0 6 (np_cols 0 6 dx);;
  hg <- np_setitem (PhiC.hg phi_c_) n (n + nt) 3 6 (np_last_cols 3 x);;
  dhg <- np_setitem (PhiC.dhg phi_c_) n (n + nt) 3 6 (np_last_cols 3 dx);;
  hg <- np_setitem hg n (n + nt) 0 3 (np_scale mass (np_cols 3 6 x));;
  dhg <- np_setitem dhg n (n + nt) 0 3 (np_scale mass (np_cols 3 6 dx));;
  polys <- polyfitND tt u 3;;
  fdf <- exc_foldl (patch_step polys.1 polys.2 tt n nt)
                   (PhiC.f phi_c_, PhiC.df phi_c_) patch_names;;
  Ok (n + nt,
      {| PhiC.f := fdf.1; PhiC.df := fdf.2;
         PhiC.com_vcom := com_vcom; PhiC.vcom_acom := vcom_acom;
         PhiC.hg := hg; PhiC.dhg := dhg |}).

(** Lines 76-105. *)
Definition fill_phi (mass : num) (patch_names : list string) (t_traj : list num)
    (segments : list MsInterval) (phi_c_ : PhiC.t) : Exc (nat * PhiC.t) :=
  exc_foldl (segment_step mass patch_names t_traj) (0, phi_c_) segments.

(** Lines 109-121: the class body of [PhiC2]. *)
Definition PhiC2_new (patch_names : list string) (phi_c_ : PhiC.t)
    (duplicates : list nat) : Exc PhiC.t :=
  fdf <- exc_foldl
           (λ fdf patch,
              f_patch <- od_get (PhiC.f phi_c_) patch;;
              df_patch <- od_get (PhiC.df phi_c_) patch;;
              Ok (od_update fdf.1 patch (removeDuplicates f_patch duplicates),
                  od_update fdf.2 patch (removeDuplicates df_patch duplicates)))
           ([], []) patch_names;;
  Ok {| PhiC.f := fdf.1; PhiC.df := fdf.2;
        PhiC.com_vcom := removeDuplicates (PhiC.com_vcom phi_c_) duplicates;
        PhiC.vcom_acom := removeDuplicates (PhiC.vcom_acom phi_c_) duplicates;
        PhiC.hg := removeDuplicates (PhiC.hg phi_c_) duplicates;
        PhiC.dhg := removeDuplicates (PhiC.dhg phi_c_) duplicates |}.

(** Lines 53-123 for a given mass: the timeline, the filled arrays [phi_c_],
    and the deduplicated timeline and arrays [phi_c_2]. *)
Record Samples : Type := {
  raw_timeline : list num;
  phi_c_ : PhiC.t;
  t_traj : list num;
  phi_c_2 : PhiC.t;
}.

Definition centroidal_samples (cs : ContactSequence) (patch_names : list string)
    (mass : num) : Exc Samples :=
  let t_traj := timeline cs in
  let N := length t_traj in
  let phi_c_ := PhiC_new patch_names N in
  st <- fill_phi mass patch_names t_traj (py_but_last (ms_interval_data cs)) phi_c_;;
  let phi_c_ := st.2 in
  let duplicates := findDuplicates t_traj in
  phi_c_2 <- PhiC2_new patch_names phi_c_ duplicates;;
  Ok {| raw_timeline := t_traj; phi_c_ := phi_c_;
        t_traj := removeDuplicates t_traj duplicates; phi_c_2 := phi_c_2 |}.

End Centroidal.

Arguments range_def : simpl never.

(** ** The rigid-body dynamics library *)

(** pinocchio's [Model] and [Data] and the calls the wrapper makes. [Data]
    is the workspace the algorithms write their results to: a call takes
    the current [Data] and returns the updated one, also when it raises. *)
Class Pinocchio {Sc : Scalar} : Type := {
  Model : Type;
  Data : Type;
  model_nq : Model → nat;
  model_nv : Model → nat;
  (** [pinocchio.forwardKinematics(rmodel, rdata, q, v)] *)
  forwardKinematics : Model → Data → list num → list num → Exc () * Data;
  (** [rmodel.getFrameId(name)] *)
  getFrameId : Model → string → nat;
  (** [pinocchio.updateFramePlacement(rmodel, rdata, id).translation] *)
  updateFramePlacement : Model → Data → nat → Exc (list num) * Data;
  (** [pinocchio.getFrameVelocity(rmodel, rdata, id).linear] *)
  getFrameVelocity : Model → Data → nat → Exc (list num);
  (** [pinocchio.neutral(rmodel)] *)
  neutral : Model → list num;
  (** [pinocchio.crba(rmodel, rdata, q)] *)
  crba : Model → Data → list num → Exc Array2 * Data;
}.

(** ** The wrapper object and the objects it works on *)

(** Modelled from the spec: the class [CentroidalPhi] of [centroidal_phi.py]
    is not in the sources at hand. It is "the centroidal trajectory object",
    one of "the two result containers": an interpolant for the
    centre-of-mass motion, one for the angular momentum, and one per contact
    patch for its force. [None] stands for an interpolant not assigned yet. *)
Module CentroidalPhi.
Record t {Sc : Scalar} : Type := mk {
  com_vcom : option CubicHermiteSpline;
  hg : option CubicHermiteSpline;
  forces : OrderedDict CubicHermiteSpline;
}.
Definition new {Sc : Scalar} : t := {| com_vcom := None; hg := None; forces := [] |}.
End CentroidalPhi.

(** Modelled from the spec: the class [EESplines] of [centroidal_phi.py] is
    not in the sources at hand. It is "the end-effector spline map", a
    mapping from patch name to interpolant that supports [update]; a new one
    is empty. *)
Abbreviation EESplines := (OrderedDict CubicHermiteSpline).

(** The attributes of [ContactSequenceWrapper] set by [__init__]. *)
Record Wrapper {Sc : Scalar} : Type := {
  cs : ContactSequence;
  ee_map : OrderedDict string;
  ee_splines : option EESplines;
  centroidalPhi : option CentroidalPhi.t;
  phi_c : CentroidalPhi.t;
}.

(** [ContactSequenceWrapper(cs, ee_map, ee_splines)] *)
Definition Wrapper_init {Sc : Scalar} (cs : ContactSequence) (ee_map : OrderedDict string)
    (ee_splines : option EESplines) : Wrapper :=
  {| cs := cs; ee_map := ee_map; ee_splines := ee_splines;
     centroidalPhi := None; phi_c := CentroidalPhi.new |}.

(** Everything the two methods can reach: the receiver, the arguments
    [rmodel], [rdata] and [xs], and the console of the process. [fk_calls]
    counts the calls of [pinocchio.forwardKinematics]; the program cannot
    read it. *)
Record World {Sc : Scalar} {Pin : Pinocchio} : Type := {
  self : Wrapper;
  rmodel : Model;
  rdata : Data;
  xs : list (list num);
  console : list string;
  fk_calls : nat;
}.

Section Monad.
Context {Sc : Scalar} {Pin : Pinocchio}.

Definition M (A : Type) : Type := World → Exc A * World.

Definition m_ret {A} (a : A) : M A := λ w, (Ok a, w).

Definition m_bind {A B} (m : M A) (k : A → M B) : M B := λ w,
  match m w with
  | (Ok a, w') => k a w'
  | (Raise e, w') => (Raise e, w')
  end.

Definition m_lift {A} (e : Exc A) : M A := λ w, (e, w).

Definition m_gets {A} (proj : World → A) : M A := λ w, (Ok (proj w), w).

Definition m_modify (upd : World → World) : M () := λ w, (Ok (), upd w).

End Monad.

Notation "x <-- m ;; k" := (m_bind m (λ x, k))
  (at level 100, m at next level, right associativity).

Section Loops.
Context {Sc : Scalar} {Pin : Pinocchio}.

(** [for a in l: body(a)] *)
Fixpoint m_for {A} (l : list A) (body : A → M ()) : M () :=
  match l with
  | [] => m_ret ()
  | a :: l' => _ <-- body a;; m_for l' body
  end.

(** A loop whose body also updates local variables of type [B]. *)
Fixpoint m_foldl {A B} (body : B → A → M B) (b : B) (l : list A) : M B :=
  match l with
  | [] => m_ret b
  | a :: l' => b' <-- body b a;; m_foldl body b' l'
  end.

End Loops.

(** ** The two methods *)

Section Methods.
Context {Sc : Scalar} {NP : Numpy} {Pin : Pinocchio}.

Definition with_self (upd : Wrapper → Wrapper) (w : World) : World :=
  {| self := upd (self w); rmodel := rmodel w; rdata := rdata w; xs := xs w;
     console := console w; fk_calls := fk_calls w |}.

Definition with_rdata (d : Data) (w : World) : World :=
  {| self := self w; rmodel := rmodel w; rdata := d; xs := xs w;
     console := console w; fk_calls := fk_calls w |}.

Definition count_fk (w : World) : World :=
  {| self := self w; rmodel := rmodel w; rdata := rdata w; xs := xs w;
     console := console w; fk_calls := S (fk_calls w) |}.

Definition set_ee_splines (s : option EESplines) (sf : Wrapper) : Wrapper :=
  {| cs := cs sf; ee_map := ee_map sf; ee_splines := s;
     centroidalPhi := centroidalPhi sf; phi_c := phi_c sf |}.

Definition set_phi_c (phi : CentroidalPhi.t) (sf : Wrapper) : Wrapper :=
  {| cs := cs sf; ee_map := ee_map sf; ee_splines := ee_splines sf;
     centroidalPhi := centroidalPhi sf; phi_c := phi |}.

(** The pinocchio calls, on the [rdata] of the world. *)
Definition call_forwardKinematics (q v : list num) : M () := λ w,
  let r := forwardKinematics (rmodel w) (rdata w) q v in
  (r.1, count_fk (with_rdata r.2 w)).

Definition call_updateFramePlacement (id : nat) : M (list num) := λ w,
  let r := updateFramePlacement (rmodel w) (rdata w) id in
  (r.1, with_rdata r.2 w).

Definition call_getFrameVelocity (id : nat) : M (list num) := λ w,
  (getFrameVelocity (rmodel w) (rdata w) id, w).

Definition call_crba (q : list num) : M Array2 := λ w,
  let r := crba (rmodel w) (rdata w) q in
  (r.1, with_rdata r.2 w).

(** [a[:, i] = src], in place, for a 1-D [src]. *)
Definition np_setcol (dst : Array2) (i : nat) (src : list num) : Exc Array2 :=
  if decide (i < np_width dst) then
    col <- broadcast1 (length dst) src;;
    Ok (zip_with (λ row v, <[i:=v]> row) dst col)
  else Raise IndexError.

(** [self.ee_splines.update([[patch, spline]])] *)
Definition ee_splines_update (patch : string) (spline : CubicHermiteSpline) : M () :=
  m_modify (with_self (λ sf,
    set_ee_splines (Some (od_update (default [] (ee_splines sf)) patch spline)) sf)).

(** Lines 33-39: the body of the loop over the samples, for one patch; the
    local arrays [p] and [m] are the loop state. *)
Definition ee_sample_step (abscissa : list num) (patch : string)
    (pm : Array2 * Array2) (i : nat) : M (Array2 * Array2) :=
  x_i <-- (λ w, (py_index (xs w) i, w));;
  nq <-- m_gets (λ w, model_nq (rmodel w));;
  nv <-- m_gets (λ w, model_nv (rmodel w));;
  let q := a2m (take nq x_i) in
  let v := a2m (py_suffix nv x_i) in
  _ <-- call_forwardKinematics q v;;
  frame <-- (λ w, (od_get (ee_map (self w)) patch, w));;
  id <-- m_gets (λ w, getFrameId (rmodel w) frame);;
  translation <-- call_updateFramePlacement id;;
  p <-- m_lift (np_setcol pm.1 i (m2a translation));;
  frame <-- (λ w, (od_get (ee_map (self w)) patch, w));;
  id <-- m_gets (λ w, getFrameId (rmodel w) frame);;
  linear <-- call_getFrameVelocity id;;
  m <-- m_lift (np_setcol pm.2 i (m2a linear));;
  _ <-- ee_splines_update patch
          {| abscissa := abscissa; points := p; derivatives := m |};;
  m_ret (p, m).

(** Lines 25-40. *)
Definition createEESplines (t_sampling : num) : M () :=
  N <-- m_gets (λ w, length (xs w));;
  let abscissa := a2m (np_linspace t_sampling N) in
  _ <-- m_modify (with_self (set_ee_splines (Some [])));;
  patches <-- m_gets (λ w, od_keys (ee_map (self w)));;
  m_for patches (λ patch,
    let p := np_zeros 3 N in
    let m := np_zeros 3 N in
    _ <-- m_foldl (ee_sample_step abscissa patch) (p, m) (py_range 0 N);;
    m_ret ()).

(** [self.phi_c.forces[patch] = spline] *)
Definition phi_c_set_force (patch : string) (spline : CubicHermiteSpline) : M () :=
  m_modify (with_self (λ sf,
    set_phi_c {| CentroidalPhi.com_vcom := CentroidalPhi.com_vcom (phi_c sf);
                 CentroidalPhi.hg := CentroidalPhi.hg (phi_c sf);
                 CentroidalPhi.forces :=
                   od_update (CentroidalPhi.forces (phi_c sf)) patch spline |} sf)).

Definition phi_c_set_com_vcom (spline : CubicHermiteSpline) : M () :=
  m_modify (with_self (λ sf,
    set_phi_c {| CentroidalPhi.com_vcom := Some spline;
                 CentroidalPhi.hg := CentroidalPhi.hg (phi_c sf);
                 CentroidalPhi.forces := CentroidalPhi.forces (phi_c sf) |} sf)).

Definition phi_c_set_hg (spline : CubicHermiteSpline) : M () :=
  m_modify (with_self (λ sf,
    set_phi_c {| CentroidalPhi.com_vcom := CentroidalPhi.com_vcom (phi_c sf);
                 CentroidalPhi.hg := Some spline;
                 CentroidalPhi.forces := CentroidalPhi.forces (phi_c sf) |} sf)).

(** [a[0, 0]] *)
Definition np_item00 (a : Array2) : Exc num :=
  row <- py_index a 0;; py_index row 0.

(** Lines 42-130. *)
Definition createCentroidalPhi : M () :=
  patch_names <-- m_gets (λ w, od_keys (ee_map (self w)));;
  q0 <-- m_gets (λ w, neutral (rmodel w));;
  inertia <-- call_crba q0;;
  mass <-- m_lift (np_item00 inertia);;
  cs <-- m_gets (λ w, cs (self w));;
  s <-- m_lift (centroidal_samples cs patch_names mass);;
  let t_traj := t_traj s in
  let phi_c_2 := phi_c_2 s in
  _ <-- phi_c_set_com_vcom
          {| abscissa := a2m t_traj; points := a2m (PhiC.com_vcom phi_c_2);
             derivatives := a2m (PhiC.vcom_acom phi_c_2) |};;
  _ <-- phi_c_set_hg
          {| abscissa := a2m t_traj; points := a2m (PhiC.hg phi_c_2);
             derivatives := a2m (PhiC.dhg phi_c_2) |};;
  m_for patch_names (λ patch,
    f_patch <-- m_lift (od_get (PhiC.f phi_c_2) patch);;
    df_patch <-- m_lift (od_get (PhiC.df phi_c_2) patch);;
    phi_c_set_force patch
      {| abscissa := a2m t_traj; points := a2m f_patch;
         derivatives := a2m df_patch |}).

(** Lines 125-129 of [createCentroidalPhi]: the assignments to
    [self.phi_c]. *)
Definition assign_phi_c (patch_names : list string) (s : Samples) : M () :=
  _ <-- phi_c_set_com_vcom
          {| abscissa := a2m (t_traj s); points := a2m (PhiC.com_vcom (phi_c_2 s));
             derivatives := a2m (PhiC.vcom_acom (phi_c_2 s)) |};;
  _ <-- phi_c_set_hg
          {| abscissa := a2m (t_traj s); points := a2m (PhiC.hg (phi_c_2 s));
             derivatives := a2m (PhiC.dhg (phi_c_2 s)) |};;
  m_for patch_names (λ patch,
    f_patch <-- m_lift (od_get (PhiC.f (phi_c_2 s)) patch);;
    df_patch <-- m_lift (od_get (PhiC.df (phi_c_2 s)) patch);;
    phi_c_set_force patch
      {| abscissa := a2m (t_traj s); points := a2m f_patch;
         derivatives := a2m df_patch |}).

(** The variant of [createEESplines] that builds each spline once, after
    the loop over the samples: the same body without the [update], and one
    [update] per patch from the arrays the loop leaves. *)
Definition ee_sample_step_once (patch : string)
    (pm : Array2 * Array2) (i : nat) : M (Array2 * Array2) :=
  x_i <-- (λ w, (py_index (xs w) i, w));;
  nq <-- m_gets (λ w, model_nq (rmodel w));;
  nv <-- m_gets (λ w, model_nv (rmodel w));;
  let q := a2m (take nq x_i) in
  let v := a2m (py_suffix nv x_i) in
  _ <-- call_forwardKinematics q v;;
  frame <-- (λ w, (od_get (ee_map (self w)) patch, w));;
  id <-- m_gets (λ w, getFrameId (rmodel w) frame);;
  translation <-- call_updateFramePlacement id;;
  p <-- m_lift (np_setcol pm.1 i (m2a translation));;
  frame <-- (λ w, (od_get (ee_map (self w)) patch, w));;
  id <-- m_gets (λ w, getFrameId (rmodel w) frame);;
  linear <-- call_getFrameVelocity id;;
  m <-- m_lift (np_setcol pm.2 i (m2a linear));;
  m_ret (p, m).

Definition createEESplines_once (t_sampling : num) : M () :=
  N <-- m_gets (λ w, length (xs w));;
  let abscissa := a2m (np_linspace t_sampling N) in
  _ <-- m_modify (with_self (set_ee_splines (Some [])));;
  patches <-- m_gets (λ w, od_keys (ee_map (self w)));;
  m_for patches (λ patch,
    let p := np_zeros 3 N in
    let m := np_zeros 3 N in
    pm <-- m_foldl (ee_sample_step_once patch) (p, m) (py_range 0 N);;
    ee_splines_update patch
      {| abscissa := abscissa; points := pm.1; derivatives := pm.2 |}).

End Methods.

(** ** Vocabulary of the properties *)

Section Vocabulary.
Context {Sc : Scalar}.

(** The timestamp at index [i] of [t] equals an earlier timestamp of [t]. *)
Definition repeated_at (t : list num) (i : nat) : Prop :=
  match t !! i with
  | Some x => x ∈ take i t
  | None => False
  end.

#[global] Instance repeated_at_dec t i : Decision (repeated_at t i).
Proof. unfold repeated_at. destruct (t !! i); apply _. Defined.

(** The number of timestamps of [t] that equal an earlier one. *)
Definition count_repeated (t : list num) : nat :=
  length (filter (repeated_at t) (seq 0 (length t))).

(** [i] is the index of the first occurrence of the timestamp [x] in [t]. *)
Definition first_occurrence (t : list num) (x : num) (i : nat) : Prop :=
  t !! i = Some x ∧ x ∉ take i t.

(** [a'] is the array [a], parallel to the timeline [t], after the
    deduplication that turns [t] into [t']: it has as many rows as [t] has
    timestamps that repeat no earlier one, its rows are rows of [a] in
    their order, and the row of a retained timestamp is the row [a] has at
    the first occurrence of that timestamp. *)
Definition deduplicated {A} (t t' : list num) (a a' : list A) : Prop :=
  length a' = length t - count_repeated t ∧
  sublist a' a ∧
  ∀ j x i, t' !! j = Some x → first_occurrence t x i → a' !! j = a !! i.

(** A timeline that never decreases for the order [lt] of the scalars: each
    timestamp is smaller than the next one, or the very same value. *)
Definition non_decreasing (lt : relation num) (t : list num) : Prop :=
  Sorted (λ x y, lt x y ∨ x = y) t.

(** A timeline in which every timestamp is smaller than all later ones. *)
Definition strictly_increasing (lt : relation num) (t : list num) : Prop :=
  StronglySorted lt t.

(** Every value stored in the dictionary satisfies [P]. *)
Definition od_all {V} (P : V → Prop) (d : OrderedDict V) : Prop :=
  ∀ k v, od_get d k = Ok v → P v.

(** [a] has [n] rows of [c] columns each. *)
Definition has_shape (n c : nat) (a : Array2) : Prop :=
  length a = n ∧ Forall (λ r, length r = c) a.

(** All arrays of [phi] have [N] rows of 6 columns. *)
Definition phi_rows (N : nat) (phi : PhiC.t) : Prop :=
  has_shape N 6 (PhiC.com_vcom phi) ∧ has_shape N 6 (PhiC.vcom_acom phi) ∧
  has_shape N 6 (PhiC.hg phi) ∧ has_shape N 6 (PhiC.dhg phi) ∧
  od_all (has_shape N 6) (PhiC.f phi) ∧
  od_all (has_shape N 6) (PhiC.df phi).

(** [phi] has a force array and a force-rate array for each of the patches. *)
Definition phi_keys (patch_names : list string) (phi : PhiC.t) : Prop :=
  ∀ patch, patch ∈ patch_names →
    patch ∈ od_keys (PhiC.f phi) ∧ patch ∈ od_keys (PhiC.df phi).

Definition phi_shape (N : nat) (patch_names : list string) (phi : PhiC.t) : Prop :=
  phi_rows N phi ∧ phi_keys patch_names phi.

(** The indices of [seq i len] that [removeDuplicates] keeps. *)
Definition kept_from (i len : nat) (indices : list nat) : list nat :=
  filter (λ m, m ∉ indices) (seq i len).

(** [R] relates every array of [phi] to the array of the same name of
    [phi']: the four fixed arrays, and for each patch its force array [f]
    and its force-rate array [df]. *)
Definition parallel_arrays (patch_names : list string) (phi phi' : PhiC.t)
    (R : Array2 → Array2 → Prop) : Prop :=
  R (PhiC.com_vcom phi) (PhiC.com_vcom phi') ∧
  R (PhiC.vcom_acom phi) (PhiC.vcom_acom phi') ∧
  R (PhiC.hg phi) (PhiC.hg phi') ∧
  R (PhiC.dhg phi) (PhiC.dhg phi') ∧
  ∀ patch, patch ∈ patch_names →
    ∃ a a' b b',
      od_get (PhiC.f phi) patch = Ok a ∧ od_get (PhiC.f phi') patch = Ok a' ∧
      od_get (PhiC.df phi) patch = Ok b ∧ od_get (PhiC.df phi') patch = Ok b' ∧
      R a a' ∧ R b b'.

(** [a'] and [a] have the same rows outside [n : n + nt]. *)
Definition same_outside (n nt : nat) (a a' : Array2) : Prop :=
  ∀ i, i < n ∨ n + nt ≤ i → a' !! i = a !! i.

End Vocabulary.

Section SegmentVocabulary.
Context {Sc : Scalar} {NP : Numpy}.

(** The rows of the interval [spl], whose samples start at row [n], in the
    state arrays of [phi]: every state row has at least 6 columns, its
    first 6 are the row of [com_vcom], and the row of [hg] is [mass] times
    its columns 3 to 5 followed by its last 3 columns; the same for the
    state derivative with [vcom_acom] and [dhg]. *)
Definition state_rows (mass : num) (spl : MsInterval) (n : nat) (phi : PhiC.t) : Prop :=
  (∀ j xr, state_trajectory spl !! j = Some xr →
     6 ≤ length xr ∧
     PhiC.com_vcom phi !! (n + j) = Some (py_slice 0 6 xr) ∧
     PhiC.hg phi !! (n + j)
       = Some ((num_mul mass <$> py_slice 3 6 xr) ++ py_suffix 3 xr)) ∧
  (∀ j dxr, dot_state_trajectory spl !! j = Some dxr →
     6 ≤ length dxr ∧
     PhiC.vcom_acom phi !! (n + j) = Some (py_slice 0 6 dxr) ∧
     PhiC.dhg phi !! (n + j)
       = Some ((num_mul mass <$> py_slice 3 6 dxr) ++ py_suffix 3 dxr)).

(** One of the two assignments of an iteration of the loop over the
    patches: the rows [n : n + nt] of the array of [patch] in [d] are set to
    the values of the polynomials [polys], at the columns of the patch, at
    the times [tt]. *)
Definition patch_half (polys : list poly1d) (tt : list num) (n nt : nat)
    (d : OrderedDict Array2) (patch : string) : Exc (OrderedDict Array2) :=
  rows <- exc_mapM (λ t, r <- od_get range_def patch;; f_poly polys t r) tt;;
  a <- od_get d patch;;
  a <- set_patch_rows a n nt rows;;
  Ok (od_update d patch a).

(** The array of [patch] in [d] holds, in the rows from [n] on, the values of
    the polynomials [polys] at the columns of the patch and the times [tt]. *)
Definition patch_rows (polys : list poly1d) (tt : list num) (n : nat)
    (d : OrderedDict Array2) (patch : string) : Prop :=
  ∃ r a, od_get range_def patch = Ok r ∧ od_get d patch = Ok a ∧
    ∀ j t, tt !! j = Some t →
      ∃ row, a !! (n + j) = Some row ∧ f_poly polys t r = Ok row.

(** The force and force-rate rows of the interval [spl] in [phi]: values of
    the polynomials fitted to the control of the interval. *)
Definition force_rows (patch_names : list string) (spl : MsInterval) (n : nat)
    (phi : PhiC.t) : Prop :=
  ∃ polys,
    polyfitND (time_trajectory spl) (m2a (control_trajectory spl)) 3 = Ok polys ∧
    ∀ patch, patch ∈ patch_names →
      patch_rows polys.1 (time_trajectory spl) n (PhiC.f phi) patch ∧
      patch_rows polys.2 (time_trajectory spl) n (PhiC.df phi) patch.

(** The row offset of the [k]-th interval: the number of samples of the
    intervals before it. *)
Definition segment_offset (segments : list MsInterval) (k : nat) : nat :=
  length (concat (time_trajectory <$> take k segments)).

(** The three sample arrays of every interval have as many rows as its time
    axis has timestamps. *)
Definition matching_rows (segments : list MsInterval) : Prop :=
  Forall (λ spl,
            length (state_trajectory spl) = length (time_trajectory spl) ∧
            length (dot_state_trajectory spl) = length (time_trajectory spl) ∧
            length (control_trajectory spl) = length (time_trajectory spl))
         segments.

End SegmentVocabulary.

Section WorldVocabulary.
Context {Sc : Scalar} {Pin : Pinocchio}.

(** Between [w] and [w'], the arguments [xs] and [rmodel], the console, and
    the attributes [cs], [ee_map] and [centroidalPhi] of the wrapper are
    the same. *)
Definition inputs_kept (w w' : World) : Prop :=
  xs w' = xs w ∧ rmodel w' = rmodel w ∧ console w' = console w ∧
  cs (self w') = cs (self w) ∧ ee_map (self w') = ee_map (self w) ∧
  centroidalPhi (self w') = centroidalPhi (self w).

(** The same, and moreover the attribute [phi_c] is the same. *)
Definition phi_c_kept (w w' : World) : Prop :=
  inputs_kept w w' ∧ phi_c (self w') = phi_c (self w).

(** The same, and moreover the attribute [ee_splines] is the same. *)
Definition ee_splines_kept (w w' : World) : Prop :=
  inputs_kept w w' ∧ ee_splines (self w') = ee_splines (self w).

(** The computation [m] relates every world it starts in to the world it
    ends in, whether it returns or raises. *)
Definition m_keeps {A} (R : relation World) (m : M A) : Prop :=
  ∀ w, R w (m w).2.

(** The world [w] with the attribute [ee_splines] of the wrapper set to [s]. *)
Definition with_ee_splines (s : option EESplines) (w : World) : World :=
  with_self (set_ee_splines s) w.

(** The value and derivative arrays of an interpolant have as many rows as
    it has timestamps. *)
Definition spline_rows_match (sp : CubicHermiteSpline) : Prop :=
  length (points sp) = length (abscissa sp) ∧
  length (derivatives sp) = length (abscissa sp).

(** The computation [m] neither reads nor writes the attribute
    [ee_splines]: setting it before or after [m] is the same. *)
Definition m_ignores_ee_splines {A} (m : M A) : Prop :=
  ∀ s w, m (with_ee_splines s w) = ((m w).1, with_ee_splines s (m w).2).

(** Two outcomes of a method agree: the same result or exception, worlds
    that differ at most in the attribute [ee_splines], and the same world
    when the method returned. *)
Definition outcomes_agree {A} (o o' : Exc A * World) : Prop :=
  o.1 = o'.1 ∧
  (∃ s, o.2 = with_ee_splines s o'.2) ∧
  (is_Ok o.1 → o.2 = o'.2).

End WorldVocabulary.

(** ** A small concrete instance

    Integers as scalars, a fit that keeps the samples of the column, and a
    kinematics engine that records the last configuration in its data. It
    serves to run the methods on concrete inputs. *)

Module Toy.

#[export] Instance Z_scalar : Scalar :=
  {| num := Z; num_zero := 0%Z; num_mul := Z.mul |}.

(** A "polynomial" is the list of the samples it was fitted to; its value at
    [t] is [t] plus the first sample. *)
Definition toy_linspace (t : Z) (n : nat) : list Z :=
  (λ i, t * Z.of_nat i)%Z <$> seq 0 n.

Definition toy_linspace_length (t : Z) (n : nat)
    : length (toy_linspace t n) = n :=
  eq_trans (length_fmap _ _) (length_seq n 0).

#[export] Instance toy_numpy : Numpy :=
  {| poly1d := list Z;
     np_polyfit := λ x y deg, Ok y;
     poly_eval := λ p t, (default 0 (head p) + t)%Z;
     poly_deriv := λ p, drop 1 p;
     np_linspace := toy_linspace;
     np_linspace_length := toy_linspace_length |}.

Record ToyModel : Type := {
  toy_nq : nat;
  toy_nv : nat;
  toy_frames : list string;
}.

Fixpoint frame_index (frames : list string) (name : string) : nat :=
  match frames with
  | [] => 0
  | n :: frames' => if decide (n = name) then 0 else S (frame_index frames' name)
  end.

(** The data holds the configuration and velocity of the last forward
    kinematics; a frame's position is the configuration shifted by the
    frame's index; an index past the last frame is an error. *)
#[export] Instance toy_pinocchio : Pinocchio :=
  {| Model := ToyModel;
     Data := list Z * list Z;
     model_nq := toy_nq;
     model_nv := toy_nv;
     forwardKinematics := λ m d q v, (Ok (), (q, v));
     getFrameId := λ m name, frame_index (toy_frames m) name;
     updateFramePlacement := λ m d id,
       if decide (id < length (toy_frames m))
       then (Ok ((λ c, c + Z.of_nat id)%Z <$> take 3 d.1), d)
       else (Raise (LibraryError 1), d);
     getFrameVelocity := λ m d id,
       if decide (id < length (toy_frames m))
       then Ok (take 3 d.2)
       else Raise (LibraryError 2);
     neutral := λ m, replicate (toy_nq m) 0%Z;
     crba := λ m d q, (Ok [[7%Z]], d) |}.

(** Sample data: state rows of 9 columns and control rows of a chosen
    width, whose entries tell the timestamp and the column apart. *)
Definition state_row (a : Z) : list Z := (λ i, a + Z.of_nat i)%Z <$> seq 0 9.

Definition control_row (width : nat) (a : Z) : list Z :=
  (λ i, a + Z.of_nat i)%Z <$> seq 0 width.

Definition interval (ts : list Z) (width : nat) : MsInterval :=
  {| time_trajectory := ts;
     state_trajectory := (λ t, state_row (10 * t)) <$> ts;
     dot_state_trajectory := (λ t, state_row (100 * t)) <$> ts;
     control_trajectory := (λ t, control_row width (1000 * t)) <$> ts |}.

(** The terminal marker that ends a contact sequence. *)
Definition terminal : MsInterval := interval [] 0.

Definition cs_of (intervals : list MsInterval) : ContactSequence :=
  {| ms_interval_data := intervals ++ [terminal] |}.

(** Two intervals that share the timestamp 2, controls of width 24. *)
Definition cs_two : ContactSequence :=
  cs_of [interval [0; 1; 2]%Z 24; interval [2; 3; 4]%Z 24].

(** One interval with controls of width 30, and one with width 12. *)
Definition cs_wide : ContactSequence := cs_of [interval [0; 1; 2]%Z 30].
Definition cs_narrow : ContactSequence := cs_of [interval [0; 1; 2]%Z 12].

(** Only the terminal marker. *)
Definition cs_terminal : ContactSequence := cs_of [].

Definition four_patches : OrderedDict string :=
  [("RF_patch", "rf"); ("LF_patch", "lf"); ("RH_patch", "rh"); ("LH_patch", "lh")].

Definition model : ToyModel :=
  {| toy_nq := 3; toy_nv := 3; toy_frames := ["rf"; "lf"; "rh"; "lh"] |}.

(** A freshly constructed wrapper, with the arguments of its methods. *)
Definition world (cs : ContactSequence) (ee_map : OrderedDict string)
    (xs : list (list Z)) : World :=
  {| self := Wrapper_init cs ee_map None; rmodel := model; rdata := ([], []);
     xs := xs; console := []; fk_calls := 0 |}.

(** Two robot states: 3 coordinates and 3 velocities each. *)
Definition two_states : list (list Z) :=
  [[1; 2; 3; 4; 5; 6]%Z; [7; 8; 9; 10; 11; 12]%Z].

End Toy.

(** ** Vocabulary of the further properties *)

Section FurtherVocabulary.
Context {Sc : Scalar} {NP : Numpy} {Pin : Pinocchio}.

(** The world [w] with the attribute [cs] of the wrapper set to [c]. *)
Definition with_cs (c : ContactSequence) (w : World) : World :=
  with_self (λ sf, {| cs := c; ee_map := ee_map sf; ee_splines := ee_splines sf;
                      centroidalPhi := centroidalPhi sf; phi_c := phi_c sf |}) w.

(** Column [i] of the two arrays of the interpolant [sp] holds what the
    kinematics library gave for the [i]-th robot state and the frame of
    [patch]: forward kinematics on the first [nq] and the last [nv] entries
    of the state, then the translation of the updated frame placement, then
    the linear part of the frame velocity, each on the data the call before
    left. ([p[:, i] = t] broadcasts [t] to the 3 rows.) *)
Definition sampled_at (w : World) (patch : string) (i : nat)
    (sp : CubicHermiteSpline) : Prop :=
  ∃ x_i frame d0 d1 d2 translation linear,
    xs w !! i = Some x_i ∧
    od_get (ee_map (self w)) patch = Ok frame ∧
    forwardKinematics (rmodel w) d0
      (a2m (take (model_nq (rmodel w)) x_i))
      (a2m (py_suffix (model_nv (rmodel w)) x_i)) = (Ok (), d1) ∧
    updateFramePlacement (rmodel w) d1 (getFrameId (rmodel w) frame)
    = (Ok translation, d2) ∧
    getFrameVelocity (rmodel w) d2 (getFrameId (rmodel w) frame) = Ok linear ∧
    broadcast1 3 (m2a translation) = Ok (np_column i (points sp)) ∧
    broadcast1 3 (m2a linear) = Ok (np_column i (derivatives sp)).

(** The interpolant [sp] is what [createEESplines] builds for [patch] from
    the [N] robot states of [w]: the sampling times as abscissa, and two
    arrays of 3 rows and [N] columns whose columns are sampled as above. *)
Definition ee_spline_of (t_sampling : num) (w : World) (patch : string)
    (sp : CubicHermiteSpline) : Prop :=
  abscissa sp = a2m (np_linspace t_sampling (length (xs w))) ∧
  has_shape 3 (length (xs w)) (points sp) ∧
  has_shape 3 (length (xs w)) (derivatives sp) ∧
  ∀ i, i < length (xs w) → sampled_at w patch i sp.

(** The worlds [w] and [w'] differ at most in the robot data and in the
    count of the forward kinematics. *)
Definition sampling_frame (w w' : World) : Prop :=
  self w' = self w ∧ rmodel w' = rmodel w ∧ xs w' = xs w ∧ console w' = console w.

(** The kinematics library does not raise for the model [m], whatever the
    data and the arguments, and gives positions and velocities of 3
    coordinates. *)
Definition kinematics_returns (m : Model) : Prop :=
  (∀ d q v, (forwardKinematics m d q v).1 = Ok ()) ∧
  (∀ d id, ∃ t, (updateFramePlacement m d id).1 = Ok t ∧ length t = 3) ∧
  (∀ d id, ∃ l, getFrameVelocity m d id = Ok l ∧ length l = 3).

(** After a call of [createEESplines], the spline map holds entries for
    patches of the end-effector map only. *)
Definition splines_of_map (w w' : World) : Prop :=
  ∃ m, ee_splines (self w') = Some m ∧
       ∀ k, k ∈ od_keys m → k ∈ od_keys (ee_map (self w)).

(** The exception [e] comes from the kinematics library, for the model [m]:
    one of its calls raises [e] for some data and arguments, or [e] is the
    [ValueError] of the assignment of a position or velocity that has
    neither 3 coordinates nor 1. *)
Definition kinematics_fault (m : Model) (e : PyError) : Prop :=
  (∃ d q v, (forwardKinematics m d q v).1 = Raise e) ∨
  (∃ d id, (updateFramePlacement m d id).1 = Raise e) ∨
  (∃ d id, getFrameVelocity m d id = Raise e) ∨
  (e = ValueError ∧
   ((∃ d id t, (updateFramePlacement m d id).1 = Ok t ∧ length t ≠ 3 ∧ length t ≠ 1) ∨
    (∃ d id l, getFrameVelocity m d id = Ok l ∧ length l ≠ 3 ∧ length l ≠ 1))).

(** The worlds [w] and [w'] have the same robot model, state trajectory and
    end-effector map. *)
Definition sampling_inputs (w w' : World) : Prop :=
  rmodel w' = rmodel w ∧ xs w' = xs w ∧ ee_map (self w') = ee_map (self w).

(** An interval that [createCentroidalPhi] can process: at least one
    sample, as many state, state-derivative and control rows as timestamps,
    state and state-derivative rows of at least 6 columns, controls of at
    least 24 columns, and a polynomial fit of the controls that succeeds. *)
Definition well_formed_interval (spl : MsInterval) : Prop :=
  time_trajectory spl ≠ [] ∧
  length (state_trajectory spl) = length (time_trajectory spl) ∧
  length (dot_state_trajectory spl) = length (time_trajectory spl) ∧
  length (control_trajectory spl) = length (time_trajectory spl) ∧
  Forall (λ r, 6 ≤ length r) (state_trajectory spl) ∧
  Forall (λ r, 6 ≤ length r) (dot_state_trajectory spl) ∧
  24 ≤ np_width (control_trajectory spl) ∧
  is_Ok (polyfitND (time_trajectory spl) (m2a (control_trajectory spl)) 3).

End FurtherVocabulary.

(** ** A kinematics library that always returns

    For runs on concrete inputs: the data counts the forward kinematics,
    and a frame sits at its index and at that count. *)

Module ToyKinematics.
Import Toy.

Definition still_pinocchio : Pinocchio :=
  {| Model := ToyModel;
     Data := nat;
     model_nq := toy_nq;
     model_nv := toy_nv;
     forwardKinematics := λ m d q v, (Ok (), S d);
     getFrameId := λ m name, frame_index (toy_frames m) name;
     updateFramePlacement := λ m d id, (Ok [Z.of_nat id; Z.of_nat d; 0%Z], d);
     getFrameVelocity := λ m d id, Ok [1%Z; 0%Z; Z.of_nat id];
     neutral := λ m, replicate (toy_nq m) 0%Z;
     crba := λ m d q, (Ok [[7%Z]], d) |}.

Definition still_world (xs : list (list Z)) : @World Z_scalar still_pinocchio :=
  @Build_World Z_scalar still_pinocchio
    (Wrapper_init cs_terminal four_patches None) model 0 xs [] 0.

(** An interval whose state rows have 3 columns. *)
Definition flat_interval : MsInterval :=
  {| time_trajectory := [0; 1]%Z;
     state_trajectory := [[1; 2; 3]; [4; 5; 6]]%Z;
     dot_state_trajectory := [state_row 0; state_row 1];
     control_trajectory := [control_row 24 0; control_row 24 1] |}.

(** The contact sequence [cs_two] with another last element. *)
Definition cs_two_other_end : ContactSequence :=
  {| ms_interval_data :=
       [interval [0; 1; 2]%Z 24; interval [2; 3; 4]%Z 24; interval [9]%Z 3] |}.

End ToyKinematics.

(** * Properties *)

(** ** The error monad *)

Lemma exc_bind_Ok {A B} (m : Exc A) (k : A → Exc B) b :
  exc_bind m k = Ok b → ∃ a, m = Ok a ∧ k a = Ok b.
Proof. destruct m as [a|e]; simpl; [eauto | discriminate]. Qed.

Lemma exc_okb_Ok {A} (m : Exc A) : exc_okb m = true → ∃ a, m = Ok a.
Proof. destruct m as [a|e]; [by exists a | discriminate]. Qed.

Ltac exc_inv H :=
  match type of H with
  | exc_bind _ _ = Ok _ =>
      let a := fresh "a" in let Ha := fresh "E" in
      apply exc_bind_Ok in H as (a & Ha & H); exc_inv H
  | Ok _ = Ok _ => injection H as H
  | Raise _ = Ok _ => discriminate H
  | _ => idtac
  end.

Lemma exc_mapM_Ok_length {A B} (k : A → Exc B) l bs :
  exc_mapM k l = Ok bs → length bs = length l.
Proof.
  revert bs. induction l as [|a l IH]; intros bs H; simpl in H.
  - by injection H as <-.
  - exc_inv H. subst bs. simpl. f_equal. by apply IH.
Qed.

Lemma exc_mapM_Ok_lookup {A B} (k : A → Exc B) l bs i a :
  exc_mapM k l = Ok bs → l !! i = Some a → ∃ b, bs !! i = Some b ∧ k a = Ok b.
Proof.
  revert bs i. induction l as [|a' l IH]; intros bs i H Hi; [done|].
  simpl in H. exc_inv H. subst bs. destruct i as [|i]; simpl in *.
  - injection Hi as ->. eauto.
  - eauto.
Qed.

Lemma exc_foldl_app {A B} (k : B → A → Exc B) b l1 l2 :
  exc_foldl k b (l1 ++ l2) = exc_bind (exc_foldl k b l1) (λ b', exc_foldl k b' l2).
Proof.
  revert b. induction l1 as [|a l1 IH]; intros b; simpl; [done|].
  destruct (k b a) as [b'|e]; simpl; [apply IH | done].
Qed.

(** An invariant of the loop state is kept by a loop that completes. *)
Lemma exc_foldl_inv {A B} (P : B → Prop) (k : B → A → Exc B) l b b' :
  (∀ b a b', P b → k b a = Ok b' → P b') →
  P b → exc_foldl k b l = Ok b' → P b'.
Proof.
  intros Hk. revert b. induction l as [|a l IH]; intros b Hb H; simpl in H.
  - by injection H as <-.
  - exc_inv H. eauto.
Qed.

(** ** OrderedDict *)

Section OrderedDict.
Context {V : Type}.
Implicit Types (d : OrderedDict V) (k : string) (v : V).

Lemma od_get_update d k v k' :
  od_get (od_update d k v) k' = if decide (k = k') then Ok v else od_get d k'.
Proof.
  induction d as [|[k0 v0] d IH]; simpl.
  - done.
  - destruct (decide (k0 = k)) as [->|Hne]; simpl.
    + by destruct (decide (k = k')).
    + rewrite IH. destruct (decide (k0 = k')) as [->|]; [|done].
      by rewrite decide_False.
Qed.

Lemma od_get_Ok_keys d k : is_Ok (od_get d k) ↔ k ∈ od_keys d.
Proof.
  unfold od_keys, is_Ok.
  induction d as [|[k0 v0] d IH]; simpl.
  - split; [intros [? ?]; discriminate | by intros ?%elem_of_nil].
  - rewrite elem_of_cons. destruct (decide (k0 = k)) as [->|Hne].
    + split; eauto.
    + rewrite IH. split; [tauto | intros [?|?]; [congruence | done]].
Qed.

Lemma od_get_Raise d k e : od_get d k = Raise e → e = KeyError k ∧ k ∉ od_keys d.
Proof.
  intros H. split.
  - induction d as [|[k0 v0] d IH]; simpl in H; [congruence|].
    destruct (decide (k0 = k)); [discriminate | auto].
  - intros [v Hv]%od_get_Ok_keys. congruence.
Qed.

Lemma od_keys_update_present d k v :
  k ∈ od_keys d → od_keys (od_update d k v) = od_keys d.
Proof.
  unfold od_keys. induction d as [|[k0 v0] d IH]; simpl.
  - by intros ?%elem_of_nil.
  - intros Hk. destruct (decide (k0 = k)) as [->|Hne]; simpl; [done|].
    f_equal. apply IH. apply elem_of_cons in Hk as [?|?]; [congruence | done].
Qed.

End OrderedDict.

(** ** numpy slice assignment *)

Section ArrayLemmas.
Context {Sc : Scalar}.

Lemma broadcast1_Ok_length {A} n (l l' : list A) :
  broadcast1 n l = Ok l' → length l' = n.
Proof.
  unfold broadcast1. destruct (decide (length l = n)) as [<-|_].
  - by intros [= ->].
  - destruct l as [|a [|? ?]]; intros [= <-]. by rewrite length_replicate.
Qed.

Lemma broadcast1_same {A} n (l : list A) : length l = n → broadcast1 n l = Ok l.
Proof. intros H. unfold broadcast1. by rewrite decide_True. Qed.

Lemma broadcast_to_Ok_length nr nc src blk :
  broadcast_to nr nc src = Ok blk → length blk = nr.
Proof.
  unfold broadcast_to. intros H. exc_inv H. by apply broadcast1_Ok_length in H.
Qed.

Lemma py_slice_length {A} a b (l : list A) :
  length (py_slice a b l) = (b - a) `min` (length l - a).
Proof. unfold py_slice. by rewrite length_take, length_drop. Qed.

Lemma exc_mapM_Ok_Forall {A B} (P : B → Prop) (k : A → Exc B) l bs :
  (∀ a b, k a = Ok b → P b) → exc_mapM k l = Ok bs → Forall P bs.
Proof.
  intros Hk. revert bs. induction l as [|a l IH]; intros bs H; simpl in H.
  - injection H as <-. constructor.
  - exc_inv H. subst bs. constructor; eauto.
Qed.

Lemma broadcast_to_Ok_shape nr nc src blk :
  broadcast_to nr nc src = Ok blk → has_shape nr nc blk.
Proof.
  unfold broadcast_to. intros H. exc_inv H. split.
  - by apply broadcast1_Ok_length in H.
  - apply (exc_mapM_Ok_Forall (λ r, length r = nc)) in E;
      [|intros ? ?; apply broadcast1_Ok_length].
    unfold broadcast1 in H. destruct (decide (length a = nr)).
    + by injection H as <-.
    + destruct a as [|r [|? ?]]; try discriminate. injection H as <-.
      apply Forall_replicate. by apply Forall_cons in E as [? _].
Qed.

(** A slice assignment never changes the shape of the array. *)
Lemma np_setitem_shape (n c : nat) dst r0 r1 c0 c1 src dst' :
  np_setitem dst r0 r1 c0 c1 src = Ok dst' →
  c0 ≤ c1 ≤ c → has_shape n c dst → has_shape n c dst'.
Proof.
  unfold np_setitem. intros H Hc [Hn Hw]. exc_inv H. subst dst'.
  apply broadcast_to_Ok_shape in E as [E Hblk]. split.
  - rewrite !length_app, length_zip_with, E, length_take, length_drop.
    rewrite py_slice_length. lia.
  - rewrite !Forall_app. split_and!.
    + by apply Forall_take.
    + apply Forall_lookup. intros i r.
      rewrite lookup_zip_with_Some. intros (row & new & -> & Hrow & Hnew).
      assert (Hold : Forall (λ r, length r = c) (py_slice r0 r1 dst))
        by (by apply Forall_take, Forall_drop).
      rewrite Forall_lookup in Hold, Hblk.
      rewrite !length_app, length_take, length_drop.
      rewrite (Hold _ _ Hrow), (Hblk _ _ Hnew). lia.
    + by apply Forall_drop.
Qed.

Lemma set_patch_rows_shape n dst r0 nt rows dst' :
  set_patch_rows dst r0 nt rows = Ok dst' →
  has_shape n 6 dst → has_shape n 6 dst'.
Proof.
  unfold set_patch_rows. destruct rows; [discriminate|].
  intros H. eapply np_setitem_shape; [exact H | lia].
Qed.

Lemma np_zeros_shape n c : has_shape n c (np_zeros n c).
Proof.
  split; [apply length_replicate|].
  apply Forall_replicate, length_replicate.
Qed.

End ArrayLemmas.

(** ** findDuplicates and removeDuplicates *)

Section SplineUtilsLemmas.
Context {Sc : Scalar}.

Lemma repeated_at_middle (pre : list num) x post :
  repeated_at (pre ++ x :: post) (length pre) ↔ x ∈ pre.
Proof.
  unfold repeated_at. rewrite list_lookup_middle by done.
  by rewrite take_app_length.
Qed.

Lemma findDuplicates_from_filter arr : ∀ pre seen,
  (∀ x, x ∈ seen ↔ x ∈ pre) →
  findDuplicates_from seen (length pre) arr
  = filter (repeated_at (pre ++ arr)) (seq (length pre) (length arr)).
Proof.
  induction arr as [|x arr IH]; intros pre seen Hseen; simpl; [done|].
  rewrite filter_cons.
  destruct (decide (x ∈ seen)) as [Hin|Hnin].
  - rewrite decide_True by (apply repeated_at_middle, Hseen, Hin).
    f_equal. specialize (IH (pre ++ [x]) seen).
    rewrite length_app, <- app_assoc in IH. simpl in IH.
    rewrite Nat.add_1_r in IH. apply IH.
    intros y. rewrite elem_of_app, list_elem_of_singleton, <- Hseen.
    split; [tauto | intros [?| ->]; done].
  - rewrite decide_False by (rewrite repeated_at_middle, <- Hseen; done).
    specialize (IH (pre ++ [x]) (x :: seen)).
    rewrite length_app, <- app_assoc in IH. simpl in IH.
    rewrite Nat.add_1_r in IH. apply IH.
    intros y. rewrite elem_of_app, list_elem_of_singleton, elem_of_cons, <- Hseen.
    tauto.
Qed.

(** The marked indices are exactly the indices of the timestamps that equal
    an earlier one, in increasing order. *)
Lemma findDuplicates_filter (t : list num) :
  findDuplicates t = filter (repeated_at t) (seq 0 (length t)).
Proof. apply (findDuplicates_from_filter t [] []). done. Qed.

Lemma elem_of_findDuplicates (t : list num) i :
  i ∈ findDuplicates t ↔ repeated_at t i.
Proof.
  rewrite findDuplicates_filter, list_elem_of_filter, elem_of_seq.
  split; [tauto|]. intros H. split; [done|].
  unfold repeated_at in H. destruct (t !! i) eqn:Hi; [|done].
  apply lookup_lt_Some in Hi. lia.
Qed.

Lemma removeDuplicates_from_length {A} (arr : list A) i indices :
  length (removeDuplicates_from i arr indices)
  = length (kept_from i (length arr) indices).
Proof.
  unfold kept_from. revert i. induction arr as [|a arr IH]; intros i; simpl; [done|].
  rewrite filter_cons. destruct (decide (i ∈ indices)).
  - by rewrite decide_False by tauto.
  - rewrite decide_True by done. simpl. by rewrite IH.
Qed.

Lemma removeDuplicates_from_sublist {A} (arr : list A) i indices :
  sublist (removeDuplicates_from i arr indices) arr.
Proof.
  revert i. induction arr as [|a arr IH]; intros i; simpl; [constructor|].
  destruct (decide (i ∈ indices)); [apply sublist_cons | apply sublist_skip]; apply IH.
Qed.

Lemma removeDuplicates_from_lookup {A} (arr : list A) i indices j :
  removeDuplicates_from i arr indices !! j
  = kept_from i (length arr) indices !! j ≫= λ m, arr !! (m - i).
Proof.
  unfold kept_from. revert i j.
  induction arr as [|a arr IH]; intros i j; simpl; [done|].
  assert (Hshift : ∀ j,
    (filter (λ m, m ∉ indices) (seq (S i) (length arr)) !! j
       ≫= λ m, (a :: arr) !! (m - i))
    = (filter (λ m, m ∉ indices) (seq (S i) (length arr)) !! j
       ≫= λ m, arr !! (m - S i))).
  { intros j'. destruct (filter _ _ !! j') as [m|] eqn:Hm; simpl; [|done].
    apply list_elem_of_lookup_2, list_elem_of_filter in Hm as [_ Hm].
    apply elem_of_seq in Hm. by replace (m - i) with (S (m - S i)) by lia. }
  rewrite filter_cons. destruct (decide (i ∈ indices)).
  - rewrite decide_False by tauto. by rewrite IH, Hshift.
  - rewrite decide_True by done. destruct j as [|j]; simpl.
    + by rewrite Nat.sub_diag.
    + by rewrite IH, <- Hshift.
Qed.

Lemma kept_findDuplicates (t : list num) :
  kept_from 0 (length t) (findDuplicates t)
  = filter (λ i, ¬ repeated_at t i) (seq 0 (length t)).
Proof.
  unfold kept_from. apply list_filter_iff. intros i.
  by rewrite elem_of_findDuplicates.
Qed.

Lemma kept_findDuplicates_length (t : list num) :
  length (kept_from 0 (length t) (findDuplicates t))
  = length t - count_repeated t.
Proof.
  rewrite kept_findDuplicates. unfold count_repeated.
  pose proof (filter_app_complement (repeated_at t) (seq 0 (length t))) as Hp.
  apply Permutation_length in Hp. rewrite length_app, length_seq in Hp. lia.
Qed.

Lemma first_occurrence_unique (t : list num) x i j :
  first_occurrence t x i → first_occurrence t x j → i = j.
Proof.
  assert (Hlt : ∀ i j, first_occurrence t x i → first_occurrence t x j → ¬ i < j).
  { intros i' j' [Hi _] [_ Hj] Hlt. apply Hj.
    apply list_elem_of_lookup. exists i'. by rewrite lookup_take_lt. }
  intros Hi Hj. pose proof (Hlt _ _ Hi Hj). pose proof (Hlt _ _ Hj Hi). lia.
Qed.

(** What deduplication does to any array parallel to the timeline. *)
Lemma removeDuplicates_deduplicated {A} (t : list num) (a : list A) :
  length a = length t →
  deduplicated t (removeDuplicates t (findDuplicates t))
               a (removeDuplicates a (findDuplicates t)).
Proof.
  intros Hlen. unfold deduplicated, removeDuplicates. split; [|split].
  - by rewrite removeDuplicates_from_length, Hlen, kept_findDuplicates_length.
  - apply removeDuplicates_from_sublist.
  - intros j x i Hj Hi. rewrite removeDuplicates_from_lookup in Hj.
    rewrite removeDuplicates_from_lookup.
    rewrite Hlen. destruct (kept_from _ _ _ !! j) as [m|] eqn:Hm; [|done].
    simpl in *. rewrite Nat.sub_0_r in *. f_equal.
    apply (first_occurrence_unique t x); [|done]. split; [done|].
    apply list_elem_of_lookup_2 in Hm. rewrite kept_findDuplicates in Hm.
    apply list_elem_of_filter in Hm as [Hm _]. unfold repeated_at in Hm.
    by rewrite Hj in Hm.
Qed.

(** Every retained timestamp has a first occurrence in the timeline. *)
Lemma removeDuplicates_first_occurrence (t : list num) j x :
  removeDuplicates t (findDuplicates t) !! j = Some x →
  ∃ i, first_occurrence t x i.
Proof.
  unfold removeDuplicates. rewrite removeDuplicates_from_lookup.
  destruct (kept_from _ _ _ !! j) as [m|] eqn:Hm; [|done].
  simpl. rewrite Nat.sub_0_r. intros Hx. exists m. split; [done|].
  apply list_elem_of_lookup_2 in Hm. rewrite kept_findDuplicates in Hm.
  apply list_elem_of_filter in Hm as [Hm _]. unfold repeated_at in Hm.
  by rewrite Hx in Hm.
Qed.

End SplineUtilsLemmas.


(** ** The arrays of createCentroidalPhi keep their shape *)

Section OrderedDictInvariants.
Context {V : Type}.
Implicit Types (d : OrderedDict V) (k : string) (v : V).

Lemma od_keys_update d k v k' :
  k' ∈ od_keys (od_update d k v) ↔ k' = k ∨ k' ∈ od_keys d.
Proof.
  rewrite <- !od_get_Ok_keys, od_get_update. unfold is_Ok.
  destruct (decide (k = k')) as [->|Hne].
  - split; eauto.
  - split; [tauto | intros [?|?]; [congruence | done]].
Qed.

Lemma od_all_update (P : V → Prop) d k v :
  od_all P d → P v → od_all P (od_update d k v).
Proof.
  intros Hd Hv k' v'. rewrite od_get_update.
  destruct (decide (k = k')); [by intros [= <-] | apply Hd].
Qed.

Lemma od_all_nil (P : V → Prop) : od_all P [].
Proof. intros k v. discriminate. Qed.

End OrderedDictInvariants.

Section Shape.
Context {Sc : Scalar} {NP : Numpy}.

Lemma foldl_inv {A B} (P : B → Prop) (k : B → A → B) l b :
  (∀ b a, P b → P (k b a)) → P b → P (foldl k b l).
Proof. intros Hk. revert b. induction l; simpl; auto. Qed.

Lemma PhiC_new_rows patch_names N : phi_rows N (PhiC_new patch_names N).
Proof.
  unfold phi_rows, PhiC_new. simpl.
  split_and!; try apply np_zeros_shape.
  - apply (foldl_inv (λ fdf, od_all _ fdf.1)); [|apply od_all_nil].
    intros b a Hb. simpl. apply od_all_update; [done | apply np_zeros_shape].
  - apply (foldl_inv (λ fdf, od_all _ fdf.2)); [|apply od_all_nil].
    intros b a Hb. simpl. apply od_all_update; [done | apply np_zeros_shape].
Qed.

Lemma PhiC_new_keys patch_names N : phi_keys patch_names (PhiC_new patch_names N).
Proof.
  unfold phi_keys, PhiC_new. simpl.
  generalize (@nil (string * Array2), @nil (string * Array2)).
  induction patch_names as [|a l IH]; intros acc patch Hin.
  - by apply elem_of_nil in Hin.
  - simpl. destruct (decide (patch ∈ l)) as [Hl|Hl]; [by apply IH|].
    apply elem_of_cons in Hin as [->|?]; [|done].
    split.
    + apply (foldl_inv (λ fdf, a ∈ od_keys fdf.1)).
      * intros b c Hb. simpl. apply od_keys_update. by right.
      * simpl. apply od_keys_update. by left.
    + apply (foldl_inv (λ fdf, a ∈ od_keys fdf.2)).
      * intros b c Hb. simpl. apply od_keys_update. by right.
      * simpl. apply od_keys_update. by left.
Qed.

Lemma patch_step_shape N (names : list string) poly_u dpoly_u tt n nt fdf patch fdf' :
  patch_step poly_u dpoly_u tt n nt fdf patch = Ok fdf' →
  (od_all (has_shape N 6) fdf.1 ∧ od_all (has_shape N 6) fdf.2
   ∧ ∀ p, p ∈ names → p ∈ od_keys fdf.1 ∧ p ∈ od_keys fdf.2) →
  (od_all (has_shape N 6) fdf'.1 ∧ od_all (has_shape N 6) fdf'.2
   ∧ ∀ p, p ∈ names → p ∈ od_keys fdf'.1 ∧ p ∈ od_keys fdf'.2).
Proof.
  unfold patch_step. intros H (Hf & Hdf & Hk). exc_inv H. subst fdf'. simpl.
  split; [|split].
  - apply od_all_update; [done|].
    eapply set_patch_rows_shape; [exact E1|]. by apply (Hf patch).
  - apply od_all_update; [done|].
    eapply set_patch_rows_shape; [exact E4|]. by apply (Hdf patch).
  - intros p Hp. rewrite !od_keys_update. destruct (Hk p Hp). tauto.
Qed.

Lemma segment_step_shape N names mass patch_names t_traj st spl st' :
  segment_step mass patch_names t_traj st spl = Ok st' →
  phi_shape N names st.2 → phi_shape N names st'.2.
Proof.
  unfold segment_step. intros H [(H1 & H2 & H3 & H4 & H5 & H6) Hk].
  exc_inv H. subst st'. simpl.
  assert (Hs33 : 3 ≤ 6 ≤ 6) by lia. assert (Hs06 : 0 ≤ 6 ≤ 6) by lia.
  assert (Hs03 : 0 ≤ 3 ≤ 6) by lia.
  pose proof (np_setitem_shape N 6 _ _ _ _ _ _ _ E Hs06 H1).
  pose proof (np_setitem_shape N 6 _ _ _ _ _ _ _ E0 Hs06 H2).
  pose proof (np_setitem_shape N 6 _ _ _ _ _ _ _ E1 Hs33 H3) as H3'.
  pose proof (np_setitem_shape N 6 _ _ _ _ _ _ _ E2 Hs33 H4) as H4'.
  pose proof (np_setitem_shape N 6 _ _ _ _ _ _ _ E3 Hs03 H3').
  pose proof (np_setitem_shape N 6 _ _ _ _ _ _ _ E4 Hs03 H4').
  pose (P := λ fdf : OrderedDict Array2 * OrderedDict Array2,
             od_all (has_shape N 6) fdf.1 ∧ od_all (has_shape N 6) fdf.2
             ∧ ∀ p, p ∈ names → p ∈ od_keys fdf.1 ∧ p ∈ od_keys fdf.2).
  assert (P a6) as (Hf & Hdf & Hk').
  { eapply (exc_foldl_inv P _ _ (PhiC.f st.2, PhiC.df st.2)); [| |exact E6].
    - intros b c b' Hb Hs. eapply patch_step_shape; eauto.
    - unfold P. simpl. auto. }
  split; [|exact Hk']. unfold phi_rows. simpl. by split_and!.
Qed.

(** The loop over the intervals leaves every array with the [N] rows it was
    allocated with, and every patch with its two arrays. *)
Lemma fill_phi_shape N names mass patch_names t_traj segments phi st :
  fill_phi mass patch_names t_traj segments phi = Ok st →
  phi_shape N names phi → phi_shape N names st.2.
Proof.
  intros H Hphi.
  eapply (exc_foldl_inv (λ st, phi_shape N names st.2) _ _ (0, phi)); [|exact Hphi|exact H].
  intros b a b' Hb Hs. eapply segment_step_shape; eauto.
Qed.

(** The class body of [PhiC2]: each patch gets its two arrays with the
    marked rows removed. *)
Lemma PhiC2_new_get patch_names phi duplicates phi2 patch :
  PhiC2_new patch_names phi duplicates = Ok phi2 →
  patch ∈ patch_names →
  ∃ a b, od_get (PhiC.f phi) patch = Ok a ∧ od_get (PhiC.df phi) patch = Ok b ∧
         od_get (PhiC.f phi2) patch = Ok (removeDuplicates a duplicates) ∧
         od_get (PhiC.df phi2) patch = Ok (removeDuplicates b duplicates).
Proof.
  unfold PhiC2_new. intros H Hin. exc_inv H. subst phi2. simpl.
  revert a E Hin. generalize (@nil (string * Array2), @nil (string * Array2)).
  set (step := λ (fdf : OrderedDict Array2 * OrderedDict Array2) (patch : string), _).
  assert (Hout : ∀ l acc r, exc_foldl step acc l = Ok r → patch ∉ l →
            od_get r.1 patch = od_get acc.1 patch ∧
            od_get r.2 patch = od_get acc.2 patch).
  { induction l as [|c l IH]; intros acc r Hr Hnin; simpl in Hr.
    - by injection Hr as <-.
    - apply exc_bind_Ok in Hr as (acc' & Hs & Hr).
      apply not_elem_of_cons in Hnin as [Hne Hnin].
      destruct (IH _ _ Hr Hnin) as [-> ->].
      unfold step in Hs. exc_inv Hs. subst acc'. simpl.
      rewrite !od_get_update, !decide_False by done. done. }
  induction patch_names as [|c l IH]; intros acc r Hr Hin; simpl in Hr.
  - by apply elem_of_nil in Hin.
  - apply exc_bind_Ok in Hr as (acc' & Hs & Hr).
    destruct (decide (patch ∈ l)) as [Hl|Hl]; [by eapply IH|].
    apply elem_of_cons in Hin as [->|?]; [|done].
    destruct (Hout _ _ _ Hr Hl) as [-> ->].
    unfold step in Hs. exc_inv Hs. subst acc'. simpl.
    rewrite !od_get_update, !decide_True by done. by exists a, a0.
Qed.

Lemma PhiC2_new_arrays patch_names phi duplicates phi2 :
  PhiC2_new patch_names phi duplicates = Ok phi2 →
  PhiC.com_vcom phi2 = removeDuplicates (PhiC.com_vcom phi) duplicates ∧
  PhiC.vcom_acom phi2 = removeDuplicates (PhiC.vcom_acom phi) duplicates ∧
  PhiC.hg phi2 = removeDuplicates (PhiC.hg phi) duplicates ∧
  PhiC.dhg phi2 = removeDuplicates (PhiC.dhg phi) duplicates.
Proof. unfold PhiC2_new. intros H. exc_inv H. by subst phi2. Qed.

(** What [centroidal_samples] returns, stage by stage. *)
Lemma centroidal_samples_Ok cs patch_names mass s :
  centroidal_samples cs patch_names mass = Ok s →
  ∃ n,
    raw_timeline s = timeline cs ∧
    fill_phi mass patch_names (timeline cs) (py_but_last (ms_interval_data cs))
             (PhiC_new patch_names (length (timeline cs))) = Ok (n, phi_c_ s) ∧
    t_traj s = removeDuplicates (timeline cs) (findDuplicates (timeline cs)) ∧
    PhiC2_new patch_names (phi_c_ s) (findDuplicates (timeline cs)) = Ok (phi_c_2 s).
Proof.
  unfold centroidal_samples. intros H. exc_inv H. subst s. simpl.
  destruct a as [n phi]. eauto.
Qed.

Lemma centroidal_samples_shape cs patch_names mass s :
  centroidal_samples cs patch_names mass = Ok s →
  phi_shape (length (raw_timeline s)) patch_names (phi_c_ s).
Proof.
  intros (n & -> & Hfill & _ & _)%centroidal_samples_Ok.
  apply (fill_phi_shape (length (timeline cs)) patch_names) in Hfill; [done|].
  split; [apply PhiC_new_rows | apply PhiC_new_keys].
Qed.

Lemma parallel_arrays_impl patch_names phi phi' (R R' : Array2 → Array2 → Prop) :
  (∀ a a', R a a' → R' a a') →
  parallel_arrays patch_names phi phi' R → parallel_arrays patch_names phi phi' R'.
Proof.
  intros HR (H1 & H2 & H3 & H4 & Hp). split_and!; auto.
  intros patch Hin. destruct (Hp patch Hin) as (a & a' & b & b' & ? & ? & ? & ? & ? & ?).
  exists a, a', b, b'. split_and!; auto.
Qed.

(** The deduplication stage, array by array. *)
Lemma centroidal_samples_deduplicated cs patch_names mass s :
  centroidal_samples cs patch_names mass = Ok s →
  deduplicated (raw_timeline s) (t_traj s) (raw_timeline s) (t_traj s) ∧
  parallel_arrays patch_names (phi_c_ s) (phi_c_2 s)
                  (deduplicated (raw_timeline s) (t_traj s)).
Proof.
  intros H. pose proof (centroidal_samples_shape _ _ _ _ H) as [Hrows _].
  destruct Hrows as (H1 & H2 & H3 & H4 & H5 & H6).
  apply centroidal_samples_Ok in H as (n & Ht & _ & Ht' & H2new).
  unfold parallel_arrays. rewrite Ht' , Ht in *.
  destruct (PhiC2_new_arrays _ _ _ _ H2new) as (-> & -> & -> & ->).
  destruct H1 as [H1 _], H2 as [H2 _], H3 as [H3 _], H4 as [H4 _].
  split_and!; try by apply removeDuplicates_deduplicated.
  intros patch Hin.
  destruct (PhiC2_new_get _ _ _ _ _ H2new Hin) as (a & b & Ha & Hb & Ha' & Hb').
  eexists a, _, b, _. split_and!; try done.
  - apply removeDuplicates_deduplicated. by apply (H5 patch).
  - apply removeDuplicates_deduplicated. by apply (H6 patch).
Qed.

End Shape.

(** ** Deduplication of a timeline that never decreases *)

Section Monotone.
Context {Sc : Scalar} (lt : relation num) `{!StrictOrder lt}.

Lemma findDuplicates_from_ge seen i (arr : list num) m :
  m ∈ findDuplicates_from seen i arr → i ≤ m.
Proof.
  revert seen i. induction arr as [|x arr IH]; intros seen i; simpl.
  - by intros ?%elem_of_nil.
  - destruct (decide (x ∈ seen)).
    + intros [->|Hm%IH]%elem_of_cons; lia.
    + intros Hm%IH. lia.
Qed.

Lemma removeDuplicates_from_cons_lt {A} (arr : list A) i j d :
  j < i → removeDuplicates_from i arr (j :: d) = removeDuplicates_from i arr d.
Proof.
  revert i. induction arr as [|a arr IH]; intros i Hj; simpl; [done|].
  rewrite IH by lia. destruct (decide (i ∈ d)).
  - rewrite decide_True; [done | by right].
  - rewrite decide_False; [done|].
    intros [?|?]%elem_of_cons; [lia | done].
Qed.

Lemma removeDuplicates_from_sorted (arr : list num) : ∀ seen i,
  StronglySorted (λ x y, lt x y ∨ x = y) arr →
  (∀ s a, s ∈ seen → a ∈ arr → lt s a ∨ s = a) →
  StronglySorted lt (removeDuplicates_from i arr (findDuplicates_from seen i arr))
  ∧ Forall (λ y, y ∈ arr ∧ y ∉ seen)
           (removeDuplicates_from i arr (findDuplicates_from seen i arr)).
Proof.
  induction arr as [|x arr IH]; intros seen i Hs Hseen; simpl.
  - split; constructor.
  - apply StronglySorted_cons in Hs as [Hx Hs].
    destruct (decide (x ∈ seen)) as [Hin|Hnin].
    + rewrite decide_True by left.
      rewrite removeDuplicates_from_cons_lt by lia.
      destruct (IH seen (S i) Hs) as [IH1 IH2].
      { intros s a ? ?. apply Hseen; [done | by right]. }
      split; [done|]. eapply Forall_impl; [exact IH2|].
      intros y [? ?]. split; [by right | done].
    + rewrite decide_False
        by (intros Hi%findDuplicates_from_ge; lia).
      destruct (IH (x :: seen) (S i) Hs) as [IH1 IH2].
      { intros s a [->|?]%elem_of_cons Ha.
        - rewrite Forall_forall in Hx. by apply Hx.
        - apply Hseen; [done | by right]. }
      split.
      * apply StronglySorted_cons. split; [|done].
        rewrite Forall_forall in Hx, IH2 |- *. intros y Hy.
        destruct (IH2 y Hy) as [Hya Hyx].
        destruct (Hx y Hya) as [?| ->]; [done|].
        exfalso. apply Hyx. by left.
      * constructor; [split; [by left | done]|].
        eapply Forall_impl; [exact IH2|].
        intros y [? Hy]. split; [by right|].
        intros ?. apply Hy. by right.
Qed.

(** Deduplicating a timeline that never decreases gives one that strictly
    increases. *)
Lemma removeDuplicates_strictly_increasing (t : list num) :
  non_decreasing lt t →
  strictly_increasing lt (removeDuplicates t (findDuplicates t)).
Proof.
  intros Ht. apply removeDuplicates_from_sorted.
  - apply Sorted_StronglySorted; [|done].
    intros x y z [Hxy| ->] [Hyz| ->]; auto. left. by transitivity y.
  - by intros s a ?%elem_of_nil.
Qed.

End Monotone.


(** ** The rows a slice assignment writes *)

Section SetitemRows.
Context {Sc : Scalar}.

Lemma exc_mapM_id {A} (k : A → Exc A) l :
  Forall (λ a, k a = Ok a) l → exc_mapM k l = Ok l.
Proof. induction 1 as [|a l Ha _ IH]; simpl; [done|]. by rewrite Ha, IH. Qed.

(** A source that already has the shape of the block is written as it is. *)
Lemma broadcast_to_exact nr nc (src : Array2) :
  has_shape nr nc src → broadcast_to nr nc src = Ok src.
Proof.
  intros [Hn Hw]. unfold broadcast_to.
  rewrite exc_mapM_id; simpl; [by apply broadcast1_same|].
  eapply Forall_impl; [exact Hw|]. intros r Hr. by apply broadcast1_same.
Qed.

(** A source that broadcasts has rows of the block's width, or of width 1. *)
Lemma broadcast_to_Ok_widths nr nc (src blk : Array2) :
  broadcast_to nr nc src = Ok blk →
  Forall (λ r, length r = nc ∨ length r = 1) src.
Proof.
  unfold broadcast_to. intros H. exc_inv H. clear H.
  revert a E. induction src as [|r src IH]; intros a E; [constructor|].
  simpl in E. exc_inv E. constructor; [|eauto].
  unfold broadcast1 in E0. destruct (decide (length r = nc)); [by left|].
  destruct r as [|? [|? ?]]; try discriminate. by right.
Qed.

Lemma np_setitem_Ok_widths dst r0 r1 c0 c1 src dst' :
  np_setitem dst r0 r1 c0 c1 src = Ok dst' →
  Forall (λ r, length r = c1 - c0 ∨ length r = 1) src.
Proof.
  unfold np_setitem. intros H. exc_inv H. by eapply broadcast_to_Ok_widths.
Qed.

Lemma py_slice_lookup {A} a b (l : list A) j :
  py_slice a b l !! j = if decide (j < b - a) then l !! (a + j) else None.
Proof.
  unfold py_slice. destruct (decide (j < b - a)).
  - by rewrite lookup_take_lt, lookup_drop.
  - by rewrite lookup_take_ge by lia.
Qed.

(** Rows outside [r0:r1] are not touched. *)
Lemma np_setitem_lookup_out dst r0 r1 c0 c1 src dst' i :
  np_setitem dst r0 r1 c0 c1 src = Ok dst' →
  i < r0 ∨ r1 ≤ i → dst' !! i = dst !! i.
Proof.
  unfold np_setitem. intros H Hi. exc_inv H. subst dst'.
  apply broadcast_to_Ok_shape in E as [E _].
  pose proof (py_slice_length r0 r1 dst) as Hold.
  destruct (decide (i < r0)) as [Hlt|Hge].
  - destruct (decide (i < length dst)).
    + rewrite lookup_app_l by (rewrite length_take; lia).
      by rewrite lookup_take_lt.
    + rewrite (lookup_ge_None_2 dst) by lia. apply lookup_ge_None_2.
      rewrite !length_app, length_zip_with, length_take, length_drop. lia.
  - destruct (decide (i < length dst)).
    + rewrite lookup_app_r by (rewrite length_take; lia).
      rewrite lookup_app_r by (rewrite length_zip_with, length_take; lia).
      rewrite lookup_drop, length_zip_with, length_take. f_equal. lia.
    + rewrite (lookup_ge_None_2 dst) by lia. apply lookup_ge_None_2.
      rewrite !length_app, length_zip_with, length_take, length_drop. lia.
Qed.

(** A row inside [r0:r1] gets the columns [c0:c1] of the source row. *)
Lemma np_setitem_lookup_in dst r0 r1 c0 c1 src dst' j row new :
  np_setitem dst r0 r1 c0 c1 src = Ok dst' →
  has_shape (length (py_slice r0 r1 dst)) (c1 - c0) src →
  dst !! (r0 + j) = Some row → src !! j = Some new →
  dst' !! (r0 + j) = Some (take c0 row ++ new ++ drop c1 row).
Proof.
  unfold np_setitem. intros H Hsrc Hrow Hnew.
  rewrite (broadcast_to_exact _ _ _ Hsrc) in H. simpl in H. injection H as <-.
  destruct Hsrc as [Hn _].
  pose proof (lookup_lt_Some _ _ _ Hrow). pose proof (lookup_lt_Some _ _ _ Hnew).
  pose proof (py_slice_length r0 r1 dst) as Hold.
  rewrite lookup_app_r by (rewrite length_take; lia).
  rewrite length_take, lookup_app_l by (rewrite length_zip_with; lia).
  replace (r0 + j - r0 `min` length dst) with j by lia.
  rewrite lookup_zip_with, py_slice_lookup, decide_True by lia.
  by rewrite Hrow, Hnew.
Qed.

End SetitemRows.

(** ** The rows one interval writes *)

Section SegmentRows.
Context {Sc : Scalar} {NP : Numpy}.

Lemma np_cols_lookup c0 c1 (a : Array2) j :
  np_cols c0 c1 a !! j = py_slice c0 c1 <$> a !! j.
Proof. apply list_lookup_fmap. Qed.

Lemma np_cols_shape c0 c1 (a : Array2) :
  Forall (λ r, c1 ≤ length r) a → has_shape (length a) (c1 - c0) (np_cols c0 c1 a).
Proof.
  intros Ha. split; [apply length_fmap|]. apply Forall_fmap.
  eapply Forall_impl; [exact Ha|]. intros r Hr. simpl in *.
  rewrite py_slice_length. lia.
Qed.

Lemma py_suffix_length {A} k (l : list A) :
  0 < k ≤ length l → length (py_suffix k l) = k.
Proof.
  intros Hk. unfold py_suffix. destruct (decide (k = 0)); [lia|].
  rewrite length_drop. lia.
Qed.

Lemma np_last_cols_shape k (a : Array2) :
  0 < k → Forall (λ r, k ≤ length r) a →
  has_shape (length a) k (np_last_cols k a).
Proof.
  intros Hk Ha. split; [apply length_fmap|]. apply Forall_fmap.
  eapply Forall_impl; [exact Ha|]. intros r Hr. simpl. by apply py_suffix_length.
Qed.

Lemma np_scale_shape n c s (a : Array2) : has_shape n c a → has_shape n c (np_scale s a).
Proof.
  intros [Hn Hw]. unfold np_scale. split; [by rewrite length_fmap|]. apply Forall_fmap.
  eapply Forall_impl; [exact Hw|]. intros r Hr. unfold compose. by rewrite length_fmap.
Qed.

(** The two assignments from the state succeed only if every state row has
    at least 6 columns: [x[:, :6]] must give 6 columns (or 1), and
    [x[:, 3:6]] must give 3 (or 1). *)
Lemma state_widths s (x : Array2) :
  Forall (λ r, length r = 6 - 0 ∨ length r = 1) (np_cols 0 6 x) →
  Forall (λ r, length r = 3 - 0 ∨ length r = 1) (np_scale s (np_cols 3 6 x)) →
  Forall (λ r, 6 ≤ length r) x.
Proof.
  unfold np_scale, np_cols. rewrite !Forall_fmap. intros H1 H2.
  rewrite Forall_lookup in H1. rewrite Forall_lookup in H2.
  rewrite Forall_lookup. intros i r Hr.
  specialize (H1 i r Hr). specialize (H2 i r Hr). unfold compose in H1, H2.
  rewrite length_fmap in H2. rewrite py_slice_length in H1, H2. lia.
Qed.

Lemma Forall_weaken_le (n m : nat) (a : Array2) :
  n ≤ m → Forall (λ r, m ≤ length r) a → Forall (λ r, n ≤ length r) a.
Proof. intros Hnm Ha. eapply Forall_impl; [exact Ha|]. intros r. simpl. lia. Qed.

(** Lines 84-89 for one of the two state arrays ([x] with [com_vcom] and
    [hg], or [dx] with [vcom_acom] and [dhg]). *)
Lemma state_assignments N mass (x : Array2) n nt (c c' h h1 h2 : Array2) :
  np_setitem c n (n + nt) 0 6 (np_cols 0 6 x) = Ok c' →
  np_setitem h n (n + nt) 3 6 (np_last_cols 3 x) = Ok h1 →
  np_setitem h1 n (n + nt) 0 3 (np_scale mass (np_cols 3 6 x)) = Ok h2 →
  has_shape N 6 c → has_shape N 6 h →
  length x = nt → nt `min` (N - n) = nt →
  (∀ j xr, x !! j = Some xr →
     6 ≤ length xr ∧
     c' !! (n + j) = Some (py_slice 0 6 xr) ∧
     h2 !! (n + j) = Some ((num_mul mass <$> py_slice 3 6 xr) ++ py_suffix 3 xr)) ∧
  same_outside n nt c c' ∧ same_outside n nt h h2.
Proof.
  intros Ec Eh1 Eh2 Hc Hh Hx HN.
  assert (Hw : Forall (λ r, 6 ≤ length r) x).
  { apply (state_widths mass); by eapply np_setitem_Ok_widths. }
  assert (Hh1 : has_shape N 6 h1) by (eapply np_setitem_shape; [exact Eh1|lia|done]).
  assert (Hslice : ∀ a : Array2, has_shape N 6 a →
            length (py_slice n (n + nt) a) = nt).
  { intros a [Ha _]. rewrite py_slice_length, Ha. lia. }
  split; [|split].
  - intros j xr Hj. pose proof (lookup_lt_Some _ _ _ Hj) as Hlt.
    rewrite Forall_lookup in Hw. pose proof (Hw _ _ Hj) as Hxr.
    rewrite <- Forall_lookup in Hw.
    assert (Hrow : ∀ a : Array2, has_shape N 6 a →
              ∃ row, a !! (n + j) = Some row ∧ length row = 6).
    { intros a [Ha Hwa]. destruct (lookup_lt_is_Some_2 a (n + j)) as [row Hrow]; [lia|].
      exists row. split; [done|]. rewrite Forall_lookup in Hwa. eauto. }
    split; [done|]. split.
    + destruct (Hrow c Hc) as (row & Hrow1 & Hlen).
      erewrite np_setitem_lookup_in; [|exact Ec| |exact Hrow1|].
      2:{ rewrite (Hslice _ Hc), <- Hx. by apply np_cols_shape. }
      2:{ rewrite np_cols_lookup, Hj. done. }
      rewrite drop_ge by lia. simpl. by rewrite app_nil_r.
    + destruct (Hrow h Hh) as (row & Hrow1 & Hlen).
      assert (h1 !! (n + j) = Some (take 3 row ++ py_suffix 3 xr ++ drop 6 row)) as Hrow2.
      { eapply np_setitem_lookup_in; [exact Eh1| |exact Hrow1|].
        - rewrite (Hslice _ Hh), <- Hx.
          apply (np_last_cols_shape 3); [lia|].
          apply (Forall_weaken_le 3 6); [lia|done].
        - unfold np_last_cols. by rewrite list_lookup_fmap, Hj. }
      erewrite np_setitem_lookup_in; [|exact Eh2| |exact Hrow2|].
      2:{ rewrite (Hslice _ Hh1), <- Hx. change (3 - 0) with (6 - 3).
          by apply np_scale_shape, np_cols_shape. }
      2:{ unfold np_scale. rewrite list_lookup_fmap, np_cols_lookup, Hj. done. }
      simpl. rewrite drop_app_length' by (rewrite length_take; lia).
      by rewrite (drop_ge row), app_nil_r by lia.
  - intros i Hi. eapply np_setitem_lookup_out; [exact Ec | lia].
  - intros i Hi. erewrite np_setitem_lookup_out; [|exact Eh2|lia].
    eapply np_setitem_lookup_out; [exact Eh1 | lia].
Qed.

End SegmentRows.

(** ** The rows the loop over the patches writes *)

Section PatchRows.
Context {Sc : Scalar} {NP : Numpy}.

(** Every range of [range_def] has 6 columns. *)
Lemma range_def_length patch r : od_get range_def patch = Ok r → length r = 6.
Proof.
  unfold range_def. simpl.
  repeat (case_decide; [by intros [= <-]|]). discriminate.
Qed.

Lemma f_poly_length polys t r row : f_poly polys t r = Ok row → length row = length r.
Proof. apply exc_mapM_Ok_length. Qed.

(** An iteration of the patch loop is its two assignments, one after the
    other. *)
Lemma patch_step_halves poly_u dpoly_u tt n nt fdf patch :
  patch_step poly_u dpoly_u tt n nt fdf patch
  = (f <- patch_half poly_u tt n nt fdf.1 patch;;
     df <- patch_half dpoly_u tt n nt fdf.2 patch;;
     Ok (f, df)).
Proof.
  unfold patch_step, patch_half, f_dpoly, f_poly.
  destruct (exc_mapM _ tt) as [rows|]; simpl; [|done].
  destruct (od_get fdf.1 patch) as [a|]; simpl; [|done].
  destruct (set_patch_rows a n nt rows) as [a'|]; simpl; [|done].
  destruct (exc_mapM _ tt) as [drows|]; simpl; [|done].
  destruct (od_get fdf.2 patch) as [b|]; simpl; [|done].
  by destruct (set_patch_rows b n nt drows).
Qed.

Lemma patch_loop_halves poly_u dpoly_u tt n nt patch_names fdf fdf' :
  exc_foldl (patch_step poly_u dpoly_u tt n nt) fdf patch_names = Ok fdf' →
  exc_foldl (patch_half poly_u tt n nt) fdf.1 patch_names = Ok fdf'.1 ∧
  exc_foldl (patch_half dpoly_u tt n nt) fdf.2 patch_names = Ok fdf'.2.
Proof.
  revert fdf. induction patch_names as [|p l IH]; intros fdf H; simpl in H.
  - by injection H as <-.
  - apply exc_bind_Ok in H as (fdf1 & Hs & H).
    rewrite patch_step_halves in Hs.
    apply exc_bind_Ok in Hs as (f1 & Hf & Hs).
    apply exc_bind_Ok in Hs as (df1 & Hdf & Hs).
    injection Hs as <-. simpl. rewrite Hf, Hdf. simpl. by apply IH in H.
Qed.

Lemma patch_half_spec N polys tt n nt d patch d' :
  patch_half polys tt n nt d patch = Ok d' →
  od_all (has_shape N 6) d → length tt = nt → nt `min` (N - n) = nt →
  patch_rows polys tt n d' patch ∧
  (∀ p, p ≠ patch → od_get d' p = od_get d p) ∧
  (∃ a0 a, od_get d patch = Ok a0 ∧ od_get d' patch = Ok a ∧
           same_outside n nt a0 a ∧ has_shape N 6 a).
Proof.
  unfold patch_half. intros H Hd Htt HN. exc_inv H. subst d'.
  rename a into rows, a0 into old, a1 into new.
  pose proof (Hd _ _ E0) as Hold.
  unfold set_patch_rows in E1.
  assert (∃ r, od_get range_def patch = Ok r) as [r Hr].
  { destruct tt as [|t tt'].
    - injection E as <-. discriminate.
    - destruct (exc_mapM_Ok_lookup _ _ _ 0 t E eq_refl) as (row & _ & Hrow).
      apply exc_bind_Ok in Hrow as (r & Hr & _). eauto. }
  assert (E1' : np_setitem old n (n + nt) 0 6 rows = Ok new)
    by (by destruct rows).
  clear E1. rename E1' into E1.
  assert (Hrows : ∀ j t, tt !! j = Some t →
            ∃ row, rows !! j = Some row ∧ f_poly polys t r = Ok row).
  { intros j t Hj. destruct (exc_mapM_Ok_lookup _ _ _ _ _ E Hj) as (row & ? & Hrow).
    exists row. split; [done|]. by rewrite Hr in Hrow. }
  assert (Hshape : has_shape (length (py_slice n (n + nt) old)) (6 - 0) rows).
  { split.
    - rewrite py_slice_length. destruct Hold as [-> _].
      apply exc_mapM_Ok_length in E. lia.
    - apply (exc_mapM_Ok_Forall (λ row, length row = 6 - 0)) in E; [done|].
      intros t row Hrow. exc_inv Hrow. apply f_poly_length in Hrow.
      rewrite Hrow. by apply range_def_length in E2. }
  split; [|split].
  - exists r, new. rewrite od_get_update, decide_True by done.
    split; [done|]. split; [done|]. intros j t Hj.
    destruct (Hrows j t Hj) as (row & Hrow & Hpoly). exists row. split; [|done].
    pose proof (lookup_lt_Some _ _ _ Hj) as Hlt.
    destruct Hold as [Holdn Holdw].
    destruct (lookup_lt_is_Some_2 old (n + j)) as [orow Horow]; [lia|].
    erewrite np_setitem_lookup_in; [|exact E1|exact Hshape|exact Horow|exact Hrow].
    rewrite Forall_lookup in Holdw. rewrite drop_ge by (erewrite Holdw; done).
    simpl. by rewrite app_nil_r.
  - intros p Hp. by rewrite od_get_update, decide_False.
  - exists old, new. rewrite od_get_update, decide_True by done.
    split_and!; try done.
    + intros i Hi. eapply np_setitem_lookup_out; [exact E1 | lia].
    + eapply np_setitem_shape; [exact E1 | lia | done].
Qed.

Lemma patch_half_loop N polys tt n nt (patch_names : list string) d d' :
  exc_foldl (patch_half polys tt n nt) d patch_names = Ok d' →
  od_all (has_shape N 6) d → length tt = nt → nt `min` (N - n) = nt →
  (∀ p, p ∈ patch_names → patch_rows polys tt n d' p) ∧
  (∀ p a0, od_get d p = Ok a0 →
     ∃ a, od_get d' p = Ok a ∧ same_outside n nt a0 a).
Proof.
  intros H Hd Htt HN. revert d H Hd.
  induction patch_names as [|q l IH]; intros d H Hd; simpl in H.
  - injection H as <-. split; [by intros p ?%elem_of_nil|].
    intros p a0 Ha. by exists a0.
  - apply exc_bind_Ok in H as (d1 & Hstep & H).
    destruct (patch_half_spec N _ _ _ _ _ _ _ Hstep Hd Htt HN)
      as (Hq & Hother & (a0 & a1 & Ha0 & Ha1 & Hout & Hsh)).
    assert (Hd1 : od_all (has_shape N 6) d1).
    { intros p a Hp. destruct (decide (p = q)) as [->|Hne].
      - congruence.
      - rewrite Hother in Hp by done. eauto. }
    destruct (IH d1 H Hd1) as [IHin IHout]. split.
    + intros p Hp. destruct (decide (p ∈ l)) as [?|Hnl]; [by apply IHin|].
      apply elem_of_cons in Hp as [->|?]; [|done].
      clear IHin IHout IH Hd Hd1 Hother Hout Hsh Ha0 Ha1 Hstep.
      revert d1 H Hq. induction l as [|q' l IHl]; intros d1 H Hq; simpl in H.
      * by injection H as <-.
      * apply exc_bind_Ok in H as (d2 & Hstep & H).
        apply not_elem_of_cons in Hnl as [Hne Hnl].
        apply (IHl Hnl d2 H).
        destruct Hq as (r & a & Hr & Ha & Hrows). exists r, a.
        split; [done|]. split; [|done].
        unfold patch_half in Hstep. exc_inv Hstep. subst d2.
        by rewrite od_get_update, decide_False.
    + intros p b0 Hb0. destruct (decide (p = q)) as [->|Hne].
      * destruct (IHout q a1 Ha1) as (a & Ha & Hout').
        exists a. split; [done|]. intros i Hi.
        rewrite Hout' by done. replace b0 with a0 by congruence. by apply Hout.
      * apply IHout. by rewrite Hother.
Qed.

End PatchRows.

(** ** The rows the loop over the intervals writes *)

Section FillRows.
Context {Sc : Scalar} {NP : Numpy}.

(** A loop that completes keeps an invariant that may mention the items
    already processed. *)
Lemma exc_foldl_prefix_inv {A B} (P : list A → B → Prop) (k : B → A → Exc B) l b b' :
  P [] b →
  (∀ done a rest b b',
     l = done ++ a :: rest → P done b → k b a = Ok b' → P (done ++ [a]) b') →
  exc_foldl k b l = Ok b' → P l b'.
Proof.
  intros Hb Hk. enough (∀ rest done b, l = done ++ rest → P done b →
                          exc_foldl k b rest = Ok b' → P l b') as Hgen
    by (by apply (Hgen l [] b)).
  induction rest as [|a rest IH]; intros done b0 Hl HP H; simpl in H.
  - injection H as <-. by rewrite Hl, app_nil_r.
  - apply exc_bind_Ok in H as (b1 & Hs & H).
    apply (IH (done ++ [a]) b1); [by rewrite <- app_assoc | eauto | done].
Qed.

Lemma timeline_concat (cs : ContactSequence) :
  timeline cs = concat (time_trajectory <$> py_but_last (ms_interval_data cs)).
Proof.
  unfold timeline. generalize (py_but_last (ms_interval_data cs)). intros l.
  enough (∀ acc, foldl (λ t_traj spl, t_traj ++ time_trajectory spl) acc l
                 = acc ++ concat (time_trajectory <$> l)) as H by apply (H []).
  induction l as [|spl l IH]; intros acc; simpl.
  - by rewrite app_nil_r.
  - by rewrite IH, app_assoc.
Qed.

Lemma segment_offset_bound (segments : list MsInterval) k spl :
  segments !! k = Some spl →
  segment_offset segments k + length (time_trajectory spl)
  ≤ length (concat (time_trajectory <$> segments)).
Proof.
  intros Hk. unfold segment_offset.
  rewrite <- (take_drop_middle _ _ _ Hk) at 2.
  rewrite fmap_app, concat_app, length_app. simpl. rewrite length_app. lia.
Qed.

Lemma segment_offset_app (done rest : list MsInterval) k :
  k ≤ length done → segment_offset (done ++ rest) k = segment_offset done k.
Proof. intros Hk. unfold segment_offset. by rewrite take_app_le. Qed.

Lemma segment_offset_all (done : list MsInterval) :
  segment_offset done (length done) = length (concat (time_trajectory <$> done)).
Proof. unfold segment_offset. by rewrite firstn_all. Qed.

Lemma segment_step_spec N mass names t_traj st spl st' :
  segment_step mass names t_traj st spl = Ok st' →
  phi_shape N names st.2 →
  length (state_trajectory spl) = length (time_trajectory spl) →
  length (dot_state_trajectory spl) = length (time_trajectory spl) →
  py_slice st.1 (st.1 + length (time_trajectory spl)) t_traj = time_trajectory spl →
  length t_traj = N →
  st'.1 = st.1 + length (time_trajectory spl) ∧
  state_rows mass spl st.1 st'.2 ∧ force_rows names spl st.1 st'.2 ∧
  parallel_arrays names st.2 st'.2 (same_outside st.1 (length (time_trajectory spl))).
Proof.
  unfold segment_step, m2a. intros H [(H1 & H2 & H3 & H4 & H5 & H6) Hk] Hx Hdx Htt HN.
  rewrite Hx, Htt in H. exc_inv H. subst st'. simpl.
  set (n := st.1) in *. set (nt := length (time_trajectory spl)) in *.
  assert (Hmin : nt `min` (N - n) = nt).
  { apply (f_equal length) in Htt. rewrite py_slice_length in Htt. lia. }
  destruct (state_assignments N mass _ n nt _ _ _ _ _ E E1 E3 H1 H3 Hx Hmin)
    as (Hxrows & Hc & Hh).
  destruct (state_assignments N mass _ n nt _ _ _ _ _ E0 E2 E4 H2 H4 Hdx Hmin)
    as (Hdxrows & Hdc & Hdh).
  apply patch_loop_halves in E6 as [Ef Edf]. simpl in Ef, Edf.
  destruct (patch_half_loop N _ _ _ _ _ _ _ Ef H5 eq_refl Hmin) as [Hfin Hfout].
  destruct (patch_half_loop N _ _ _ _ _ _ _ Edf H6 eq_refl Hmin) as [Hdfin Hdfout].
  split_and!; try done.
  - exists a5. split; [done|]. intros patch Hin. split; auto.
  - split_and!; try done. intros patch Hin.
    destruct (Hk patch Hin) as [[fa Ha]%od_get_Ok_keys [fb Hb]%od_get_Ok_keys].
    destruct (Hfout _ _ Ha) as (fa' & Ha' & ?).
    destruct (Hdfout _ _ Hb) as (fb' & Hb' & ?).
    by exists fa, fa', fb, fb'.
Qed.

(** After the loop over the intervals, every interval has its rows in the
    arrays, at its offset. *)
Lemma fill_phi_rows mass names (segments : list MsInterval) st :
  fill_phi mass names (concat (time_trajectory <$> segments)) segments
           (PhiC_new names (length (concat (time_trajectory <$> segments)))) = Ok st →
  matching_rows segments →
  ∀ k spl, segments !! k = Some spl →
    state_rows mass spl (segment_offset segments k) st.2 ∧
    force_rows names spl (segment_offset segments k) st.2.
Proof.
  set (t_traj := concat (time_trajectory <$> segments)).
  set (N := length t_traj). intros H Hmatch.
  pose (P := λ (done : list MsInterval) (st : nat * PhiC.t),
          st.1 = length (concat (time_trajectory <$> done)) ∧
          phi_shape N names st.2 ∧
          ∀ k spl, done !! k = Some spl →
            state_rows mass spl (segment_offset done k) st.2 ∧
            force_rows names spl (segment_offset done k) st.2).
  enough (P segments st) as (_ & _ & HP) by exact HP.
  eapply (exc_foldl_prefix_inv P); [| |exact H].
  { split_and!; [done | split; [apply PhiC_new_rows | apply PhiC_new_keys] |].
    by intros k spl ?. }
  intros done spl rest b b' Hl (Hn & Hshape & Hrows) Hstep.
  assert (Hspl : spl ∈ segments)
    by (rewrite Hl, elem_of_app, elem_of_cons; auto).
  unfold matching_rows in Hmatch. rewrite Forall_forall in Hmatch.
  destruct (Hmatch spl Hspl) as (Hx & Hdx & _).
  assert (Htt : py_slice b.1 (b.1 + length (time_trajectory spl)) t_traj
                = time_trajectory spl).
  { unfold py_slice, t_traj. rewrite Hl, Hn, fmap_app, concat_app.
    rewrite drop_app_length. simpl.
    replace (_ + _ - _) with (length (time_trajectory spl)) by lia.
    by rewrite take_app_length. }
  destruct (segment_step_spec N _ _ _ _ _ _ Hstep Hshape Hx Hdx Htt eq_refl)
    as (Hn' & Hstate & Hforce & Hframe).
  split_and!.
  - rewrite Hn', Hn, fmap_app, concat_app, length_app. simpl.
    by rewrite app_nil_r.
  - by eapply segment_step_shape.
  - intros k spl' Hk.
    destruct (decide (k < length done)) as [Hlt|Hge].
    + rewrite lookup_app_l in Hk by done.
      rewrite segment_offset_app by lia.
      destruct (Hrows k spl' Hk) as [[Hsx Hsdx] (polys & Hfit & Hpatch)].
      pose proof (segment_offset_bound _ _ _ Hk) as Hbound. rewrite <- Hn in Hbound.
      assert (Hin' : spl' ∈ segments)
        by (rewrite Hl, elem_of_app; left; by apply list_elem_of_lookup_2 in Hk).
      destruct (Hmatch spl' Hin') as (Hx' & Hdx' & _).
      destruct Hframe as (Fc & Fdc & Fh & Fdh & Fp).
      split.
      * split.
        -- intros j xr Hj. pose proof (lookup_lt_Some _ _ _ Hj).
           destruct (Hsx j xr Hj) as (? & ? & ?).
           rewrite Fc, Fh by lia. by split_and!.
        -- intros j dxr Hj. pose proof (lookup_lt_Some _ _ _ Hj).
           destruct (Hsdx j dxr Hj) as (? & ? & ?).
           rewrite Fdc, Fdh by lia. by split_and!.
      * exists polys. split; [done|]. intros patch Hin.
        destruct (Hpatch patch Hin) as [(r & a & Hr & Ha & Hra) (r' & c & Hr' & Hc & Hrc)].
        destruct (Fp patch Hin) as (a0 & a' & c0 & c' & Ha0 & Ha' & Hc0 & Hc' & Fa & Fc').
        replace a0 with a in * by congruence. replace c0 with c in * by congruence.
        split.
        -- exists r, a'. split_and!; try done. intros j t Hj.
           pose proof (lookup_lt_Some _ _ _ Hj).
           destruct (Hra j t Hj) as (row & ? & ?). exists row.
           rewrite Fa by lia. done.
        -- exists r', c'. split_and!; try done. intros j t Hj.
           pose proof (lookup_lt_Some _ _ _ Hj).
           destruct (Hrc j t Hj) as (row & ? & ?). exists row.
           rewrite Fc' by lia. done.
    + assert (k = length done) as ->.
      { apply lookup_lt_Some in Hk. rewrite length_app in Hk. simpl in Hk. lia. }
      rewrite list_lookup_middle in Hk by done. injection Hk as <-.
      rewrite segment_offset_app, segment_offset_all, <- Hn by lia. done.
Qed.

End FillRows.


(** ** What the methods leave alone *)

Section Frame.
Context {Sc : Scalar} {NP : Numpy} {Pin : Pinocchio}.

Lemma run_okb_Ok (o : Exc () * World) :
  exc_okb o.1 = true → ∃ w', o = (Ok (), w').
Proof. destruct o as [[[]|e] w']; [by exists w' | discriminate]. Qed.

Lemma m_keeps_ret {A} (R : relation World) `{!Reflexive R} (a : A) :
  m_keeps R (m_ret a).
Proof. intros w. simpl. reflexivity. Qed.

Lemma m_keeps_lift {A} (R : relation World) `{!Reflexive R} (e : Exc A) :
  m_keeps R (m_lift e).
Proof. intros w. simpl. reflexivity. Qed.

Lemma m_keeps_read {A} (R : relation World) `{!Reflexive R} (rd : World → Exc A) :
  m_keeps R (λ w, (rd w, w)).
Proof. intros w. simpl. reflexivity. Qed.

Lemma m_keeps_gets {A} (R : relation World) `{!Reflexive R} (proj : World → A) :
  m_keeps R (m_gets proj).
Proof. intros w. simpl. reflexivity. Qed.

Lemma m_keeps_modify (R : relation World) (upd : World → World) :
  (∀ w, R w (upd w)) → m_keeps R (m_modify upd).
Proof. intros H w. apply H. Qed.

Lemma m_keeps_bind {A B} (R : relation World) `{!Transitive R}
    (m : M A) (k : A → M B) :
  m_keeps R m → (∀ a, m_keeps R (k a)) → m_keeps R (m_bind m k).
Proof.
  intros Hm Hk w. unfold m_bind. specialize (Hm w).
  destruct (m w) as [[a|e] w1]; simpl in *; [|done].
  transitivity w1; [done | apply Hk].
Qed.

Lemma m_keeps_for {A} (R : relation World) `{!PreOrder R}
    (l : list A) (body : A → M ()) :
  (∀ a, m_keeps R (body a)) → m_keeps R (m_for l body).
Proof.
  intros Hb. induction l as [|a l IH]; simpl.
  - apply m_keeps_ret; apply _.
  - apply m_keeps_bind; [apply _ | apply Hb | intros _; apply IH].
Qed.

Lemma m_keeps_foldl {A B} (R : relation World) `{!PreOrder R}
    (body : B → A → M B) (l : list A) (b : B) :
  (∀ b a, m_keeps R (body b a)) → m_keeps R (m_foldl body b l).
Proof.
  intros Hb. revert b. induction l as [|a l IH]; intros b; simpl.
  - apply m_keeps_ret; apply _.
  - apply m_keeps_bind; [apply _ | apply Hb | intros b'; apply IH].
Qed.

#[local] Instance inputs_kept_preorder : PreOrder inputs_kept.
Proof.
  split.
  - intros w. by repeat split.
  - intros w1 w2 w3 (?&?&?&?&?&?) (?&?&?&?&?&?).
    repeat split; congruence.
Qed.

#[local] Instance phi_c_kept_preorder : PreOrder phi_c_kept.
Proof.
  split.
  - intros w. split; reflexivity.
  - intros w1 w2 w3 [? ?] [? ?]. split; [by etransitivity | congruence].
Qed.

#[local] Instance ee_splines_kept_preorder : PreOrder ee_splines_kept.
Proof.
  split.
  - intros w. split; reflexivity.
  - intros w1 w2 w3 [? ?] [? ?]. split; [by etransitivity | congruence].
Qed.

Ltac keeps_step :=
  first
    [ apply m_keeps_bind; [apply _ | | intros ?]
    | apply m_keeps_gets; apply _
    | apply m_keeps_lift; apply _
    | apply m_keeps_ret; apply _
    | apply m_keeps_read; apply _
    | apply m_keeps_for; [apply _ | intros ?]
    | apply m_keeps_foldl; [apply _ | intros ? ?]
    | apply m_keeps_modify; intros ?; by repeat split
    | intros ?; by repeat split ].

Lemma createEESplines_keeps t_sampling :
  m_keeps phi_c_kept (createEESplines t_sampling).
Proof.
  unfold createEESplines, ee_sample_step, ee_splines_update,
    call_forwardKinematics, call_updateFramePlacement, call_getFrameVelocity.
  repeat keeps_step.
Qed.

Lemma createCentroidalPhi_keeps :
  m_keeps ee_splines_kept createCentroidalPhi.
Proof.
  unfold createCentroidalPhi, phi_c_set_com_vcom, phi_c_set_hg, phi_c_set_force,
    call_crba.
  repeat keeps_step.
Qed.

End Frame.

(** ** createCentroidalPhi, stage by stage *)

Section CentroidalRun.
Context {Sc : Scalar} {NP : Numpy} {Pin : Pinocchio}.

(** The method is: crba, the mass, the samples, the assignments. An
    exception of one of the first three leaves the world as crba left it. *)
Lemma createCentroidalPhi_stages w :
  createCentroidalPhi w =
  let r := crba (rmodel w) (rdata w) (neutral (rmodel w)) in
  let w1 := with_rdata r.2 w in
  match r.1 with
  | Raise e => (Raise e, w1)
  | Ok inertia =>
      match np_item00 inertia with
      | Raise e => (Raise e, w1)
      | Ok mass =>
          match centroidal_samples (cs (self w)) (od_keys (ee_map (self w))) mass with
          | Raise e => (Raise e, w1)
          | Ok s => assign_phi_c (od_keys (ee_map (self w))) s w1
          end
      end
  end.
Proof.
  unfold createCentroidalPhi, assign_phi_c, call_crba, m_bind, m_gets, m_lift.
  simpl. destruct (crba _ _ _) as [[inertia|e] d]; simpl; [|done].
  destruct (np_item00 inertia) as [mass|e]; simpl; [|done].
  by destruct (centroidal_samples _ _ mass).
Qed.

(** The loop over the patches of lines 128-129 cannot raise: [PhiC2] has
    the two arrays of every patch. *)
Lemma assign_forces_Ok (patch_names all : list string) s t w :
  (∀ patch, patch ∈ patch_names →
     is_Ok (od_get (PhiC.f s) patch) ∧ is_Ok (od_get (PhiC.df s) patch)) →
  ∃ w', m_for patch_names (λ patch,
          f_patch <-- m_lift (od_get (PhiC.f s) patch);;
          df_patch <-- m_lift (od_get (PhiC.df s) patch);;
          phi_c_set_force patch
            {| abscissa := t; points := a2m f_patch;
               derivatives := a2m df_patch |}) w = (Ok (), w').
Proof.
  revert w. induction patch_names as [|p l IH]; intros w Hk; simpl.
  - by eexists.
  - destruct (Hk p) as [[a Ha] [b Hb]]; [by left|].
    unfold m_bind at 1. unfold m_bind at 1. unfold m_lift at 1. rewrite Ha.
    unfold m_bind at 1. unfold m_lift at 1. rewrite Hb. simpl.
    apply IH. intros q Hq. apply Hk. by right.
Qed.

Lemma assign_phi_c_Ok cs patch_names mass s w :
  centroidal_samples cs patch_names mass = Ok s →
  ∃ w', assign_phi_c patch_names s w = (Ok (), w').
Proof.
  intros H. apply centroidal_samples_Ok in H as (n & _ & _ & _ & H2).
  unfold assign_phi_c. unfold m_bind at 1. simpl. unfold m_bind at 1. simpl.
  apply (assign_forces_Ok _ patch_names). intros patch Hin.
  destruct (PhiC2_new_get _ _ _ _ _ H2 Hin) as (a & b & _ & _ & Ha & Hb).
  split; by eexists.
Qed.

(** Whatever exception [createCentroidalPhi] raises, it raises it before
    the first assignment to [self.phi_c]: the wrapper is as it was. *)
Lemma createCentroidalPhi_Raise w e w' :
  createCentroidalPhi w = (Raise e, w') →
  self w' = self w ∧
  w' = with_rdata (crba (rmodel w) (rdata w) (neutral (rmodel w))).2 w.
Proof.
  rewrite createCentroidalPhi_stages. simpl.
  destruct (crba _ _ _) as [[inertia|e0] d]; simpl; [|by intros [= _ <-]].
  destruct (np_item00 inertia) as [mass|e0]; [|by intros [= _ <-]].
  destruct (centroidal_samples _ _ mass) as [s|e0] eqn:Hs; [|by intros [= _ <-]].
  destruct (assign_phi_c_Ok _ _ _ _ (with_rdata d w) Hs) as [w2 Hw2].
  rewrite Hw2. discriminate.
Qed.

End CentroidalRun.


(** ** createEESplines and the variant that builds each spline once *)

Section EESplinesOnce.
Context {Sc : Scalar} {NP : Numpy} {Pin : Pinocchio}.

Lemma od_update_update {V} (d : OrderedDict V) k v v' :
  od_update (od_update d k v) k v' = od_update d k v'.
Proof.
  induction d as [|[k0 v0] d IH]; simpl.
  - by rewrite decide_True.
  - destruct (decide (k0 = k)) as [->|Hne]; simpl.
    + by rewrite decide_True.
    + rewrite decide_False by done. by rewrite IH.
Qed.

Lemma with_ee_splines_twice s s' (w : World) :
  with_ee_splines s (with_ee_splines s' w) = with_ee_splines s w.
Proof. reflexivity. Qed.

Lemma with_ee_splines_self (w : World) :
  with_ee_splines (ee_splines (self w)) w = w.
Proof. by destruct w as [[] ? ? ? ? ?]. Qed.

Lemma ee_splines_update_with patch sp s (w : World) :
  ee_splines_update patch sp (with_ee_splines s w)
  = (Ok (), with_ee_splines (Some (od_update (default [] s) patch sp)) w).
Proof. reflexivity. Qed.

Lemma m_bind_run {A B} (m : M A) (k : A → M B) w :
  m_bind m k w
  = match m w with
    | (Ok a, w') => k a w'
    | (Raise e, w') => (Raise e, w')
    end.
Proof. reflexivity. Qed.

Lemma ignores_ret {A} (a : A) : m_ignores_ee_splines (m_ret a).
Proof. by intros s w. Qed.

Lemma ignores_lift {A} (e : Exc A) : m_ignores_ee_splines (m_lift e).
Proof. by intros s w. Qed.

Lemma ignores_bind {A B} (m : M A) (k : A → M B) :
  m_ignores_ee_splines m → (∀ a, m_ignores_ee_splines (k a)) →
  m_ignores_ee_splines (m_bind m k).
Proof.
  intros Hm Hk s w. unfold m_bind. rewrite Hm.
  destruct (m w) as [[a|e] w1]; simpl; [apply Hk | done].
Qed.

Lemma ignores_foldl {A B} (body : B → A → M B) (l : list A) (b : B) :
  (∀ b a, m_ignores_ee_splines (body b a)) →
  m_ignores_ee_splines (m_foldl body b l).
Proof.
  intros Hb. revert b. induction l as [|a l IH]; intros b; simpl.
  - apply ignores_ret.
  - apply ignores_bind; [apply Hb | intros b'; apply IH].
Qed.

Lemma ee_sample_step_once_ignores patch pm i :
  m_ignores_ee_splines (ee_sample_step_once patch pm i).
Proof.
  unfold ee_sample_step_once.
  repeat first
    [ apply ignores_bind; [|intros ?]
    | apply ignores_ret
    | apply ignores_lift
    | by intros ? ? ].
Qed.

(** The body of the sample loop is the body of the variant, then the
    [update] of the map. *)
Lemma ee_sample_step_split abscissa patch pm i w :
  ee_sample_step abscissa patch pm i w
  = (pm' <-- ee_sample_step_once patch pm i;;
     _ <-- ee_splines_update patch
             {| abscissa := abscissa; points := pm'.1; derivatives := pm'.2 |};;
     m_ret pm') w.
Proof.
  unfold ee_sample_step, ee_sample_step_once, m_bind, m_gets, m_lift, m_ret.
  destruct (py_index (xs w) i) as [x_i|]; [|done].
  destruct (call_forwardKinematics _ _ w) as [[[]|] w1]; [|done].
  destruct (od_get (ee_map (self w1)) patch) as [frame|]; [|done].
  destruct (call_updateFramePlacement _ w1) as [[tr|] w2]; [|done].
  destruct (np_setcol pm.1 i (m2a tr)) as [p|]; [|done].
  destruct (od_get (ee_map (self w2)) patch) as [frame'|]; [|done].
  destruct (call_getFrameVelocity _ w2) as [[vel|] w3]; [|done].
  by destruct (np_setcol pm.2 i (m2a vel)) as [m|].
Qed.

(** The two sample loops, started in worlds that differ in [ee_splines]
    only: the same result; when they return, the loop of the method has
    stored the spline of the arrays it returns, unless it had no sample. *)
Lemma sample_loops abscissa patch (l : list nat) : ∀ pm w s,
  match (m_foldl (ee_sample_step_once patch) pm l w).1 with
  | Ok pm' =>
      m_foldl (ee_sample_step abscissa patch) pm l (with_ee_splines s w)
      = (Ok pm',
         with_ee_splines
           (match l with
            | [] => s
            | _ => Some (od_update (default [] s) patch
                     {| abscissa := abscissa; points := pm'.1; derivatives := pm'.2 |})
            end)
           (m_foldl (ee_sample_step_once patch) pm l w).2)
  | Raise e =>
      ∃ s', m_foldl (ee_sample_step abscissa patch) pm l (with_ee_splines s w)
            = (Raise e, with_ee_splines s'
                          (m_foldl (ee_sample_step_once patch) pm l w).2)
  end.
Proof.
  induction l as [|i l IH]; intros pm w s; [done|].
  cbn [m_foldl]. rewrite !m_bind_run, ee_sample_step_split, m_bind_run.
  rewrite ee_sample_step_once_ignores.
  destruct (ee_sample_step_once patch pm i w) as [[pm1|e] w1]; cbn [fst snd].
  - rewrite m_bind_run, ee_splines_update_with. cbn [m_ret].
    specialize (IH pm1 w1 (Some (od_update (default [] s) patch
      {| abscissa := abscissa; points := pm1.1; derivatives := pm1.2 |}))).
    destruct (m_foldl (ee_sample_step_once patch) pm1 l w1) as [[pm'|e] w2] eqn:Hl;
      cbn [fst snd] in *.
    + rewrite IH. f_equal. destruct l as [|i' l'].
      * simpl in Hl. by injection Hl as <- <-.
      * cbn [from_option]. unfold id. by rewrite od_update_update.
    + done.
  - by exists s.
Qed.

Lemma outcomes_agree_refl {A} (o : Exc A * World) : outcomes_agree o o.
Proof.
  split_and!; [done | | done]. exists (ee_splines (self o.2)).
  by rewrite with_ee_splines_self.
Qed.

(** One iteration of the loop over the patches, in the method and in the
    variant, for a state trajectory with at least one sample. *)
Lemma patch_bodies_agree abscissa patch N (l : list nat) w :
  l ≠ [] →
  outcomes_agree
    ((_ <-- m_foldl (ee_sample_step abscissa patch)
              (np_zeros 3 N, np_zeros 3 N) l;;
      m_ret ()) w)
    ((pm <-- m_foldl (ee_sample_step_once patch)
               (np_zeros 3 N, np_zeros 3 N) l;;
      ee_splines_update patch
        {| abscissa := abscissa; points := pm.1; derivatives := pm.2 |}) w).
Proof.
  intros Hl. rewrite <- (with_ee_splines_self w) at 1 2.
  pose proof (sample_loops abscissa patch l (np_zeros 3 N, np_zeros 3 N) w
                (ee_splines (self w))) as H.
  rewrite !m_bind_run.
  rewrite (ignores_foldl (ee_sample_step_once patch))
    by apply ee_sample_step_once_ignores.
  destruct (m_foldl (ee_sample_step_once patch) _ l w) as [[pm'|e] w1];
    cbn [fst snd] in *.
  - rewrite H, ee_splines_update_with. simpl. destruct l; [done|].
    apply outcomes_agree_refl.
  - destruct H as [s' ->]. simpl. split_and!; [done | | by intros [? ?]].
    by exists s'.
Qed.

Lemma m_for_agree {A} (l : list A) (body body' : A → M ()) w :
  (∀ a w, outcomes_agree (body a w) (body' a w)) →
  outcomes_agree (m_for l body w) (m_for l body' w).
Proof.
  intros Hb. revert w. induction l as [|a l IH]; intros w; simpl.
  - apply outcomes_agree_refl.
  - unfold m_bind. destruct (Hb a w) as (Hr & Hw & Hok).
    destruct (body a w) as [[[]|e] w1], (body' a w) as [[[]|e'] w1'];
      simpl in *; try discriminate.
    + rewrite Hok by by eexists. apply IH.
    + by split_and!.
Qed.

(** For a state trajectory with at least one sample, the method and the
    variant end with the same result; when they return, they end in the
    same world. *)
Lemma createEESplines_once_agree t_sampling w :
  xs w ≠ [] →
  outcomes_agree (createEESplines t_sampling w) (createEESplines_once t_sampling w).
Proof.
  intros Hxs. unfold createEESplines, createEESplines_once.
  unfold m_bind at 1 2 3 6 7 8. simpl.
  apply m_for_agree. intros patch w'. apply patch_bodies_agree.
  unfold py_range. destruct (xs w); [done|]. simpl. done.
Qed.

(** For an empty state trajectory the method only resets the map. *)
Lemma createEESplines_empty t_sampling w :
  xs w = [] →
  createEESplines t_sampling w = (Ok (), with_ee_splines (Some []) w).
Proof.
  intros Hxs. unfold createEESplines.
  unfold m_bind at 1 2 3. simpl. rewrite Hxs. simpl.
  unfold with_ee_splines.
  generalize (with_self (set_ee_splines (Some [])) w).
  generalize (od_keys (ee_map (self w))). intros l.
  induction l as [|patch l IH]; intros w1; [reflexivity|].
  cbn [m_for]. rewrite m_bind_run. apply IH.
Qed.

End EESplinesOnce.


(** ** The fitted polynomials and the columns of a patch *)

Section PolyColumns.
Context {Sc : Scalar} {NP : Numpy}.

Lemma exc_mapM_Ok_lookup_inv {A B} (k : A → Exc B) l bs i b :
  exc_mapM k l = Ok bs → bs !! i = Some b → ∃ a, l !! i = Some a ∧ k a = Ok b.
Proof.
  intros H Hb. pose proof (exc_mapM_Ok_length _ _ _ H) as Hlen.
  destruct (lookup_lt_is_Some_2 l i) as [a Ha].
  { apply lookup_lt_Some in Hb. lia. }
  destruct (exc_mapM_Ok_lookup _ _ _ _ _ H Ha) as (b' & Hb' & Hk).
  exists a. split; [done|]. congruence.
Qed.

(** [polyfitND] returns one polynomial per column of the samples, the fit
    of that column, and the derivatives of these polynomials. *)
Lemma polyfitND_Ok x (y : Array2) deg polys :
  polyfitND x y deg = Ok polys →
  length polys.1 = np_width y ∧
  polys.2 = poly_deriv <$> polys.1 ∧
  ∀ c p, polys.1 !! c = Some p → np_polyfit x (np_column c y) deg = Ok p.
Proof.
  unfold polyfitND. intros H. exc_inv H. subst polys. simpl.
  split_and!; [|done|].
  - apply exc_mapM_Ok_length in E. unfold np_columns in E.
    by rewrite length_fmap, length_seq in E.
  - intros c p Hc.
    destruct (exc_mapM_Ok_lookup_inv _ _ _ _ _ E Hc) as (col & Hcol & Hfit).
    unfold np_columns in Hcol. rewrite list_lookup_fmap in Hcol.
    destruct (seq 0 (np_width y) !! c) as [c'|] eqn:Hc'; [|done].
    apply lookup_seq in Hc' as [-> _]. simpl in Hcol. by injection Hcol as <-.
Qed.

(** The values of a contiguous range of columns. *)
Lemma f_poly_seq (polys : list poly1d) t n : ∀ a,
  a + n ≤ length polys →
  f_poly polys t (seq a n) = Ok ((λ p, poly_eval p t) <$> take n (drop a polys)).
Proof.
  unfold f_poly. induction n as [|n IH]; intros a Ha; [done|].
  destruct (lookup_lt_is_Some_2 polys a) as [p Hp]; [lia|].
  cbn [seq exc_mapM]. unfold py_index at 1. rewrite Hp. cbn [exc_bind].
  rewrite IH by lia. cbn [exc_bind].
  by rewrite (drop_S _ _ _ Hp).
Qed.

(** A range that reaches beyond the polynomials raises [IndexError]. *)
Lemma f_poly_IndexError (polys : list poly1d) t r i :
  i ∈ r → length polys ≤ i → f_poly polys t r = Raise IndexError.
Proof.
  unfold f_poly. induction r as [|j r IH]; intros Hi Hlen.
  - by apply elem_of_nil in Hi.
  - cbn [exc_mapM]. unfold py_index at 1.
    destruct (polys !! j) as [p|] eqn:Hj; [|done]. cbn [exc_bind].
    apply elem_of_cons in Hi as [->|Hi].
    + apply lookup_lt_Some in Hj. lia.
    + by rewrite IH.
Qed.

End PolyColumns.

(** ** Exceptions of the loop over the patches *)

Section PatchErrors.
Context {Sc : Scalar} {NP : Numpy}.

Lemma od_get_not_keys {V} (d : OrderedDict V) k :
  k ∉ od_keys d → od_get d k = Raise (KeyError k).
Proof.
  intros Hk. destruct (od_get d k) as [v|e] eqn:H.
  - exfalso. apply Hk, od_get_Ok_keys. by exists v.
  - by apply od_get_Raise in H as [-> _].
Qed.

(** A patch that [range_def] does not know raises [KeyError] at the first
    sample time. *)
Lemma patch_step_KeyError poly_u dpoly_u tt n nt fdf patch :
  tt ≠ [] → patch ∉ od_keys range_def →
  patch_step poly_u dpoly_u tt n nt fdf patch = Raise (KeyError patch).
Proof.
  intros Htt Hk. unfold patch_step. destruct tt as [|t tt']; [done|].
  cbn [exc_mapM]. by rewrite (od_get_not_keys _ _ Hk).
Qed.

(** A patch whose range reaches beyond the fitted polynomials raises
    [IndexError] at the first sample time. *)
Lemma patch_step_IndexError poly_u dpoly_u tt n nt fdf patch r i :
  tt ≠ [] → od_get range_def patch = Ok r → i ∈ r → length poly_u ≤ i →
  patch_step poly_u dpoly_u tt n nt fdf patch = Raise IndexError.
Proof.
  intros Htt Hr Hi Hlen. unfold patch_step. destruct tt as [|t tt']; [done|].
  cbn [exc_mapM]. rewrite Hr. cbn [exc_bind].
  by rewrite (f_poly_IndexError _ _ _ _ Hi Hlen).
Qed.

(** If an interval is processed without exception for the patches [pre],
    and the iteration for the next patch raises, the interval raises the
    same exception for the patches [pre ++ patch :: post]. *)
Lemma segment_step_patch_raise mass pre patch post t_traj st spl st1 e :
  segment_step mass pre t_traj st spl = Ok st1 →
  (∀ polys fdf,
     polyfitND (py_slice st.1 (st.1 + length (state_trajectory spl)) t_traj)
               (control_trajectory spl) 3 = Ok polys →
     patch_step polys.1 polys.2
       (py_slice st.1 (st.1 + length (state_trajectory spl)) t_traj)
       st.1 (length (state_trajectory spl)) fdf patch = Raise e) →
  segment_step mass (pre ++ patch :: post) t_traj st spl = Raise e.
Proof.
  unfold segment_step, m2a. intros H Hstep. exc_inv H.
  rewrite E, E0, E1, E2. cbn [exc_bind]. rewrite E3, E4. cbn [exc_bind].
  rewrite E5. cbn [exc_bind]. rewrite exc_foldl_app, E6. cbn [exc_bind exc_foldl].
  by rewrite (Hstep a5 a6 E5).
Qed.

Lemma fill_phi_raise mass names t_traj done spl rest phi st e :
  fill_phi mass names t_traj done phi = Ok st →
  segment_step mass names t_traj st spl = Raise e →
  fill_phi mass names t_traj (done ++ spl :: rest) phi = Raise e.
Proof.
  unfold fill_phi. intros Hdone Hspl.
  rewrite exc_foldl_app, Hdone. cbn [exc_bind exc_foldl]. by rewrite Hspl.
Qed.

End PatchErrors.

Section CentroidalErrors.
Context {Sc : Scalar} {NP : Numpy} {Pin : Pinocchio}.

(** An exception of the loop over the intervals is the exception of the
    method, raised after crba and before any assignment to [self.phi_c]. *)
Lemma createCentroidalPhi_fill_raise w inertia d mass e :
  crba (rmodel w) (rdata w) (neutral (rmodel w)) = (Ok inertia, d) →
  np_item00 inertia = Ok mass →
  fill_phi mass (od_keys (ee_map (self w))) (timeline (cs (self w)))
           (py_but_last (ms_interval_data (cs (self w))))
           (PhiC_new (od_keys (ee_map (self w))) (length (timeline (cs (self w)))))
    = Raise e →
  createCentroidalPhi w = (Raise e, with_rdata d w).
Proof.
  intros Hcrba Hmass Hfill. rewrite createCentroidalPhi_stages, Hcrba. simpl.
  rewrite Hmass. unfold centroidal_samples. by rewrite Hfill.
Qed.

End CentroidalErrors.

(** ** The interpolants createCentroidalPhi stores *)

Section CentroidalResult.
Context {Sc : Scalar} {NP : Numpy} {Pin : Pinocchio}.

Lemma assign_forces_spec (f df : OrderedDict Array2) t (l : list string) : ∀ w w',
  m_for l (λ patch,
    f_patch <-- m_lift (od_get f patch);;
    df_patch <-- m_lift (od_get df patch);;
    phi_c_set_force patch
      {| abscissa := t; points := a2m f_patch; derivatives := a2m df_patch |}) w
  = (Ok (), w') →
  rdata w' = rdata w ∧
  CentroidalPhi.com_vcom (phi_c (self w')) = CentroidalPhi.com_vcom (phi_c (self w)) ∧
  CentroidalPhi.hg (phi_c (self w')) = CentroidalPhi.hg (phi_c (self w)) ∧
  (∀ patch, patch ∉ l →
     od_get (CentroidalPhi.forces (phi_c (self w'))) patch
     = od_get (CentroidalPhi.forces (phi_c (self w))) patch) ∧
  (∀ patch, patch ∈ l →
     ∃ a b, od_get f patch = Ok a ∧ od_get df patch = Ok b ∧
       od_get (CentroidalPhi.forces (phi_c (self w'))) patch
       = Ok {| abscissa := t; points := a; derivatives := b |}).
Proof.
  induction l as [|p l IH]; intros w w' H.
  - injection H as <-. split_and!; try done. by intros patch ?%elem_of_nil.
  - cbn [m_for] in H. rewrite !m_bind_run in H. unfold m_lift at 1 in H.
    destruct (od_get f p) as [a|] eqn:Ha; [|discriminate].
    rewrite m_bind_run in H. unfold m_lift at 1 in H.
    destruct (od_get df p) as [b|] eqn:Hb; [|discriminate].
    unfold phi_c_set_force at 1, m_modify at 1 in H.
    destruct (IH _ _ H) as (Hd & Hc & Hh & Hout & Hin). simpl in Hd, Hc, Hh, Hout.
    split_and!; try done.
    + intros patch [Hne Hnl]%not_elem_of_cons.
      rewrite Hout by done. by rewrite od_get_update, decide_False.
    + intros patch Hp. destruct (decide (patch ∈ l)) as [?|Hnl]; [by apply Hin|].
      apply elem_of_cons in Hp as [->|?]; [|done].
      exists a, b. split_and!; try done.
      rewrite Hout by done. by rewrite od_get_update, decide_True.
Qed.

(** When the method returns, [self.phi_c] holds the interpolants built from
    the deduplicated timeline and the deduplicated arrays. *)
Lemma createCentroidalPhi_Ok w w' :
  createCentroidalPhi w = (Ok (), w') →
  ∃ inertia mass s,
    crba (rmodel w) (rdata w) (neutral (rmodel w)) = (Ok inertia, rdata w') ∧
    np_item00 inertia = Ok mass ∧
    centroidal_samples (cs (self w)) (od_keys (ee_map (self w))) mass = Ok s ∧
    CentroidalPhi.com_vcom (phi_c (self w'))
    = Some {| abscissa := t_traj s; points := PhiC.com_vcom (phi_c_2 s);
              derivatives := PhiC.vcom_acom (phi_c_2 s) |} ∧
    CentroidalPhi.hg (phi_c (self w'))
    = Some {| abscissa := t_traj s; points := PhiC.hg (phi_c_2 s);
              derivatives := PhiC.dhg (phi_c_2 s) |} ∧
    ∀ patch, patch ∈ od_keys (ee_map (self w)) →
      ∃ a b, od_get (PhiC.f (phi_c_2 s)) patch = Ok a ∧
             od_get (PhiC.df (phi_c_2 s)) patch = Ok b ∧
             od_get (CentroidalPhi.forces (phi_c (self w'))) patch
             = Ok {| abscissa := t_traj s; points := a; derivatives := b |}.
Proof.
  rewrite createCentroidalPhi_stages. simpl.
  destruct (crba _ _ _) as [[inertia|e0] d] eqn:Hcrba; simpl; [|discriminate].
  destruct (np_item00 inertia) as [mass|e0] eqn:Hmass; [|discriminate].
  destruct (centroidal_samples _ _ mass) as [s|e0] eqn:Hs; [|discriminate].
  unfold assign_phi_c. rewrite !m_bind_run.
  unfold phi_c_set_com_vcom at 1, m_modify at 1.
  unfold phi_c_set_hg at 1, m_modify at 1. intros H.
  apply assign_forces_spec in H as (Hd & Hc & Hh & _ & Hin). simpl in Hd, Hc, Hh.
  exists inertia, mass, s. split_and!; try done. by rewrite Hd.
Qed.

End CentroidalResult.


(** ** The samples of createCentroidalPhi *)

Section Samples.
Context {Sc : Scalar} {NP : Numpy}.

(** Every array of [phi_c_2] is the array of [phi_c_], which has one row per
    timestamp, without the rows [findDuplicates] marked. *)
Lemma centroidal_samples_removed cs patch_names mass s :
  centroidal_samples cs patch_names mass = Ok s →
  parallel_arrays patch_names (phi_c_ s) (phi_c_2 s)
    (λ a a', length a = length (raw_timeline s) ∧
             a' = removeDuplicates a (findDuplicates (raw_timeline s))).
Proof.
  intros H. pose proof (centroidal_samples_shape _ _ _ _ H) as [Hrows _].
  destruct Hrows as ([H1 _] & [H2 _] & [H3 _] & [H4 _] & H5 & H6).
  apply centroidal_samples_Ok in H as (n & Ht & _ & Ht' & H2new).
  unfold parallel_arrays. rewrite Ht in *.
  destruct (PhiC2_new_arrays _ _ _ _ H2new) as (-> & -> & -> & ->).
  split_and!; try done.
  intros patch Hin.
  destruct (PhiC2_new_get _ _ _ _ _ H2new Hin) as (a & b & Ha & Hb & Ha' & Hb').
  eexists a, _, b, _. split_and!; try done.
  - by apply (H5 patch).
  - by apply (H6 patch).
Qed.

(** Every interval has its rows in the arrays of [phi_c_], at its offset. *)
Lemma centroidal_samples_rows cs patch_names mass s :
  centroidal_samples cs patch_names mass = Ok s →
  matching_rows (py_but_last (ms_interval_data cs)) →
  ∀ k spl, py_but_last (ms_interval_data cs) !! k = Some spl →
    state_rows mass spl (segment_offset (py_but_last (ms_interval_data cs)) k)
               (phi_c_ s) ∧
    force_rows patch_names spl
               (segment_offset (py_but_last (ms_interval_data cs)) k) (phi_c_ s).
Proof.
  intros H Hmatch.
  apply centroidal_samples_Ok in H as (n & _ & Hfill & _ & _).
  rewrite timeline_concat in Hfill.
  apply (fill_phi_rows _ _ _ _ Hfill Hmatch).
Qed.

(** The timeline of the scenario: two intervals that share their boundary
    timestamp. *)
Lemma findDuplicates_shared_boundary (t0 t1 t2 t3 t4 : num) :
  NoDup [t0; t1; t2; t3; t4] →
  findDuplicates ([t0; t1; t2] ++ [t2; t3; t4]) = [3].
Proof.
  intros Hnd.
  assert (t0 ≠ t1 ∧ t0 ≠ t2 ∧ t0 ≠ t3 ∧ t0 ≠ t4 ∧ t1 ≠ t2 ∧ t1 ≠ t3 ∧ t1 ≠ t4
          ∧ t2 ≠ t3 ∧ t2 ≠ t4 ∧ t3 ≠ t4) as (?&?&?&?&?&?&?&?&?&?).
  { repeat match goal with
           | H : NoDup (_ :: _) |- _ => apply NoDup_cons in H as [? ?]
           | H : _ ∉ _ :: _ |- _ => apply not_elem_of_cons in H as [? ?]
           end.
    by split_and!. }
  unfold findDuplicates. simpl.
  repeat match goal with
         | |- context [decide (?x ∈ ?l)] =>
             let Hin := fresh "Hin" in
             let Hnin := fresh "Hnin" in
             destruct (decide (x ∈ l)) as [Hin|Hnin];
             [ try (exfalso; revert Hin; rewrite ?elem_of_cons, elem_of_nil;
                    intuition congruence)
             | try (exfalso; apply Hnin; rewrite ?elem_of_cons; tauto) ]
         end.
  done.
Qed.

Lemma removeDuplicates_shared_boundary {A} (a : list A) :
  length a = 6 →
  length (removeDuplicates a [3]) = 5 ∧ removeDuplicates a [3] !! 2 = a !! 2.
Proof.
  intros Hlen.
  destruct a as [|a0 [|a1 [|a2 [|a3 [|a4 [|a5 [|a6 a]]]]]]]; try discriminate.
  by vm_compute.
Qed.

End Samples.


(** * The claims *)

Section DeduplicationClaims.
Context {Sc : Scalar} {NP : Numpy}.

(** C1. When the samples of [createCentroidalPhi] are computed, with [t] the
    concatenated timeline and [k] the number of its timestamps that equal an
    earlier one: the deduplicated timeline and every deduplicated array
    ([com_vcom], [vcom_acom], [hg], [dhg], each patch's [f] and [df]) have
    [length t - k] rows, which are rows of the original in their order, and
    the row of a retained timestamp is the row of its first occurrence. In
    particular, for two intervals with time axes [t0, t1, t2] and
    [t2, t3, t4] the deduplicated timeline is [t0, t1, t2, t3, t4], every
    array has 5 rows, and its row 2 is row 2 of the array before
    deduplication, which holds the last sample of the first interval. *)
Theorem C1_deduplication cs patch_names mass s :
  centroidal_samples cs patch_names mass = Ok s →
  let t := raw_timeline s in
  let t' := t_traj s in
  t = timeline cs ∧
  (∀ j x, t' !! j = Some x → ∃ i, first_occurrence t x i) ∧
  deduplicated t t' t t' ∧
  parallel_arrays patch_names (phi_c_ s) (phi_c_2 s) (deduplicated t t') ∧
  (∀ s1 s2 t0 t1 t2 t3 t4,
     NoDup [t0; t1; t2; t3; t4] →
     py_but_last (ms_interval_data cs) = [s1; s2] →
     time_trajectory s1 = [t0; t1; t2] →
     time_trajectory s2 = [t2; t3; t4] →
     matching_rows [s1; s2] →
     t' = [t0; t1; t2; t3; t4] ∧
     parallel_arrays patch_names (phi_c_ s) (phi_c_2 s)
       (λ a a', length a' = 5 ∧ a' !! 2 = a !! 2) ∧
     state_rows mass s1 0 (phi_c_ s) ∧
     force_rows patch_names s1 0 (phi_c_ s)).
Proof.
  intros H. pose proof (centroidal_samples_deduplicated _ _ _ _ H) as [Ht Harr].
  pose proof (centroidal_samples_removed _ _ _ _ H) as Hrem.
  pose proof (centroidal_samples_rows _ _ _ _ H) as Hrows.
  apply centroidal_samples_Ok in H as (n & Hraw & _ & Ht' & _).
  cbn zeta. split_and!; try done.
  - intros j x Hj. rewrite Ht', <- Hraw in Hj.
    by apply removeDuplicates_first_occurrence in Hj.
  - intros s1 s2 t0 t1 t2 t3 t4 Hnd Hsegs Hs1 Hs2 Hmatch.
    assert (Htl : raw_timeline s = [t0; t1; t2] ++ [t2; t3; t4]).
    { rewrite Hraw, timeline_concat, Hsegs. simpl. by rewrite Hs1, Hs2, app_nil_r. }
    pose proof (findDuplicates_shared_boundary _ _ _ _ _ Hnd) as Hdup.
    rewrite Hsegs in Hrows. split_and!.
    + rewrite Ht', <- Hraw, Htl, Hdup. by vm_compute.
    + eapply parallel_arrays_impl; [|exact Hrem].
      intros a a' [Hlen ->]. rewrite Htl, Hdup.
      apply removeDuplicates_shared_boundary. by rewrite Hlen, Htl.
    + by apply (Hrows Hmatch 0 s1).
    + by apply (Hrows Hmatch 0 s1).
Qed.

(** C3. When the samples of [createCentroidalPhi] are computed from a
    concatenated timeline that never decreases (for a strict order [lt] of
    the scalars), the deduplicated timeline is strictly increasing. *)
Theorem C3_strictly_increasing (lt : relation num) `{!StrictOrder lt}
    cs patch_names mass s :
  centroidal_samples cs patch_names mass = Ok s →
  non_decreasing lt (timeline cs) →
  strictly_increasing lt (t_traj s).
Proof.
  intros H Hnd. apply centroidal_samples_Ok in H as (n & _ & _ & -> & _).
  by apply removeDuplicates_strictly_increasing.
Qed.

End DeduplicationClaims.

Section ArrayClaims.
Context {Sc : Scalar} {NP : Numpy}.

(** C4. When the samples of [createCentroidalPhi] are computed from
    intervals whose sample arrays have as many rows as their time axis: for
    every interval and every sample row of it, the row of [hg] has in its
    columns 0 to 2 [mass] times the columns 3 to 5 of the state row and in
    its columns 3 to 5 the last 3 columns of the state row; the row of
    [dhg] has the same of the row of the state derivative. *)
Theorem C4_angular_momentum cs patch_names mass s :
  centroidal_samples cs patch_names mass = Ok s →
  matching_rows (py_but_last (ms_interval_data cs)) →
  ∀ k spl j,
    py_but_last (ms_interval_data cs) !! k = Some spl →
    let i := segment_offset (py_but_last (ms_interval_data cs)) k + j in
    (∀ xr, state_trajectory spl !! j = Some xr →
       ∃ h, PhiC.hg (phi_c_ s) !! i = Some h ∧ length h = 6 ∧ 6 ≤ length xr ∧
         (∀ c, c < 3 → h !! c = num_mul mass <$> xr !! (3 + c)) ∧
         (∀ c, c < 3 → h !! (3 + c) = xr !! (length xr - 3 + c))) ∧
    (∀ dxr, dot_state_trajectory spl !! j = Some dxr →
       ∃ dh, PhiC.dhg (phi_c_ s) !! i = Some dh ∧ length dh = 6 ∧ 6 ≤ length dxr ∧
         (∀ c, c < 3 → dh !! c = num_mul mass <$> dxr !! (3 + c)) ∧
         (∀ c, c < 3 → dh !! (3 + c) = dxr !! (length dxr - 3 + c))).
Proof.
  intros H Hmatch k spl j Hk. cbn zeta.
  destruct (centroidal_samples_rows _ _ _ _ H Hmatch k spl Hk) as [[Hx Hdx] _].
  assert (Hrow : ∀ r : list num, 6 ≤ length r →
    let h := (num_mul mass <$> py_slice 3 6 r) ++ py_suffix 3 r in
    length h = 6 ∧
    (∀ c, c < 3 → h !! c = num_mul mass <$> r !! (3 + c)) ∧
    (∀ c, c < 3 → h !! (3 + c) = r !! (length r - 3 + c))).
  { intros r Hr. cbn zeta.
    assert (Hl : length (num_mul mass <$> py_slice 3 6 r) = 3)
      by (rewrite length_fmap, py_slice_length; lia).
    split_and!.
    - rewrite length_app, Hl, py_suffix_length; lia.
    - intros c Hc. rewrite lookup_app_l by lia.
      by rewrite list_lookup_fmap, py_slice_lookup, decide_True by lia.
    - intros c Hc. rewrite lookup_app_r by lia. rewrite Hl.
      replace (3 + c - 3) with c by lia.
      unfold py_suffix. rewrite decide_False by lia. by rewrite lookup_drop. }
  split.
  - intros xr Hj. destruct (Hx j xr Hj) as (Hw & _ & Hh).
    eexists. split; [exact Hh|]. destruct (Hrow xr Hw) as (? & ? & ?). by split_and!.
  - intros dxr Hj. destruct (Hdx j dxr Hj) as (Hw & _ & Hh).
    eexists. split; [exact Hh|]. destruct (Hrow dxr Hw) as (? & ? & ?). by split_and!.
Qed.

(** C5. The column ranges of [range_def] are the four 6-wide ranges 0-6,
    6-12, 12-18 and 18-24, in this order: put end to end they are the
    columns 0 to 23, each once. And when the samples are computed from
    intervals whose sample arrays have as many rows as their time axis, for
    every interval whose control has 24 columns and every sample time [t]
    of it, the row of the force array of the fourth patch, [LH_patch], is
    the list of the values at [t] of the polynomials fitted to the last 6
    control columns. *)
Theorem C5_partition cs patch_names mass s :
  centroidal_samples cs patch_names mass = Ok s →
  matching_rows (py_but_last (ms_interval_data cs)) →
  "LH_patch" ∈ patch_names →
  range_def = [("RF_patch", py_range 0 6); ("LF_patch", py_range 6 12);
               ("RH_patch", py_range 12 18); ("LH_patch", py_range 18 24)] ∧
  concat (range_def.*2) = seq 0 24 ∧
  ∀ k spl,
    py_but_last (ms_interval_data cs) !! k = Some spl →
    np_width (control_trajectory spl) = 24 →
    ∃ polys a,
      polyfitND (time_trajectory spl) (control_trajectory spl) 3 = Ok polys ∧
      length polys.1 = 24 ∧
      (∀ c p, polys.1 !! c = Some p →
         np_polyfit (time_trajectory spl)
                    (np_column c (control_trajectory spl)) 3 = Ok p) ∧
      od_get (PhiC.f (phi_c_ s)) "LH_patch" = Ok a ∧
      ∀ j t, time_trajectory spl !! j = Some t →
        a !! (segment_offset (py_but_last (ms_interval_data cs)) k + j)
        = Some ((λ p, poly_eval p t) <$> drop 18 polys.1).
Proof.
  intros H Hmatch Hin. split_and!; [done | done |].
  intros k spl Hk Hwidth.
  destruct (centroidal_samples_rows _ _ _ _ H Hmatch k spl Hk)
    as [_ (polys & Hfit & Hpatch)].
  destruct (Hpatch _ Hin) as [(r & a & Hr & Ha & Hrows) _].
  unfold m2a in Hfit. destruct (polyfitND_Ok _ _ _ _ Hfit) as (Hlen & _ & Hcols).
  rewrite Hwidth in Hlen.
  exists polys, a. split_and!; try done.
  intros j t Hj. destruct (Hrows j t Hj) as (row & -> & Hrow). f_equal.
  assert (r = seq 18 6) as -> by (by vm_compute in Hr; injection Hr as <-).
  rewrite f_poly_seq in Hrow by lia. injection Hrow as <-.
  by rewrite take_ge by (rewrite length_drop; lia).
Qed.

End ArrayClaims.

Section WorldClaims.
Context {Sc : Scalar} {NP : Numpy} {Pin : Pinocchio}.

(** C2. When [createCentroidalPhi] returns, every deduplicated array
    ([com_vcom], [vcom_acom], [hg], [dhg], each patch's [f] and [df]) has as
    many rows as the deduplicated timeline, and every interpolant stored in
    [self.phi_c] was built from that timeline and from value and derivative
    arrays with that many rows. *)
Theorem C2_row_counts w w' :
  createCentroidalPhi w = (Ok (), w') →
  ∃ mass s,
    centroidal_samples (cs (self w)) (od_keys (ee_map (self w))) mass = Ok s ∧
    parallel_arrays (od_keys (ee_map (self w))) (phi_c_ s) (phi_c_2 s)
      (λ _ a', length a' = length (t_traj s)) ∧
    (∃ sp, CentroidalPhi.com_vcom (phi_c (self w')) = Some sp ∧
           abscissa sp = t_traj s ∧ spline_rows_match sp) ∧
    (∃ sp, CentroidalPhi.hg (phi_c (self w')) = Some sp ∧
           abscissa sp = t_traj s ∧ spline_rows_match sp) ∧
    ∀ patch, patch ∈ od_keys (ee_map (self w)) →
      ∃ sp, od_get (CentroidalPhi.forces (phi_c (self w'))) patch = Ok sp ∧
            abscissa sp = t_traj s ∧ spline_rows_match sp.
Proof.
  intros H.
  apply createCentroidalPhi_Ok in H
    as (inertia & mass & s & _ & _ & Hs & Hc & Hh & Hf).
  destruct (centroidal_samples_deduplicated _ _ _ _ Hs) as [[Ht _] Harr].
  assert (Hlen : parallel_arrays (od_keys (ee_map (self w))) (phi_c_ s) (phi_c_2 s)
                   (λ _ a', length a' = length (t_traj s))).
  { eapply parallel_arrays_impl; [|exact Harr]. intros a a' [Ha _]. congruence. }
  exists mass, s. split_and!; try done.
  - eexists. split; [exact Hc|]. destruct Hlen as (? & ? & _). by repeat split.
  - eexists. split; [exact Hh|]. destruct Hlen as (_ & _ & ? & ? & _). by repeat split.
  - intros patch Hin. destruct (Hf patch Hin) as (a & b & Ha & Hb & Hsp).
    eexists. split; [exact Hsp|]. destruct Hlen as (_ & _ & _ & _ & Hp).
    destruct (Hp patch Hin) as (a0 & a' & b0 & b' & _ & Ha' & _ & Hb' & ? & ?).
    replace a' with a in * by congruence. replace b' with b in * by congruence.
    by repeat split.
Qed.

End WorldClaims.

Section MethodClaims.
Context {Sc : Scalar} {NP : Numpy} {Pin : Pinocchio}.

(** C6, as amended. Whether they return or raise, [createEESplines] and
    [createCentroidalPhi] leave the state trajectory [xs], the robot model,
    the contact sequence, the end-effector map and the console as they
    were; [createEESplines] moreover leaves [self.phi_c] as it was, and
    [createCentroidalPhi] leaves [self.ee_splines] as it was. (The robot
    data is not in this list: the calls of the kinematics library write to
    it.) *)
Theorem C6_inputs_kept t_sampling w :
  phi_c_kept w (createEESplines t_sampling w).2 ∧
  ee_splines_kept w (createCentroidalPhi w).2.
Proof. split; [apply createEESplines_keeps | apply createCentroidalPhi_keeps]. Qed.

Lemma range_def_bound patch r i : od_get range_def patch = Ok r → i ∈ r → i < 24.
Proof.
  unfold range_def. simpl.
  repeat (case_decide; [intros [= <-]; unfold py_range;
                        rewrite elem_of_seq; lia|]).
  discriminate.
Qed.

(** C7, as amended. If crba gives a matrix with an entry [0, 0], the
    intervals before some interval are processed without exception, the
    interval has at least one sample, its processing succeeds for the
    patches that come before some patch of the end-effector map, and the
    column range of that patch reaches beyond the width of the interval's
    control, then that width is smaller than 24 and [createCentroidalPhi]
    raises [IndexError]; the world is then as crba left it, without any
    assignment to [self.phi_c]. *)
Theorem C7_narrow_control w inertia d mass done spl rest pre patch post st st1 r i :
  crba (rmodel w) (rdata w) (neutral (rmodel w)) = (Ok inertia, d) →
  np_item00 inertia = Ok mass →
  py_but_last (ms_interval_data (cs (self w))) = done ++ spl :: rest →
  od_keys (ee_map (self w)) = pre ++ patch :: post →
  fill_phi mass (od_keys (ee_map (self w))) (timeline (cs (self w))) done
    (PhiC_new (od_keys (ee_map (self w))) (length (timeline (cs (self w)))))
    = Ok st →
  segment_step mass pre (timeline (cs (self w))) st spl = Ok st1 →
  py_slice st.1 (st.1 + length (state_trajectory spl)) (timeline (cs (self w))) ≠ [] →
  od_get range_def patch = Ok r → i ∈ r →
  np_width (control_trajectory spl) ≤ i →
  np_width (control_trajectory spl) < 24 ∧
  createCentroidalPhi w = (Raise IndexError, with_rdata d w).
Proof.
  intros Hcrba Hmass Hsegs Hnames Hdone Hpre Htt Hr Hi Hwidth.
  split; [pose proof (range_def_bound _ _ _ Hr Hi); lia|].
  apply (createCentroidalPhi_fill_raise _ _ _ _ _ Hcrba Hmass).
  rewrite Hsegs. apply (fill_phi_raise _ _ _ _ _ _ _ _ _ Hdone).
  rewrite Hnames. apply (segment_step_patch_raise _ _ _ _ _ _ _ _ _ Hpre).
  intros polys fdf Hfit. apply (patch_step_IndexError _ _ _ _ _ _ _ r i); try done.
  apply polyfitND_Ok in Hfit as (-> & _ & _). done.
Qed.

(** C8, as amended. If crba gives a matrix with an entry [0, 0], the
    end-effector map has a patch name outside RF_patch, LF_patch, RH_patch,
    LH_patch, the contact sequence has a first interval with at least one
    sample, and the processing of that interval succeeds for the patches
    that come before the foreign one, then [createCentroidalPhi] raises
    [KeyError] for that name, and [self.phi_c] is as it was. *)
Theorem C8_foreign_patch w inertia d mass spl rest pre patch post st1 :
  crba (rmodel w) (rdata w) (neutral (rmodel w)) = (Ok inertia, d) →
  np_item00 inertia = Ok mass →
  py_but_last (ms_interval_data (cs (self w))) = spl :: rest →
  od_keys (ee_map (self w)) = pre ++ patch :: post →
  patch ∉ ["RF_patch"; "LF_patch"; "RH_patch"; "LH_patch"] →
  segment_step mass pre (timeline (cs (self w)))
    (0, PhiC_new (od_keys (ee_map (self w))) (length (timeline (cs (self w)))))
    spl = Ok st1 →
  py_slice 0 (0 + length (state_trajectory spl)) (timeline (cs (self w))) ≠ [] →
  ∃ w', createCentroidalPhi w = (Raise (KeyError patch), w') ∧
        phi_c (self w') = phi_c (self w).
Proof.
  intros Hcrba Hmass Hsegs Hnames Hforeign Hpre Htt.
  exists (with_rdata d w). split; [|done].
  apply (createCentroidalPhi_fill_raise _ _ _ _ _ Hcrba Hmass).
  rewrite Hsegs.
  apply (fill_phi_raise _ _ _ [] spl rest _ _ _ eq_refl).
  pose proof (segment_step_patch_raise _ _ patch post _ _ _ _
                (KeyError patch) Hpre) as Hraise.
  rewrite <- Hnames in Hraise. apply Hraise.
  intros polys fdf Hfit. by apply patch_step_KeyError.
Qed.

(** C9, as amended. For a state trajectory with at least one sample,
    [createEESplines] and the variant that builds each spline once, after
    the loop over the samples, from the fully populated arrays, end with
    the same result or exception; when they return they end in the same
    world, so the spline stored for each end effector is the one built
    once; when they raise, the worlds differ at most in [self.ee_splines]. *)
Theorem C9_built_once t_sampling w :
  xs w ≠ [] →
  outcomes_agree (createEESplines t_sampling w) (createEESplines_once t_sampling w).
Proof. apply createEESplines_once_agree. Qed.

(** C10. For an empty state trajectory, [createEESplines] builds an empty
    timestamp axis and returns without exception; forward kinematics is
    not called, the robot data is as it was, and the end-effector spline
    map is a new map without any entry. *)
Theorem C10_empty_trajectory t_sampling w :
  xs w = [] →
  a2m (np_linspace t_sampling (length (xs w))) = [] ∧
  ∃ w', createEESplines t_sampling w = (Ok (), w') ∧
        fk_calls w' = fk_calls w ∧ rdata w' = rdata w ∧
        ee_splines (self w') = Some [] ∧
        ∀ patch, od_get (default [] (ee_splines (self w'))) patch
                 = Raise (KeyError patch).
Proof.
  intros Hxs. split.
  - unfold a2m. apply nil_length_inv. by rewrite np_linspace_length, Hxs.
  - eexists. split; [by apply createEESplines_empty|]. by split_and!.
Qed.

End MethodClaims.


(** * Further properties of the two methods *)

(** ** Loops that return *)

Section MonadReturns.
Context {Sc : Scalar} {NP : Numpy} {Pin : Pinocchio}.

Lemma m_bind_Ok {A B} (m : M A) (k : A → M B) w b w' :
  m_bind m k w = (Ok b, w') →
  ∃ a w1, m w = (Ok a, w1) ∧ k a w1 = (Ok b, w').
Proof.
  rewrite m_bind_run. destruct (m w) as [[a|e] w1]; [eauto | discriminate].
Qed.

Lemma m_foldl_Ok_inv {A B} (P : list A → B → World → Prop)
    (body : B → A → M B) l : ∀ b w b' w',
  P [] b w →
  (∀ done a rest b w b' w',
     l = done ++ a :: rest →
     P done b w → body b a w = (Ok b', w') → P (done ++ [a]) b' w') →
  m_foldl body b l w = (Ok b', w') → P l b' w'.
Proof.
  revert P. induction l as [|a l IH]; intros P b w b' w' H0 Hstep H.
  - injection H as <- <-. done.
  - simpl in H. apply m_bind_Ok in H as (b1 & w1 & Ha & H).
    apply (IH (λ done, P (a :: done)) b1 w1 b' w').
    + apply (Hstep [] a l b w b1 w1 eq_refl H0 Ha).
    + intros done a' rest b2 w2 b3 w3 -> HP Hb.
      apply (Hstep (a :: done) a' rest b2 w2 b3 w3 eq_refl HP Hb).
    + exact H.
Qed.

Lemma m_for_Ok_inv {A} (P : list A → World → Prop) (body : A → M ()) l : ∀ w w',
  P [] w →
  (∀ done a rest w w',
     l = done ++ a :: rest →
     P done w → body a w = (Ok (), w') → P (done ++ [a]) w') →
  m_for l body w = (Ok (), w') → P l w'.
Proof.
  revert P. induction l as [|a l IH]; intros P w w' H0 Hstep H.
  - injection H as <-. done.
  - simpl in H. apply m_bind_Ok in H as ([] & w1 & Ha & H).
    apply (IH (λ done, P (a :: done)) w1 w').
    + apply (Hstep [] a l w w1 eq_refl H0 Ha).
    + intros done a' rest w2 w3 -> HP Hb.
      apply (Hstep (a :: done) a' rest w2 w3 eq_refl HP Hb).
    + exact H.
Qed.

End MonadReturns.

(** Takes apart a hypothesis that a sequence of monadic steps returned. *)
Ltac m_inv H :=
  repeat (let a := fresh "a" in let w := fresh "w" in let E := fresh "E" in
          apply m_bind_Ok in H as (a & w & E & H)).

Section Kinematics.
Context {Sc : Scalar} {NP : Numpy} {Pin : Pinocchio}.

(** What one iteration of the loop over the samples does when it returns. *)
Lemma ee_sample_step_once_Ok patch pm i w pm' w' :
  ee_sample_step_once patch pm i w = (Ok pm', w') →
  ∃ x_i frame d1 translation linear,
    xs w !! i = Some x_i ∧
    od_get (ee_map (self w)) patch = Ok frame ∧
    forwardKinematics (rmodel w) (rdata w)
      (take (model_nq (rmodel w)) x_i) (py_suffix (model_nv (rmodel w)) x_i)
    = (Ok (), d1) ∧
    updateFramePlacement (rmodel w) d1 (getFrameId (rmodel w) frame)
    = (Ok translation, rdata w') ∧
    getFrameVelocity (rmodel w) (rdata w') (getFrameId (rmodel w) frame)
    = Ok linear ∧
    np_setcol pm.1 i translation = Ok pm'.1 ∧
    np_setcol pm.2 i linear = Ok pm'.2 ∧
    w' = count_fk (with_rdata (rdata w') w).
Proof.
  unfold ee_sample_step_once. intros H. m_inv H.
  unfold m_ret in H. injection H as <- <-.
  unfold m_gets, m_lift, call_forwardKinematics, call_updateFramePlacement,
    call_getFrameVelocity, a2m, m2a in *.
  injection E as Hx <-. injection E0 as <- <-. injection E1 as <- <-.
  injection E2 as Hfk <-. injection E3 as Hframe <-. injection E4 as <- <-.
  injection E5 as Hup <-. injection E6 as Hp <-. injection E7 as Hframe' <-.
  injection E8 as <- <-. injection E9 as Hlin <-. injection E10 as Hm <-.
  simpl in *. unfold py_index in Hx.
  destruct (xs w !! i) as [x_i|]; [injection Hx as ->|discriminate].
  destruct a2.
  destruct (forwardKinematics _ _ _ _) as [r1 d1] eqn:Hfwd. simpl in *. subst r1.
  destruct (updateFramePlacement _ _ _) as [r2 d2] eqn:Hupd. simpl in *. subst r2.
  rewrite Hframe in Hframe'. injection Hframe' as <-.
  exists a, a3, d1, a5, a9. by split_and!.
Qed.

End Kinematics.


(** ** The sampling loops of createEESplines *)

Section ColumnAssignment.
Context {Sc : Scalar}.

Lemma np_width_shape n c (a : Array2) : has_shape n c a → 0 < n → np_width a = c.
Proof.
  intros [Hn Hc] Hpos. destruct a as [|r a]; simpl in *; [lia|].
  by apply Forall_cons in Hc as [? _].
Qed.

Lemma np_column_length c (a : Array2) : length (np_column c a) = length a.
Proof. unfold np_column. by rewrite length_fmap. Qed.

(** [a[:, i] = src] keeps the shape, stores the broadcast [src] in column
    [i] and leaves the other columns. *)
Lemma np_setcol_Ok n c (dst : Array2) i src dst' :
  np_setcol dst i src = Ok dst' → has_shape n c dst →
  has_shape n c dst' ∧ i < c ∧
  broadcast1 n src = Ok (np_column i dst') ∧
  ∀ j, j ≠ i → np_column j dst' = np_column j dst.
Proof.
  unfold np_setcol. intros H [Hn Hc]. case_decide as Hi; [|discriminate].
  exc_inv H. subst dst'. rename a into col.
  pose proof (broadcast1_Ok_length _ _ _ E) as Hcol.
  assert (Hw : np_width dst = c).
  { apply (np_width_shape n); [done|]. destruct dst; simpl in *; lia. }
  rewrite Forall_lookup in Hc.
  split_and!.
  - split.
    + rewrite length_zip_with. lia.
    + apply Forall_lookup. intros k r Hk.
      apply lookup_zip_with_Some in Hk as (row & v & -> & Hrow & _).
      rewrite length_insert. by apply (Hc k).
  - lia.
  - rewrite Hn in E. rewrite E. f_equal.
    apply (list_eq_same_length _ _ n).
    + rewrite np_column_length, length_zip_with. lia.
    + lia.
    + intros k x y Hk Hx Hy. unfold np_column in Hy.
      rewrite list_lookup_fmap, lookup_zip_with in Hy.
      destruct (dst !! k) as [row|] eqn:Hrow; [|discriminate].
      rewrite Hx in Hy. simpl in Hy.
      rewrite list_lookup_insert_eq in Hy by (rewrite (Hc k row Hrow); lia).
      simpl in Hy. congruence.
  - intros j Hj. unfold np_column. apply list_eq. intros k.
    rewrite !list_lookup_fmap, lookup_zip_with.
    destruct (dst !! k) as [row|] eqn:Hrow; [|done].
    destruct (col !! k) as [v|] eqn:Hv.
    + simpl. by rewrite list_lookup_insert_ne by done.
    + apply lookup_ge_None in Hv. apply lookup_lt_Some in Hrow. lia.
Qed.

End ColumnAssignment.

Section SamplingLoops.
Context {Sc : Scalar} {NP : Numpy} {Pin : Pinocchio}.

(** The loop over the samples, for one patch: when it returns, forward
    kinematics has run once per sample, the two arrays have kept their
    shape, and every column is sampled from the robot state of its index. *)
Lemma sample_loop_once_Ok abscissa patch N p0 m0 w pm w' :
  m_foldl (ee_sample_step_once patch) (p0, m0) (py_range 0 N) w = (Ok pm, w') →
  has_shape 3 N p0 → has_shape 3 N m0 →
  sampling_frame w w' ∧ fk_calls w' = fk_calls w + N ∧
  has_shape 3 N pm.1 ∧ has_shape 3 N pm.2 ∧
  ∀ i, i < N →
    sampled_at w patch i {| abscissa := abscissa; points := pm.1; derivatives := pm.2 |}.
Proof.
  intros H Hp0 Hm0.
  pose (P := λ (done : list nat) (pm : Array2 * Array2) (w1 : World),
    sampling_frame w w1 ∧ fk_calls w1 = fk_calls w + length done ∧
    has_shape 3 N pm.1 ∧ has_shape 3 N pm.2 ∧
    ∀ i, i ∈ done →
      sampled_at w patch i
        {| abscissa := abscissa; points := pm.1; derivatives := pm.2 |}).
  assert (HP : P (py_range 0 N) pm w').
  { eapply (m_foldl_Ok_inv P); [| |exact H].
    - unfold P. split_and!; try done.
      intros i Hi. by apply elem_of_nil in Hi.
    - clear H. intros done a rest pm1 w1 pm2 w2 Hl
        ((Hself & Hmodel & Hxs & Hcon) & Hfk & Hp & Hm & Hcols) Hstep.
      apply ee_sample_step_once_Ok in Hstep
        as (x_i & frame & d1 & tr & lin & Hx & Hframe & Hfwd & Hup & Hvel
            & Hsetp & Hsetm & Hw2).
      destruct (np_setcol_Ok _ _ _ _ _ _ Hsetp Hp) as (Hp' & _ & Hpa & Hpo).
      destruct (np_setcol_Ok _ _ _ _ _ _ Hsetm Hm) as (Hm' & _ & Hma & Hmo).
      assert (Hnew : a ∉ done).
      { pose proof (NoDup_seq 0 (N - 0)) as Hnd. fold (py_range 0 N) in Hnd.
        rewrite Hl in Hnd. apply NoDup_app in Hnd as (_ & Hnd & _).
        intros Hin. apply (Hnd a Hin). by left. }
      unfold P. split_and!.
      + rewrite Hw2. simpl. by split_and!.
      + rewrite Hw2. simpl. rewrite length_app. simpl. lia.
      + done.
      + done.
      + intros i Hi. apply elem_of_app in Hi as [Hi|Hi].
        * destruct (Hcols i Hi)
            as (x & fr & e0 & e1 & e2 & t & l & ? & ? & ? & ? & ? & Ht & Hlq).
          exists x, fr, e0, e1, e2, t, l. simpl in *.
          assert (i ≠ a) by (intros ->; done).
          rewrite Hpo, Hmo by done. by split_and!.
        * apply list_elem_of_singleton in Hi as ->.
          exists x_i, frame, (rdata w1), d1, (rdata w2), tr, lin. simpl.
          rewrite Hself, Hmodel, Hxs in *. unfold a2m, m2a. by split_and!. }
  destruct HP as (? & Hfk & ? & ? & Hcols). split_and!; try done.
  - rewrite Hfk. unfold py_range. rewrite length_seq. lia.
  - intros i Hi. apply Hcols. unfold py_range. apply elem_of_seq. lia.
Qed.

End SamplingLoops.

Section SplineMap.
Context {Sc : Scalar} {NP : Numpy} {Pin : Pinocchio}.

Lemma sampled_at_frame (w w' : World) patch i sp :
  xs w' = xs w → ee_map (self w') = ee_map (self w) → rmodel w' = rmodel w →
  sampled_at w' patch i sp → sampled_at w patch i sp.
Proof. unfold sampled_at. by intros -> -> ->. Qed.

(** What [createEESplines] leaves when it returns. *)
Lemma createEESplines_Ok t_sampling w w' :
  createEESplines t_sampling w = (Ok (), w') →
  fk_calls w' = fk_calls w + length (od_keys (ee_map (self w))) * length (xs w) ∧
  ∃ m, ee_splines (self w') = Some m ∧
    (xs w ≠ [] →
     (∀ k, k ∈ od_keys m ↔ k ∈ od_keys (ee_map (self w))) ∧
     ∀ patch, patch ∈ od_keys (ee_map (self w)) →
       ∃ sp, od_get m patch = Ok sp ∧ ee_spline_of t_sampling w patch sp).
Proof.
  intros H. destruct (decide (xs w = [])) as [Hxs|Hxs].
  { rewrite (createEESplines_empty _ _ Hxs) in H. injection H as <-.
    simpl. rewrite Hxs. simpl. split; [lia|]. exists []. split; [done|]. by intros []. }
  destruct (createEESplines_once_agree t_sampling w Hxs) as (Hres & _ & Hw).
  rewrite H in Hres, Hw. simpl in Hres, Hw.
  assert (Honce : createEESplines_once t_sampling w = (Ok (), w')).
  { destruct (createEESplines_once t_sampling w) as [r w2]. simpl in *.
    rewrite <- Hres. f_equal. symmetry. apply Hw. by eexists. }
  clear H Hres Hw. unfold createEESplines_once in Honce.
  m_inv Honce. unfold m_gets, m_modify in *.
  injection E as <- <-. injection E0 as _ <-. injection E1 as <- <-.
  set (N := length (xs w)) in *.
  set (w1 := with_self (set_ee_splines (Some [])) w) in *.
  pose (Q := λ (done : list string) (wq : World),
    rmodel wq = rmodel w ∧ xs wq = xs w ∧ ee_map (self wq) = ee_map (self w) ∧
    fk_calls wq = fk_calls w + length done * N ∧
    ∃ m, ee_splines (self wq) = Some m ∧
      (∀ k, k ∈ od_keys m ↔ k ∈ done) ∧
      ∀ patch, patch ∈ done →
        ∃ sp, od_get m patch = Ok sp ∧ ee_spline_of t_sampling w patch sp).
  assert (HQ : Q (od_keys (ee_map (self w))) w').
  { eapply (m_for_Ok_inv Q); [| |exact Honce].
    - unfold Q. split_and!; try done. exists []. split_and!; try done.
      intros patch Hin. by apply elem_of_nil in Hin.
    - clear Honce. intros done patch rest wq wq' _
        (Hmodel & Hx & Hmap & Hfk & m & Hm & Hkeys & Hsp) Hbody.
      apply m_bind_Ok in Hbody as (pm & w2 & Hloop & Hupd).
      apply (sample_loop_once_Ok (a2m (np_linspace t_sampling N))) in Hloop
        as ((Hself2 & Hmodel2 & Hx2 & _) & Hfk2 & Hp & Hm2 & Hcols);
        [|apply np_zeros_shape..].
      unfold ee_splines_update, m_modify in Hupd. injection Hupd as <-.
      unfold Q. simpl. rewrite Hself2, Hmodel2, Hx2, Hm. split_and!; try done.
      { rewrite Hfk2, Hfk, length_app. simpl. lia. }
      eexists. split; [done|]. split.
      + intros k. rewrite od_keys_update, elem_of_app, list_elem_of_singleton, Hkeys.
        tauto.
      + intros p Hin. rewrite od_get_update. case_decide as Hp'.
        * subst p. eexists. split; [done|]. split_and!; try done.
          intros i Hi. apply (sampled_at_frame w wq); try done.
          by apply Hcols.
        * apply elem_of_app in Hin as [Hin|Hin]; [by apply Hsp|].
          apply list_elem_of_singleton in Hin. congruence. }
  destruct HQ as (_ & _ & _ & Hfk & m & Hm & Hkeys & Hsp).
  split; [done|]. exists m. by split_and!.
Qed.

End SplineMap.


(** ** createEESplines with a kinematics library that returns *)

Section Returns.
Context {Sc : Scalar} {NP : Numpy} {Pin : Pinocchio}.

Lemma m_foldl_returns {A B} (I : B → World → Prop) (body : B → A → M B) l :
  ∀ b w,
  I b w →
  (∀ a b w, a ∈ l → I b w → ∃ b' w', body b a w = (Ok b', w') ∧ I b' w') →
  ∃ b' w', m_foldl body b l w = (Ok b', w') ∧ I b' w'.
Proof.
  induction l as [|a l IH]; intros b w HI Hstep.
  - by exists b, w.
  - destruct (Hstep a b w) as (b1 & w1 & Ha & HI1); [by left|done|].
    destruct (IH b1 w1 HI1) as (b' & w' & H & HI').
    { intros a' b2 w2 Hin. apply Hstep. by right. }
    exists b', w'. split; [|done]. simpl. by rewrite m_bind_run, Ha.
Qed.

Lemma m_for_returns {A} (I : World → Prop) (body : A → M ()) l : ∀ w,
  I w →
  (∀ a w, a ∈ l → I w → ∃ w', body a w = (Ok (), w') ∧ I w') →
  ∃ w', m_for l body w = (Ok (), w') ∧ I w'.
Proof.
  induction l as [|a l IH]; intros w HI Hstep.
  - by exists w.
  - destruct (Hstep a w) as (w1 & Ha & HI1); [by left|done|].
    destruct (IH w1 HI1) as (w' & H & HI').
    { intros a' w2 Hin. apply Hstep. by right. }
    exists w'. split; [|done]. simpl. by rewrite m_bind_run, Ha.
Qed.

Lemma np_setcol_returns n c (dst : Array2) i src :
  has_shape n c dst → 0 < n → i < c → length src = n →
  ∃ dst', np_setcol dst i src = Ok dst'.
Proof.
  intros Hs Hn Hi Hsrc. unfold np_setcol.
  rewrite (np_width_shape n c) by done. rewrite decide_True by done.
  destruct Hs as [Hlen _]. rewrite Hlen, broadcast1_same by done. simpl. eauto.
Qed.

(** One iteration of the loop over the samples returns. *)
Lemma ee_sample_step_returns abscissa patch N pm i w :
  kinematics_returns (rmodel w) →
  patch ∈ od_keys (ee_map (self w)) → i < length (xs w) → i < N →
  has_shape 3 N pm.1 → has_shape 3 N pm.2 →
  ∃ pm' w', ee_sample_step abscissa patch pm i w = (Ok pm', w') ∧
    rmodel w' = rmodel w ∧ xs w' = xs w ∧ ee_map (self w') = ee_map (self w) ∧
    has_shape 3 N pm'.1 ∧ has_shape 3 N pm'.2.
Proof.
  intros (Hfk & Hup & Hvel) Hpatch Hi HiN Hp Hm.
  apply od_get_Ok_keys in Hpatch as [frame Hframe].
  apply lookup_lt_is_Some in Hi as [x_i Hx].
  unfold ee_sample_step. rewrite !m_bind_run.
  unfold py_index. rewrite Hx. rewrite !m_bind_run. unfold m_gets.
  rewrite !m_bind_run. unfold call_forwardKinematics. simpl.
  rewrite Hfk. rewrite !m_bind_run. simpl. rewrite Hframe. rewrite !m_bind_run.
  unfold call_updateFramePlacement. simpl.
  destruct (Hup (forwardKinematics (rmodel w) (rdata w)
                   (a2m (take (model_nq (rmodel w)) x_i))
                   (a2m (py_suffix (model_nv (rmodel w)) x_i))).2
              (getFrameId (rmodel w) frame)) as (tr & Htr & Hlen).
  rewrite Htr. rewrite !m_bind_run. unfold m_lift.
  destruct (np_setcol_returns 3 N pm.1 i (m2a tr)) as [p' Hp']; [done|lia|done|done|].
  rewrite Hp'. rewrite !m_bind_run. simpl. rewrite Hframe. rewrite !m_bind_run.
  unfold call_getFrameVelocity. simpl.
  match goal with
  | |- context [getFrameVelocity ?m ?d ?id] =>
      destruct (Hvel d id) as (lin & Hlin & Hlen')
  end.
  rewrite Hlin. rewrite !m_bind_run.
  destruct (np_setcol_returns 3 N pm.2 i (m2a lin)) as [m' Hm']; [done|lia|done|done|].
  rewrite Hm'. rewrite !m_bind_run.
  unfold ee_splines_update, m_modify, m_ret. rewrite ?m_bind_run.
  eexists _, _. split; [reflexivity|]. simpl.
  destruct (np_setcol_Ok _ _ _ _ _ _ Hp' Hp) as (? & _).
  destruct (np_setcol_Ok _ _ _ _ _ _ Hm' Hm) as (? & _).
  by split_and!.
Qed.

Lemma createEESplines_returns t_sampling w :
  kinematics_returns (rmodel w) → ∃ w', createEESplines t_sampling w = (Ok (), w').
Proof.
  intros Hkin. unfold createEESplines. rewrite !m_bind_run. unfold m_gets, m_modify.
  rewrite !m_bind_run. simpl.
  set (N := length (xs w)). set (w1 := with_self _ w).
  pose (I := λ wq : World,
    rmodel wq = rmodel w ∧ xs wq = xs w ∧ ee_map (self wq) = ee_map (self w)).
  destruct (m_for_returns I
    (λ patch, _ <-- m_foldl (ee_sample_step (a2m (np_linspace t_sampling N)) patch)
                     (np_zeros 3 N, np_zeros 3 N) (py_range 0 N);; m_ret ())
    (od_keys (ee_map (self w))) w1) as (w' & H & _).
  - done.
  - intros patch wq Hpatch (Hmodel & Hxs & Hmap).
    pose (J := λ (pm : Array2 * Array2) (wj : World),
      I wj ∧ has_shape 3 N pm.1 ∧ has_shape 3 N pm.2).
    destruct (m_foldl_returns J
      (ee_sample_step (a2m (np_linspace t_sampling N)) patch)
      (py_range 0 N) (np_zeros 3 N, np_zeros 3 N) wq) as (pm & wj & Hloop & HJ & _).
    + unfold J, I. split_and!; try done; apply np_zeros_shape.
    + intros i pm wj Hi ((Hmodel' & Hxs' & Hmap') & Hp & Hm).
      unfold py_range in Hi. apply elem_of_seq in Hi.
      destruct (ee_sample_step_returns (a2m (np_linspace t_sampling N)) patch N pm i wj)
        as (pm' & wj' & Hstep & ? & ? & ? & ? & ?); try done.
      * by rewrite Hmodel'.
      * by rewrite Hmap'.
      * rewrite Hxs'. fold N. lia.
      * lia.
      * exists pm', wj'. split; [done|]. unfold J, I. split_and!; congruence.
    + exists wj. split; [|done]. rewrite m_bind_run, Hloop. done.
  - by exists w'.
Qed.

End Returns.

(** ** The spline map after createEESplines, returned or raised *)

Section StaleEntries.
Context {Sc : Scalar} {NP : Numpy} {Pin : Pinocchio}.

(** The sampling of one robot state does not touch the wrapper. *)
Lemma ee_sample_step_once_self patch pm i w :
  self (ee_sample_step_once patch pm i w).2 = self w.
Proof.
  pose (R := λ w1 w2 : World, self w2 = self w1).
  assert (HR : PreOrder R).
  { split; [by intros ?|]. intros ? ? ? H1 H2. unfold R in *. congruence. }
  assert (H : m_keeps R (ee_sample_step_once patch pm i)); [|apply H].
  unfold ee_sample_step_once, call_forwardKinematics, call_updateFramePlacement,
    call_getFrameVelocity.
  repeat first
    [ apply (m_keeps_bind R); [|intros ?]
    | apply (m_keeps_gets R)
    | apply (m_keeps_lift R)
    | apply (m_keeps_ret R)
    | apply (m_keeps_read R)
    | intros ?; reflexivity ].
Qed.

(** The end-effector map is [E] and the spline map holds entries for
    patches of [E] only. *)
Lemma createEESplines_splines_of_map t_sampling w :
  splines_of_map w (createEESplines t_sampling w).2.
Proof.
  pose (I := λ wq : World,
    ee_map (self wq) = ee_map (self w) ∧
    ∃ m, ee_splines (self wq) = Some m ∧
         ∀ k, k ∈ od_keys m → k ∈ od_keys (ee_map (self w))).
  pose (R := λ w1 w2 : World, I w1 → I w2).
  assert (HR : PreOrder R).
  { split; [by intros ? ?|]. intros ? ? ? H1 H2 ?. by apply H2, H1. }
  assert (Hstep : ∀ abscissa patch pm i,
            m_keeps R (ee_sample_step abscissa patch pm i)).
  { intros abscissa patch pm i w0. rewrite ee_sample_step_split.
    rewrite m_bind_run.
    destruct (ee_sample_step_once patch pm i w0) as [[pm'|e] w1] eqn:Honce.
    - apply ee_sample_step_once_Ok in Honce
        as (x_i & frame & d1 & tr & lin & _ & Hframe & _ & _ & _ & _ & _ & Hw1).
      rewrite m_bind_run. unfold ee_splines_update, m_modify, m_ret. simpl.
      intros (Hmap & m & Hm & Hkeys). unfold I. rewrite Hw1. simpl.
      split; [done|]. rewrite Hm. eexists. split; [done|].
      intros k Hk. apply od_keys_update in Hk as [->|Hk]; [|by apply Hkeys].
      rewrite <- Hmap. apply od_get_Ok_keys. by eexists.
    - simpl. intros HI. revert HI. unfold I.
      pose proof (ee_sample_step_once_self patch pm i w0) as Hself.
      rewrite Honce in Hself. simpl in Hself.
      by rewrite Hself. }
  assert (Hrun : R (with_self (set_ee_splines (Some [])) w)
                   (createEESplines t_sampling w).2).
  { unfold createEESplines. rewrite !m_bind_run. unfold m_gets, m_modify.
    rewrite !m_bind_run.
    apply (m_keeps_for R). intros patch.
    apply (m_keeps_bind R); [|intros; by apply (m_keeps_ret R)].
    apply (m_keeps_foldl R). intros; apply Hstep. }
  destruct Hrun as (_ & m & Hm & Hkeys).
  - unfold I. simpl. split; [done|]. exists []. split; [done|].
    intros k Hk. by apply elem_of_nil in Hk.
  - by exists m.
Qed.

End StaleEntries.


(** ** createCentroidalPhi and the last interval *)

Section LastInterval.
Context {Sc : Scalar} {NP : Numpy} {Pin : Pinocchio}.

Lemma centroidal_samples_but_last c c' patch_names mass :
  py_but_last (ms_interval_data c) = py_but_last (ms_interval_data c') →
  centroidal_samples c patch_names mass = centroidal_samples c' patch_names mass.
Proof. intros H. unfold centroidal_samples, timeline. by rewrite H. Qed.

Lemma m_for_with_cs {A} (body : A → M ()) (l : list A) :
  (∀ a c w, body a (with_cs c w) = ((body a w).1, with_cs c (body a w).2)) →
  ∀ c w, m_for l body (with_cs c w) = ((m_for l body w).1, with_cs c (m_for l body w).2).
Proof.
  intros Hbody c. induction l as [|a l IH]; intros w; [done|].
  simpl. rewrite !m_bind_run, Hbody.
  destruct (body a w) as [[[]|e] w1]; simpl; [apply IH | done].
Qed.

Lemma assign_phi_c_with_cs patch_names s c w :
  assign_phi_c patch_names s (with_cs c w)
  = ((assign_phi_c patch_names s w).1, with_cs c (assign_phi_c patch_names s w).2).
Proof.
  unfold assign_phi_c. rewrite !m_bind_run.
  unfold phi_c_set_com_vcom, phi_c_set_hg, m_modify. rewrite !m_bind_run.
  match goal with
  | |- m_for _ _ ?w1 = ((m_for _ _ ?w2).1, _) =>
      change w1 with (with_cs c w2)
  end.
  apply m_for_with_cs. clear. intros patch c w.
  rewrite !m_bind_run. unfold m_lift.
  destruct (od_get _ patch) as [a|e]; [|done].
  rewrite !m_bind_run. destruct (od_get _ patch) as [b|e]; done.
Qed.

Lemma createCentroidalPhi_with_cs c w :
  py_but_last (ms_interval_data c) = py_but_last (ms_interval_data (cs (self w))) →
  createCentroidalPhi (with_cs c w)
  = ((createCentroidalPhi w).1, with_cs c (createCentroidalPhi w).2).
Proof.
  intros H. rewrite !createCentroidalPhi_stages. simpl.
  destruct (crba _ _ _) as [[inertia|e] d]; simpl; [|done].
  destruct (np_item00 inertia) as [mass|e]; simpl; [|done].
  rewrite (centroidal_samples_but_last c (cs (self w))) by done.
  destruct (centroidal_samples _ _ mass) as [s|e]; [|done].
  apply (assign_phi_c_with_cs _ s c (with_rdata d w)).
Qed.

End LastInterval.

(** ** The rows of the sample arrays, all of them *)

Section AllRows.
Context {Sc : Scalar} {NP : Numpy}.

Lemma concat_lookup_Some {A} (ls : list (list A)) : ∀ i y,
  concat ls !! i = Some y →
  ∃ k l j, ls !! k = Some l ∧ l !! j = Some y ∧ i = length (concat (take k ls)) + j.
Proof.
  induction ls as [|l ls IH]; intros i y H; [done|].
  simpl in H. apply lookup_app_Some in H as [H|[Hi H]].
  - exists 0, l, i. by split_and!.
  - destruct (IH _ _ H) as (k & l' & j & Hk & Hj & Hij).
    exists (S k), l', j. split_and!; try done.
    simpl. rewrite length_app, <- Nat.add_assoc, <- Hij.
    symmetry. rewrite Nat.add_comm. by apply Nat.sub_add.
Qed.

Lemma concat_length_Forall {A B C} (f : A → list B) (g : A → list C) (l : list A) :
  Forall (λ a, length (f a) = length (g a)) l →
  length (concat (f <$> l)) = length (concat (g <$> l)).
Proof.
  induction 1 as [|a l Ha _ IH]; [done|].
  csimpl. rewrite !length_app. lia.
Qed.

(** A row index of the sample arrays is the row of one sample of one
    interval. *)
Lemma timeline_row (segments : list MsInterval) i :
  i < length (concat (time_trajectory <$> segments)) →
  ∃ k spl j t, segments !! k = Some spl ∧ time_trajectory spl !! j = Some t ∧
               i = segment_offset segments k + j.
Proof.
  intros Hi. apply lookup_lt_is_Some in Hi as [t Ht].
  apply concat_lookup_Some in Ht as (k & l & j & Hk & Hj & ->).
  apply list_lookup_fmap_Some in Hk as (spl & -> & Hk).
  exists k, spl, j, t. split_and!; try done.
  unfold segment_offset. by rewrite fmap_take.
Qed.

(** The arrays [com_vcom] and [vcom_acom] are, row for row, the first six
    columns of the state and state-derivative samples of the intervals. *)
Lemma centroidal_samples_com cs patch_names mass s :
  centroidal_samples cs patch_names mass = Ok s →
  matching_rows (py_but_last (ms_interval_data cs)) →
  PhiC.com_vcom (phi_c_ s)
  = concat ((λ spl, np_cols 0 6 (m2a (state_trajectory spl)))
            <$> py_but_last (ms_interval_data cs)) ∧
  PhiC.vcom_acom (phi_c_ s)
  = concat ((λ spl, np_cols 0 6 (m2a (dot_state_trajectory spl)))
            <$> py_but_last (ms_interval_data cs)).
Proof.
  intros H Hmatch.
  pose proof (centroidal_samples_shape _ _ _ _ H) as [(Hc & Hv & _) _].
  pose proof (centroidal_samples_rows _ _ _ _ H Hmatch) as Hrows.
  apply centroidal_samples_Ok in H as (_ & Hraw & _).
  rewrite Hraw, timeline_concat in Hc, Hv.
  set (segs := py_but_last (ms_interval_data cs)) in *.
  assert (Hoff : ∀ (f : MsInterval → Array2) k,
            (∀ spl, length (f spl) = length (state_trajectory spl) ∨
                    length (f spl) = length (dot_state_trajectory spl)) →
            length (concat (take k (f <$> segs))) = segment_offset segs k).
  { intros f k Hf. unfold segment_offset. rewrite <- fmap_take.
    apply concat_length_Forall. apply Forall_take.
    eapply Forall_impl; [exact Hmatch|]. intros spl (? & ? & _).
    destruct (Hf spl); congruence. }
  unfold m2a. split.
  - apply (list_eq_same_length _ _ (length (concat (time_trajectory <$> segs)))).
    + apply concat_length_Forall. eapply Forall_impl; [exact Hmatch|].
      intros spl (? & _). unfold np_cols. by rewrite length_fmap.
    + apply Hc.
    + intros i x y _ Hx Hy.
      apply concat_lookup_Some in Hy as (k & l & j & Hk & Hj & ->).
      apply list_lookup_fmap_Some in Hk as (spl & -> & Hk).
      rewrite np_cols_lookup in Hj.
      destruct (state_trajectory spl !! j) as [xr|] eqn:Hxr; [|done].
      injection Hj as <-.
      rewrite Hoff in Hx
        by (intros; left; unfold np_cols; by rewrite length_fmap).
      destruct (Hrows k spl Hk) as [[Hst _] _].
      destruct (Hst j xr Hxr) as (_ & Hcom & _). congruence.
  - apply (list_eq_same_length _ _ (length (concat (time_trajectory <$> segs)))).
    + apply concat_length_Forall. eapply Forall_impl; [exact Hmatch|].
      intros spl (_ & ? & _). unfold np_cols. by rewrite length_fmap.
    + apply Hv.
    + intros i x y _ Hx Hy.
      apply concat_lookup_Some in Hy as (k & l & j & Hk & Hj & ->).
      apply list_lookup_fmap_Some in Hk as (spl & -> & Hk).
      rewrite np_cols_lookup in Hj.
      destruct (dot_state_trajectory spl !! j) as [xr|] eqn:Hxr; [|done].
      injection Hj as <-.
      rewrite Hoff in Hx
        by (intros; right; unfold np_cols; by rewrite length_fmap).
      destruct (Hrows k spl Hk) as [[_ Hst] _].
      destruct (Hst j xr Hxr) as (_ & Hcom & _). congruence.
Qed.

End AllRows.


(** ** The force arrays of one patch *)

Section OnePatch.
Context {Sc : Scalar} {NP : Numpy}.

(** The force array and the force-rate array of a patch, before the
    deduplication, depend neither on the other patches nor on the mass. *)
Lemma force_arrays_independent cs names1 names2 mass1 mass2 s1 s2 patch :
  centroidal_samples cs names1 mass1 = Ok s1 →
  centroidal_samples cs names2 mass2 = Ok s2 →
  matching_rows (py_but_last (ms_interval_data cs)) →
  patch ∈ names1 → patch ∈ names2 →
  od_get (PhiC.f (phi_c_ s1)) patch = od_get (PhiC.f (phi_c_ s2)) patch ∧
  od_get (PhiC.df (phi_c_ s1)) patch = od_get (PhiC.df (phi_c_ s2)) patch.
Proof.
  intros H1 H2 Hmatch Hin1 Hin2.
  pose proof (centroidal_samples_shape _ _ _ _ H1) as [(_ & _ & _ & _ & Hf1 & Hd1) Hk1].
  pose proof (centroidal_samples_shape _ _ _ _ H2) as [(_ & _ & _ & _ & Hf2 & Hd2) Hk2].
  pose proof (centroidal_samples_rows _ _ _ _ H1 Hmatch) as Hrows1.
  pose proof (centroidal_samples_rows _ _ _ _ H2 Hmatch) as Hrows2.
  apply centroidal_samples_Ok in H1 as (_ & Hraw1 & _).
  apply centroidal_samples_Ok in H2 as (_ & Hraw2 & _).
  rewrite Hraw1, timeline_concat in Hf1, Hd1.
  rewrite Hraw2, timeline_concat in Hf2, Hd2.
  set (segs := py_but_last (ms_interval_data cs)) in *.
  destruct (Hk1 patch Hin1) as [Hkf1 Hkd1]. destruct (Hk2 patch Hin2) as [Hkf2 Hkd2].
  apply od_get_Ok_keys in Hkf1 as [a1 Ha1]. apply od_get_Ok_keys in Hkd1 as [b1 Hb1].
  apply od_get_Ok_keys in Hkf2 as [a2 Ha2]. apply od_get_Ok_keys in Hkd2 as [b2 Hb2].
  rewrite Ha1, Ha2, Hb1, Hb2.
  destruct (Hf1 _ _ Ha1) as [La1 _]. destruct (Hf2 _ _ Ha2) as [La2 _].
  destruct (Hd1 _ _ Hb1) as [Lb1 _]. destruct (Hd2 _ _ Hb2) as [Lb2 _].
  split; f_equal.
  - apply (list_eq_same_length _ _ _ La2 La1).
    intros i x y Hi Hx Hy.
    apply timeline_row in Hi as (k & spl & j & t & Hk & Hj & ->).
    destruct (Hrows1 k spl Hk) as [_ (p1 & Hp1 & Hpatch1)].
    destruct (Hrows2 k spl Hk) as [_ (p2 & Hp2 & Hpatch2)].
    assert (p2 = p1) as -> by congruence.
    destruct (Hpatch1 patch Hin1) as [(r1 & c1 & Hr1 & Hc1 & Hrow1) _].
    destruct (Hpatch2 patch Hin2) as [(r2 & c2 & Hr2 & Hc2 & Hrow2) _].
    assert (r2 = r1) as -> by congruence.
    assert (c1 = a1) as -> by congruence. assert (c2 = a2) as -> by congruence.
    destruct (Hrow1 j t Hj) as (row1 & ? & ?). destruct (Hrow2 j t Hj) as (row2 & ? & ?).
    congruence.
  - apply (list_eq_same_length _ _ _ Lb2 Lb1).
    intros i x y Hi Hx Hy.
    apply timeline_row in Hi as (k & spl & j & t & Hk & Hj & ->).
    destruct (Hrows1 k spl Hk) as [_ (p1 & Hp1 & Hpatch1)].
    destruct (Hrows2 k spl Hk) as [_ (p2 & Hp2 & Hpatch2)].
    assert (p2 = p1) as -> by congruence.
    destruct (Hpatch1 patch Hin1) as [_ (r1 & c1 & Hr1 & Hc1 & Hrow1)].
    destruct (Hpatch2 patch Hin2) as [_ (r2 & c2 & Hr2 & Hc2 & Hrow2)].
    assert (r2 = r1) as -> by congruence.
    assert (c1 = b1) as -> by congruence. assert (c2 = b2) as -> by congruence.
    destruct (Hrow1 j t Hj) as (row1 & ? & ?). destruct (Hrow2 j t Hj) as (row2 & ? & ?).
    congruence.
Qed.

(** The same after the deduplication. *)
Lemma force_arrays_independent_2 cs names1 names2 mass1 mass2 s1 s2 patch :
  centroidal_samples cs names1 mass1 = Ok s1 →
  centroidal_samples cs names2 mass2 = Ok s2 →
  matching_rows (py_but_last (ms_interval_data cs)) →
  patch ∈ names1 → patch ∈ names2 →
  t_traj s1 = t_traj s2 ∧
  od_get (PhiC.f (phi_c_2 s1)) patch = od_get (PhiC.f (phi_c_2 s2)) patch ∧
  od_get (PhiC.df (phi_c_2 s1)) patch = od_get (PhiC.df (phi_c_2 s2)) patch.
Proof.
  intros H1 H2 Hmatch Hin1 Hin2.
  destruct (force_arrays_independent _ _ _ _ _ _ _ _ H1 H2 Hmatch Hin1 Hin2) as [Hf Hd].
  pose proof (centroidal_samples_removed _ _ _ _ H1) as (_ & _ & _ & _ & Hr1).
  pose proof (centroidal_samples_removed _ _ _ _ H2) as (_ & _ & _ & _ & Hr2).
  apply centroidal_samples_Ok in H1 as (_ & Hraw1 & _ & Ht1 & _).
  apply centroidal_samples_Ok in H2 as (_ & Hraw2 & _ & Ht2 & _).
  destruct (Hr1 patch Hin1) as (a1 & a1' & b1 & b1' & Ha1 & Ha1' & Hb1 & Hb1' & [_ ->] & [_ ->]).
  destruct (Hr2 patch Hin2) as (a2 & a2' & b2 & b2' & Ha2 & Ha2' & Hb2 & Hb2' & [_ ->] & [_ ->]).
  rewrite Ha1' , Ha2', Hb1', Hb2', Ht1, Ht2, Hraw1, Hraw2.
  rewrite Ha1, Ha2 in Hf. rewrite Hb1, Hb2 in Hd.
  injection Hf as ->. injection Hd as ->. done.
Qed.

End OnePatch.

(** ** State samples with fewer than six columns *)

Section NarrowState.
Context {Sc : Scalar} {NP : Numpy}.

Lemma exc_mapM_Raise {A B} (k : A → Exc B) l e :
  exc_mapM k l = Raise e → ∃ a, a ∈ l ∧ k a = Raise e.
Proof.
  induction l as [|a l IH]; [done|]. simpl.
  destruct (k a) as [b|e'] eqn:Ha; simpl.
  - destruct (exc_mapM k l) as [bs|e'] eqn:Hl; simpl; [done|].
    intros [= ->]. destruct IH as (a' & ? & ?); [done|]. exists a'. split; [by right|done].
  - intros [= ->]. exists a. split; [by left|done].
Qed.

Lemma broadcast1_Raise {A} n (l : list A) e : broadcast1 n l = Raise e → e = ValueError.
Proof.
  unfold broadcast1. case_decide; [done|]. destruct l as [|a [|b l]]; congruence.
Qed.

(** A slice assignment raises nothing but [ValueError]. *)
Lemma np_setitem_Raise (dst : Array2) r0 r1 c0 c1 src e :
  np_setitem dst r0 r1 c0 c1 src = Raise e → e = ValueError.
Proof.
  unfold np_setitem, broadcast_to. intros H.
  destruct (exc_mapM _ src) as [rows|e'] eqn:Hrows; simpl in H.
  - destruct (broadcast1 _ rows) as [blk|e'] eqn:Hblk; simpl in H; [done|].
    injection H as ->. by apply broadcast1_Raise in Hblk.
  - injection H as ->. apply exc_mapM_Raise in Hrows as (r & _ & Hr).
    by apply broadcast1_Raise in Hr.
Qed.

(** An interval with a state row, or a state-derivative row, of fewer than
    six columns makes the iteration raise [ValueError]. *)
Lemma segment_step_narrow mass patch_names t_traj st spl :
  (∃ r, r ∈ state_trajectory spl ∧ length r < 6) ∨
  (∃ r, r ∈ dot_state_trajectory spl ∧ length r < 6) →
  segment_step mass patch_names t_traj st spl = Raise ValueError.
Proof.
  intros Hnarrow. unfold segment_step, m2a.
  destruct (np_setitem (PhiC.com_vcom st.2) _ _ _ _ _) as [c|e] eqn:E1; simpl;
    [|by apply np_setitem_Raise in E1 as ->].
  destruct (np_setitem (PhiC.vcom_acom st.2) _ _ _ _ _) as [v|e] eqn:E2; simpl;
    [|by apply np_setitem_Raise in E2 as ->].
  destruct (np_setitem (PhiC.hg st.2) _ _ _ _ _) as [h|e] eqn:E3; simpl;
    [|by apply np_setitem_Raise in E3 as ->].
  destruct (np_setitem (PhiC.dhg st.2) _ _ _ _ _) as [dh|e] eqn:E4; simpl;
    [|by apply np_setitem_Raise in E4 as ->].
  destruct (np_setitem h _ _ _ _ _) as [h'|e] eqn:E5; simpl;
    [|by apply np_setitem_Raise in E5 as ->].
  destruct (np_setitem dh _ _ _ _ _) as [dh'|e] eqn:E6; simpl;
    [|by apply np_setitem_Raise in E6 as ->].
  exfalso.
  apply np_setitem_Ok_widths in E1, E2, E5, E6.
  pose proof (state_widths _ _ E1 E5) as Hx.
  pose proof (state_widths _ _ E2 E6) as Hdx.
  rewrite Forall_forall in Hx, Hdx.
  destruct Hnarrow as [(r & Hr & Hlen)|(r & Hr & Hlen)].
  - specialize (Hx r Hr). lia.
  - specialize (Hdx r Hr). lia.
Qed.

End NarrowState.


(** ** Where an exception of createEESplines comes from *)

Section RaiseOrigin.
Context {Sc : Scalar} {NP : Numpy} {Pin : Pinocchio}.

Lemma m_foldl_Raise_inv {A B} (I : B → World → Prop) (body : B → A → M B) l :
  ∀ b w e w',
  I b w →
  (∀ a b w b' w', a ∈ l → I b w → body b a w = (Ok b', w') → I b' w') →
  m_foldl body b l w = (Raise e, w') →
  ∃ a b1 w1, a ∈ l ∧ I b1 w1 ∧ body b1 a w1 = (Raise e, w').
Proof.
  induction l as [|a l IH]; intros b w e w' HI Hstep H; [done|].
  simpl in H. rewrite m_bind_run in H.
  destruct (body b a w) as [[b1|e1] w1] eqn:Ha.
  - destruct (IH b1 w1 e w') as (a' & b2 & w2 & Hin & HI2 & Hb); [| |done|].
    + apply (Hstep a b w); [by left|done..].
    + intros a' b2 w2 b3 w3 Hin. apply Hstep. by right.
    + exists a', b2, w2. split; [by right|done].
  - injection H as <- <-. exists a, b, w. split; [by left|done].
Qed.

Lemma m_for_Raise_inv {A} (I : World → Prop) (body : A → M ()) l : ∀ w e w',
  I w →
  (∀ a w w', a ∈ l → I w → body a w = (Ok (), w') → I w') →
  m_for l body w = (Raise e, w') →
  ∃ a w1, a ∈ l ∧ I w1 ∧ body a w1 = (Raise e, w').
Proof.
  induction l as [|a l IH]; intros w e w' HI Hstep H; [done|].
  simpl in H. rewrite m_bind_run in H.
  destruct (body a w) as [[[]|e1] w1] eqn:Ha.
  - destruct (IH w1 e w') as (a' & w2 & Hin & HI2 & Hb); [| |done|].
    + apply (Hstep a w); [by left|done..].
    + intros a' w2 w3 Hin. apply Hstep. by right.
    + exists a', w2. split; [by right|done].
  - injection H as <- <-. exists a, w. split; [by left|done].
Qed.

Lemma sampling_inputs_preorder : PreOrder sampling_inputs.
Proof.
  split.
  - by intros w.
  - intros w1 w2 w3 (? & ? & ?) (? & ? & ?). unfold sampling_inputs. split_and!; congruence.
Qed.

Lemma ee_sample_step_inputs abscissa patch pm i :
  m_keeps sampling_inputs (ee_sample_step abscissa patch pm i).
Proof.
  pose proof sampling_inputs_preorder as HR.
  unfold ee_sample_step, ee_splines_update, call_forwardKinematics,
    call_updateFramePlacement, call_getFrameVelocity.
  repeat first
    [ apply (m_keeps_bind sampling_inputs); [|intros ?]
    | apply (m_keeps_gets sampling_inputs)
    | apply (m_keeps_lift sampling_inputs)
    | apply (m_keeps_ret sampling_inputs)
    | apply (m_keeps_read sampling_inputs)
    | apply (m_keeps_modify sampling_inputs); intros ?; by repeat split
    | intros ?; by repeat split ].
Qed.

Lemma ee_sample_step_shape abscissa patch N pm i w pm' w' :
  ee_sample_step abscissa patch pm i w = (Ok pm', w') →
  has_shape 3 N pm.1 → has_shape 3 N pm.2 →
  has_shape 3 N pm'.1 ∧ has_shape 3 N pm'.2.
Proof.
  rewrite ee_sample_step_split. intros H Hp Hm.
  apply m_bind_Ok in H as (pm1 & w1 & Honce & H).
  apply m_bind_Ok in H as ([] & w2 & _ & H). injection H as <- _.
  apply ee_sample_step_once_Ok in Honce
    as (x_i & frame & d1 & tr & lin & _ & _ & _ & _ & _ & Hsp & Hsm & _).
  destruct (np_setcol_Ok _ _ _ _ _ _ Hsp Hp) as [? _].
  destruct (np_setcol_Ok _ _ _ _ _ _ Hsm Hm) as [? _]. done.
Qed.

Lemma np_setcol_Raise n c (dst : Array2) i src e :
  has_shape n c dst → 0 < n → i < c →
  np_setcol dst i src = Raise e →
  e = ValueError ∧ length src ≠ n ∧ length src ≠ 1.
Proof.
  intros Hs Hn Hi. unfold np_setcol.
  rewrite (np_width_shape n c) by done. rewrite decide_True by done.
  destruct Hs as [-> _]. unfold broadcast1. case_decide as Hlen; [done|].
  destruct src as [|a [|b src]]; simpl; [|done|]; intros [= <-]; simpl in *;
    split_and!; try done; lia.
Qed.

(** An iteration of the loop over the samples raises only what the
    kinematics library makes it raise. *)
Lemma ee_sample_step_Raise abscissa patch N pm i w e w' :
  ee_sample_step abscissa patch pm i w = (Raise e, w') →
  patch ∈ od_keys (ee_map (self w)) → i < length (xs w) → i < N →
  has_shape 3 N pm.1 → has_shape 3 N pm.2 →
  kinematics_fault (rmodel w) e.
Proof.
  intros H Hpatch Hi HiN Hp Hm.
  apply od_get_Ok_keys in Hpatch as [frame Hframe].
  apply lookup_lt_is_Some in Hi as [x_i Hx].
  unfold ee_sample_step in H. rewrite !m_bind_run in H.
  unfold py_index in H. rewrite Hx in H. rewrite !m_bind_run in H.
  unfold m_gets in H. rewrite !m_bind_run in H.
  unfold call_forwardKinematics in H. simpl in H.
  destruct (forwardKinematics _ _ _ _) as [[[]|e1] d1] eqn:Hfk; simpl in H.
  2: { injection H as <- _. left. eexists _, _, _. by rewrite Hfk. }
  rewrite !m_bind_run in H. simpl in H. rewrite Hframe in H.
  rewrite !m_bind_run in H. unfold call_updateFramePlacement in H. simpl in H.
  destruct (updateFramePlacement _ _ _) as [[tr|e1] d2] eqn:Hup; simpl in H.
  2: { injection H as <- _. right. left. eexists _, _. by rewrite Hup. }
  rewrite !m_bind_run in H. unfold m_lift in H.
  destruct (np_setcol pm.1 i (m2a tr)) as [p'|e1] eqn:Hsp.
  2: { injection H as <- _.
       apply (np_setcol_Raise 3 N) in Hsp as (-> & ? & ?); [|done|lia|done].
       right. right. right. split; [done|]. left.
       eexists _, _, tr. rewrite Hup. done. }
  rewrite !m_bind_run in H. simpl in H. rewrite Hframe in H.
  rewrite !m_bind_run in H. unfold call_getFrameVelocity in H. simpl in H.
  destruct (getFrameVelocity _ _ _) as [lin|e1] eqn:Hvel.
  2: { injection H as <- _. right. right. left. eexists _, _. exact Hvel. }
  rewrite !m_bind_run in H.
  destruct (np_setcol pm.2 i (m2a lin)) as [m'|e1] eqn:Hsm.
  2: { injection H as <- _.
       apply (np_setcol_Raise 3 N) in Hsm as (-> & ? & ?); [|done|lia|done].
       right. right. right. split; [done|]. right.
       eexists _, _, lin. rewrite Hvel. done. }
  rewrite !m_bind_run in H. unfold ee_splines_update, m_modify in H.
  rewrite ?m_bind_run in H. discriminate.
Qed.

Lemma createEESplines_Raise t_sampling w e w' :
  createEESplines t_sampling w = (Raise e, w') → kinematics_fault (rmodel w) e.
Proof.
  pose proof sampling_inputs_preorder as HR.
  unfold createEESplines. rewrite !m_bind_run. unfold m_gets, m_modify.
  rewrite !m_bind_run. simpl.
  set (N := length (xs w)). intros H.
  apply (m_for_Raise_inv (sampling_inputs w)) in H
    as (patch & w1 & Hpatch & (Hmodel & Hxs & Hmap) & H).
  - rewrite m_bind_run in H.
    destruct (m_foldl _ _ _ w1) as [[pm|e1] w2] eqn:Hloop; [done|].
    injection H as <- <-.
    apply (m_foldl_Raise_inv (λ pm wj,
             sampling_inputs w wj ∧ has_shape 3 N pm.1 ∧ has_shape 3 N pm.2)) in Hloop
      as (i & pm & wj & Hi & ((Hmodel' & Hxs' & Hmap') & Hp & Hm) & Hstep).
    + unfold py_range in Hi. apply elem_of_seq in Hi.
      rewrite <- Hmodel'.
      apply (ee_sample_step_Raise _ _ N _ _ _ _ _ Hstep); try done.
      * by rewrite Hmap'.
      * rewrite Hxs'. fold N. lia.
      * lia.
    + split_and!; try done; apply np_zeros_shape.
    + intros i pm wj pm' wj' _ (Hin & Hp & Hm) Hstep. split.
      * pose proof (ee_sample_step_inputs (a2m (np_linspace t_sampling N))
                      patch pm i wj) as Hk.
        rewrite Hstep in Hk. simpl in Hk. by transitivity wj.
      * by apply (ee_sample_step_shape _ _ N) in Hstep.
  - done.
  - intros patch w1 w2 _ Hin Hbody.
    assert (Hk : m_keeps sampling_inputs
              (_ <-- m_foldl (ee_sample_step (a2m (np_linspace t_sampling N)) patch)
                      (np_zeros 3 N, np_zeros 3 N) (py_range 0 N);; m_ret ())).
    { apply (m_keeps_bind sampling_inputs); [|intros; by apply (m_keeps_ret sampling_inputs)].
      apply (m_keeps_foldl sampling_inputs). intros. apply ee_sample_step_inputs. }
    specialize (Hk w1). rewrite Hbody in Hk. simpl in Hk. by transitivity w1.
Qed.

End RaiseOrigin.


(** ** createCentroidalPhi on well-formed intervals *)

Section PhiReturns.
Context {Sc : Scalar} {NP : Numpy}.

Lemma exc_mapM_fmap {A B} (k : A → Exc B) (g : A → B) l :
  (∀ a, a ∈ l → k a = Ok (g a)) → exc_mapM k l = Ok (g <$> l).
Proof.
  induction l as [|a l IH]; intros H; [done|].
  simpl. rewrite H by (by left). simpl. rewrite IH; [done|].
  intros a' Hin. apply H. by right.
Qed.

Lemma np_setitem_returns N c (dst : Array2) r0 nt c0 c1 src :
  has_shape N c dst → r0 + nt ≤ N → has_shape nt (c1 - c0) src →
  ∃ dst', np_setitem dst r0 (r0 + nt) c0 c1 src = Ok dst'.
Proof.
  intros [Hn _] Hr Hsrc. unfold np_setitem.
  rewrite py_slice_length, Hn.
  replace ((r0 + nt - r0) `min` (N - r0)) with nt by lia.
  rewrite broadcast_to_exact by done. simpl. eauto.
Qed.

Lemma range_def_seq patch r :
  od_get range_def patch = Ok r → ∃ a, r = seq a 6 ∧ a + 6 ≤ 24.
Proof.
  unfold range_def. simpl.
  repeat (case_decide; [intros [= <-]; unfold py_range; simpl; eexists; split;
                        [reflexivity|lia]|]).
  discriminate.
Qed.

Lemma py_slice_middle {A} (l1 l2 l3 : list A) :
  py_slice (length l1) (length l1 + length l2) (l1 ++ l2 ++ l3) = l2.
Proof.
  unfold py_slice. rewrite drop_app_length.
  replace (length l1 + length l2 - length l1) with (length l2) by lia.
  by rewrite take_app_length.
Qed.

(** One of the two assignments of an iteration of the loop over the
    patches returns. *)
Lemma patch_half_returns N polys tt n d patch :
  patch ∈ od_keys range_def → 24 ≤ length polys → tt ≠ [] →
  n + length tt ≤ N →
  od_all (has_shape N 6) d → patch ∈ od_keys d →
  ∃ d', patch_half polys tt n (length tt) d patch = Ok d'.
Proof.
  intros Hknown Hpolys Htt Hn Hd Hkey.
  apply od_get_Ok_keys in Hknown as [r Hr].
  apply od_get_Ok_keys in Hkey as [a Ha].
  destruct (range_def_seq _ _ Hr) as (c & -> & Hc).
  unfold patch_half.
  rewrite (exc_mapM_fmap _ (λ t, (λ p, poly_eval p t) <$> take 6 (drop c polys))).
  2: { intros t _. rewrite Hr. apply (f_poly_seq polys t 6 c). lia. }
  simpl. rewrite Ha. simpl.
  destruct (np_setitem_returns N 6 a n (length tt) 0 6
              ((λ t, (λ p, poly_eval p t) <$> take 6 (drop c polys)) <$> tt))
    as [a' Ha']; [by apply (Hd patch)|done| |].
  { split; [by rewrite length_fmap|].
    apply Forall_fmap, Forall_forall. intros t _. simpl.
    rewrite length_fmap, length_take, length_drop. lia. }
  unfold set_patch_rows. destruct tt as [|t tt]; [done|].
  rewrite fmap_cons in *. rewrite Ha'. simpl. eauto.
Qed.

Lemma patch_loop_returns N polys tt n (names1 names : list string) : ∀ fdf,
  Forall (λ p, p ∈ od_keys range_def) names1 →
  (∀ p, p ∈ names1 → p ∈ names) →
  24 ≤ length polys.1 → 24 ≤ length polys.2 → tt ≠ [] → n + length tt ≤ N →
  od_all (has_shape N 6) fdf.1 → od_all (has_shape N 6) fdf.2 →
  (∀ p, p ∈ names → p ∈ od_keys fdf.1 ∧ p ∈ od_keys fdf.2) →
  ∃ fdf', exc_foldl (patch_step polys.1 polys.2 tt n (length tt)) fdf names1 = Ok fdf'.
Proof.
  induction names1 as [|patch names1 IH]; intros fdf Hknown Hsub H1 H2 Htt Hn Hf Hd Hkeys.
  - simpl. eauto.
  - apply Forall_cons in Hknown as [Hpatch Hknown].
    destruct (Hkeys patch) as [Hkf Hkd]; [apply Hsub; by left|].
    destruct (patch_half_returns N polys.1 tt n fdf.1 patch) as [f' Hf']; try done.
    destruct (patch_half_returns N polys.2 tt n fdf.2 patch) as [d' Hd']; try done.
    assert (Hstep : patch_step polys.1 polys.2 tt n (length tt) fdf patch = Ok (f', d')).
    { rewrite patch_step_halves, Hf'. simpl. by rewrite Hd'. }
    simpl. rewrite Hstep. simpl.
    destruct (patch_step_shape N names _ _ _ _ _ _ _ _ Hstep) as (? & ? & ?); [done|].
    apply IH; try done. intros p Hp. apply Hsub. by right.
Qed.

(** One iteration of the loop over the intervals returns. *)
Lemma segment_step_returns N mass names t_traj st spl :
  well_formed_interval spl →
  Forall (λ p, p ∈ od_keys range_def) names →
  phi_shape N names st.2 →
  st.1 + length (time_trajectory spl) ≤ N →
  py_slice st.1 (st.1 + length (time_trajectory spl)) t_traj = time_trajectory spl →
  ∃ st', segment_step mass names t_traj st spl = Ok st'.
Proof.
  intros (Htt & Hx & Hdx & Hu & Hxw & Hdxw & Huw & [polys Hfit]) Hknown
    [(Hc & Hv & Hh & Hdh & Hf & Hd) Hkeys] Hn Hslice.
  unfold segment_step, m2a in *. rewrite Hx, Hslice.
  assert (H66 : ∀ a : Array2, length a = length (time_trajectory spl) →
            Forall (λ r, 6 ≤ length r) a →
            has_shape (length (time_trajectory spl)) (6 - 0) (np_cols 0 6 a)).
  { intros a <- Ha. by apply np_cols_shape. }
  assert (H36 : ∀ a : Array2, length a = length (time_trajectory spl) →
            Forall (λ r, 6 ≤ length r) a →
            has_shape (length (time_trajectory spl)) (3 - 0)
                      (np_scale mass (np_cols 3 6 a))).
  { intros a <- Ha. apply np_scale_shape. by apply (np_cols_shape 3 6). }
  assert (H3 : ∀ a : Array2, length a = length (time_trajectory spl) →
            Forall (λ r, 6 ≤ length r) a →
            has_shape (length (time_trajectory spl)) (6 - 3) (np_last_cols 3 a)).
  { intros a <- Ha. apply np_last_cols_shape; [lia|].
    apply (Forall_weaken_le 3 6); [lia|done]. }
  destruct (np_setitem_returns N 6 _ st.1 _ 0 6 _ Hc Hn (H66 _ Hx Hxw)) as [c E1].
  rewrite E1. simpl.
  destruct (np_setitem_returns N 6 _ st.1 _ 0 6 _ Hv Hn (H66 _ Hdx Hdxw)) as [v E2].
  rewrite E2. simpl.
  destruct (np_setitem_returns N 6 _ st.1 _ 3 6 _ Hh Hn (H3 _ Hx Hxw)) as [h E3].
  rewrite E3. simpl.
  destruct (np_setitem_returns N 6 _ st.1 _ 3 6 _ Hdh Hn (H3 _ Hdx Hdxw)) as [dh E4].
  rewrite E4. simpl.
  assert (Hh' : has_shape N 6 h) by (apply (np_setitem_shape N 6) in E3; [done|lia|done]).
  assert (Hdh' : has_shape N 6 dh) by (apply (np_setitem_shape N 6) in E4; [done|lia|done]).
  destruct (np_setitem_returns N 6 _ st.1 _ 0 3 _ Hh' Hn (H36 _ Hx Hxw)) as [h2 E5].
  rewrite E5. simpl.
  destruct (np_setitem_returns N 6 _ st.1 _ 0 3 _ Hdh' Hn (H36 _ Hdx Hdxw)) as [dh2 E6].
  rewrite E6. simpl.
  rewrite Hfit. simpl.
  pose proof (polyfitND_Ok _ _ _ _ Hfit) as (Hlen & Hderiv & _).
  destruct (patch_loop_returns N polys (time_trajectory spl) st.1 names names
              (PhiC.f st.2, PhiC.df st.2)) as [fdf Hloop]; try done.
  - lia.
  - rewrite Hderiv, length_fmap. lia.
  - rewrite Hloop. simpl. eauto.
Qed.

Lemma fill_phi_returns mass names (rest : list MsInterval) : ∀ done st,
  Forall well_formed_interval rest →
  Forall (λ p, p ∈ od_keys range_def) names →
  phi_shape (length (concat (time_trajectory <$> done ++ rest))) names st.2 →
  st.1 = length (concat (time_trajectory <$> done)) →
  ∃ st', exc_foldl (segment_step mass names (concat (time_trajectory <$> done ++ rest)))
                   st rest = Ok st'.
Proof.
  induction rest as [|spl rest IH]; intros done st Hwf Hknown Hshape Hn.
  - simpl. eauto.
  - apply Forall_cons in Hwf as [Hspl Hwf].
    assert (Hcat : concat (time_trajectory <$> done ++ spl :: rest)
                   = concat (time_trajectory <$> done) ++ time_trajectory spl
                     ++ concat (time_trajectory <$> rest)).
    { by rewrite fmap_app, concat_app. }
    destruct (segment_step_returns
                (length (concat (time_trajectory <$> done ++ spl :: rest)))
                mass names (concat (time_trajectory <$> done ++ spl :: rest)) st spl)
      as [st' Hstep]; try done.
    + rewrite Hn, Hcat, !length_app. lia.
    + rewrite Hn, Hcat. apply py_slice_middle.
    + simpl. rewrite Hstep. simpl.
      assert (Hmid : done ++ spl :: rest = (done ++ [spl]) ++ rest)
        by (by rewrite <- app_assoc).
      rewrite Hmid. apply IH; try done.
      * rewrite <- Hmid. eapply segment_step_shape; [exact Hstep|done].
      * destruct Hspl as (_ & Hx & _).
        unfold segment_step in Hstep. exc_inv Hstep. subst st'. simpl.
        unfold m2a. rewrite Hx, Hn, fmap_app, concat_app, length_app. simpl.
        by rewrite app_nil_r.
Qed.

Lemma PhiC2_new_returns names phi duplicates :
  (∀ p, p ∈ names → p ∈ od_keys (PhiC.f phi) ∧ p ∈ od_keys (PhiC.df phi)) →
  ∃ phi2, PhiC2_new names phi duplicates = Ok phi2.
Proof.
  intros Hkeys. unfold PhiC2_new.
  assert (H : ∀ fdf : OrderedDict Array2 * OrderedDict Array2,
    ∃ fdf', exc_foldl
      (λ fdf patch,
         f_patch <- od_get (PhiC.f phi) patch;;
         df_patch <- od_get (PhiC.df phi) patch;;
         Ok (od_update fdf.1 patch (removeDuplicates f_patch duplicates),
             od_update fdf.2 patch (removeDuplicates df_patch duplicates)))
      fdf names = Ok fdf').
  { induction names as [|p names IH]; intros fdf; [simpl; eauto|].
    destruct (Hkeys p) as [Hf Hd]; [by left|].
    apply od_get_Ok_keys in Hf as [a Ha]. apply od_get_Ok_keys in Hd as [b Hb].
    simpl. rewrite Ha. simpl. rewrite Hb. simpl. apply IH.
    intros q Hq. apply Hkeys. by right. }
  destruct (H ([], [])) as [fdf Hfdf]. rewrite Hfdf. simpl. eauto.
Qed.

Lemma centroidal_samples_returns cs names mass :
  Forall well_formed_interval (py_but_last (ms_interval_data cs)) →
  Forall (λ p, p ∈ od_keys range_def) names →
  ∃ s, centroidal_samples cs names mass = Ok s.
Proof.
  intros Hwf Hknown. unfold centroidal_samples. rewrite timeline_concat.
  set (segs := py_but_last (ms_interval_data cs)) in *.
  destruct (fill_phi_returns mass names segs []
              (0, PhiC_new names (length (concat (time_trajectory <$> segs)))))
    as [st Hst]; try done.
  { split; [apply PhiC_new_rows | apply PhiC_new_keys]. }
  simpl in Hst. unfold fill_phi. rewrite Hst. simpl.
  destruct (PhiC2_new_returns names st.2
              (findDuplicates (concat (time_trajectory <$> segs)))) as [phi2 H2].
  { eapply (fill_phi_shape _ names); [exact Hst|].
    split; [apply PhiC_new_rows | apply PhiC_new_keys]. }
  rewrite H2. simpl. eauto.
Qed.

End PhiReturns.

Section PhiReturnsWorld.
Context {Sc : Scalar} {NP : Numpy} {Pin : Pinocchio}.

Lemma createCentroidalPhi_returns w inertia d mass :
  crba (rmodel w) (rdata w) (neutral (rmodel w)) = (Ok inertia, d) →
  np_item00 inertia = Ok mass →
  Forall (λ p, p ∈ od_keys range_def) (od_keys (ee_map (self w))) →
  Forall well_formed_interval (py_but_last (ms_interval_data (cs (self w)))) →
  ∃ w', createCentroidalPhi w = (Ok (), w').
Proof.
  intros Hcrba Hmass Hknown Hwf.
  rewrite createCentroidalPhi_stages, Hcrba. simpl. rewrite Hmass.
  destruct (centroidal_samples_returns (cs (self w)) (od_keys (ee_map (self w))) mass)
    as [s Hs]; try done.
  rewrite Hs. by apply (assign_phi_c_Ok _ _ _ _ _ Hs).
Qed.

End PhiReturnsWorld.


(** * Further properties, stated *)

Section EESplinesProperties.
Context {Sc : Scalar} {NP : Numpy} {Pin : Pinocchio}.

(** X1. When [createEESplines] returns, forward kinematics has been called
    once for every patch of the end-effector map and every robot state:
    the number of patches times the number of states, the kinematics of a
    state being computed again for each patch. *)
Theorem EE_forward_kinematics_count t_sampling w w' :
  createEESplines t_sampling w = (Ok (), w') →
  fk_calls w' = fk_calls w + length (od_keys (ee_map (self w))) * length (xs w).
Proof. intros H. by apply createEESplines_Ok in H as [? _]. Qed.

(** X2. When [createEESplines] returns for at least one robot state, the
    spline map has an entry exactly for the patches of the end-effector
    map, and each entry is built from the [N] sampling times and from two
    arrays of 3 rows and [N] columns. *)
Theorem EE_spline_map_entries t_sampling w w' :
  createEESplines t_sampling w = (Ok (), w') → xs w ≠ [] →
  ∃ m, ee_splines (self w') = Some m ∧
    (∀ k, k ∈ od_keys m ↔ k ∈ od_keys (ee_map (self w))) ∧
    ∀ patch, patch ∈ od_keys (ee_map (self w)) →
      ∃ sp, od_get m patch = Ok sp ∧
        abscissa sp = a2m (np_linspace t_sampling (length (xs w))) ∧
        length (abscissa sp) = length (xs w) ∧
        has_shape 3 (length (xs w)) (points sp) ∧
        has_shape 3 (length (xs w)) (derivatives sp).
Proof.
  intros H Hxs. apply createEESplines_Ok in H as (_ & m & Hm & Hspec).
  destruct (Hspec Hxs) as [Hkeys Hsp]. exists m. split_and!; try done.
  intros patch Hin. destruct (Hsp patch Hin) as (sp & Hget & Habs & Hp & Hd & _).
  exists sp. split_and!; try done.
  rewrite Habs. unfold a2m. apply np_linspace_length.
Qed.

(** X3. When [createEESplines] returns, column [i] of the position array and
    of the velocity array stored for a patch is what the kinematics library
    gave for the [i]-th robot state: forward kinematics on its first [nq]
    and its last [nv] entries, then the translation of the placement of the
    patch's frame and the linear velocity of that frame. *)
Theorem EE_spline_columns t_sampling w w' patch i :
  createEESplines t_sampling w = (Ok (), w') →
  patch ∈ od_keys (ee_map (self w)) → i < length (xs w) →
  ∃ m sp, ee_splines (self w') = Some m ∧ od_get m patch = Ok sp ∧
          sampled_at w patch i sp.
Proof.
  intros H Hin Hi. apply createEESplines_Ok in H as (_ & m & Hm & Hspec).
  destruct Hspec as [_ Hsp]; [by destruct (xs w); [simpl in Hi; lia|]|].
  destruct (Hsp patch Hin) as (sp & Hget & _ & _ & _ & Hcols).
  exists m, sp. split_and!; try done. by apply Hcols.
Qed.

(** X4. Whether [createEESplines] returns or raises, the spline map it
    leaves holds entries for patches of the end-effector map only: what the
    wrapper held before the call, from the constructor or from an earlier
    call, is gone. And the call does not depend on what the wrapper held. *)
Theorem EE_stale_entries t_sampling w :
  splines_of_map w (createEESplines t_sampling w).2 ∧
  ∀ s, createEESplines t_sampling (with_ee_splines s w)
       = createEESplines t_sampling w.
Proof.
  split; [apply createEESplines_splines_of_map|].
  intros s. unfold createEESplines. rewrite !m_bind_run.
  unfold m_gets, m_modify. by rewrite !m_bind_run.
Qed.

(** X5. If the kinematics library does not raise for the robot model and
    gives positions and velocities of 3 coordinates, [createEESplines]
    returns, for every state trajectory and every end-effector map: the
    indexing of the states, the lookups in the map and the column
    assignments of the method do not raise. *)
Theorem EE_returns t_sampling w :
  kinematics_returns (rmodel w) →
  ∃ w', createEESplines t_sampling w = (Ok (), w').
Proof. apply createEESplines_returns. Qed.

(** X6. An exception of [createEESplines] comes from the kinematics
    library: either one of its three calls raises it, or it is the
    [ValueError] of storing a position or velocity that has neither 3
    coordinates nor 1. The indexing of the states by [range(N)], the lookups
    of the patches in the end-effector map and the column index of the
    assignments never raise. *)
Theorem EE_raise_origin t_sampling w e w' :
  createEESplines t_sampling w = (Raise e, w') → kinematics_fault (rmodel w) e.
Proof. apply createEESplines_Raise. Qed.

End EESplinesProperties.

Section CentroidalPhiProperties.
Context {Sc : Scalar} {NP : Numpy} {Pin : Pinocchio}.

(** X7. [createCentroidalPhi] does not read the last element of
    [cs.ms_interval_data]: with a contact sequence that has the same
    elements before the last one, the method ends the same way, with the
    same result or exception and the same effects. *)
Theorem Phi_last_interval_unread c w :
  py_but_last (ms_interval_data c) = py_but_last (ms_interval_data (cs (self w))) →
  createCentroidalPhi (with_cs c w)
  = ((createCentroidalPhi w).1, with_cs c (createCentroidalPhi w).2).
Proof. apply createCentroidalPhi_with_cs. Qed.

(** X8. When [createCentroidalPhi] raises, the wrapper is as it was before
    the call, with all its attributes: the assignments to [self.phi_c] come
    after everything that can raise. The world differs from the one before
    the call at most in the robot data, which is as crba left it. *)
Theorem Phi_raise_keeps_self w e w' :
  createCentroidalPhi w = (Raise e, w') →
  self w' = self w ∧
  w' = with_rdata (crba (rmodel w) (rdata w) (neutral (rmodel w))).2 w.
Proof. apply createCentroidalPhi_Raise. Qed.

(** X9. If the intervals before some interval are processed without
    exception and that interval has a state row, or a state-derivative row,
    of fewer than six columns, [createCentroidalPhi] raises [ValueError],
    after crba and before any assignment to [self.phi_c]. *)
Theorem Phi_narrow_state w inertia d mass done spl rest st :
  crba (rmodel w) (rdata w) (neutral (rmodel w)) = (Ok inertia, d) →
  np_item00 inertia = Ok mass →
  py_but_last (ms_interval_data (cs (self w))) = done ++ spl :: rest →
  fill_phi mass (od_keys (ee_map (self w))) (timeline (cs (self w))) done
    (PhiC_new (od_keys (ee_map (self w))) (length (timeline (cs (self w)))))
    = Ok st →
  (∃ r, r ∈ state_trajectory spl ∧ length r < 6) ∨
  (∃ r, r ∈ dot_state_trajectory spl ∧ length r < 6) →
  createCentroidalPhi w = (Raise ValueError, with_rdata d w).
Proof.
  intros Hcrba Hmass Hsegs Hdone Hnarrow.
  apply (createCentroidalPhi_fill_raise _ _ _ _ _ Hcrba Hmass).
  rewrite Hsegs. apply (fill_phi_raise _ _ _ _ _ _ _ _ _ Hdone).
  by apply segment_step_narrow.
Qed.

(** X10. [createCentroidalPhi] returns when crba gives a matrix with an
    entry [0, 0], every patch of the end-effector map is one of RF_patch,
    LF_patch, RH_patch, LH_patch, and every interval but the last has at
    least one sample, as many state, state-derivative and control rows as
    timestamps, state and state-derivative rows of at least 6 columns,
    controls of at least 24 columns, and a polynomial fit that succeeds. *)
Theorem Phi_returns w inertia d mass :
  crba (rmodel w) (rdata w) (neutral (rmodel w)) = (Ok inertia, d) →
  np_item00 inertia = Ok mass →
  Forall (λ p, p ∈ od_keys range_def) (od_keys (ee_map (self w))) →
  Forall well_formed_interval (py_but_last (ms_interval_data (cs (self w)))) →
  ∃ w', createCentroidalPhi w = (Ok (), w').
Proof. apply createCentroidalPhi_returns. Qed.

End CentroidalPhiProperties.

Section SampleArrayProperties.
Context {Sc : Scalar} {NP : Numpy}.

(** X11. When the samples of [createCentroidalPhi] are computed from
    intervals whose sample arrays have as many rows as their time axis, the
    array [com_vcom] is the first six columns of the state samples of all
    intervals but the last, one interval after the other, and [vcom_acom]
    is the same of the state-derivative samples: no row is left out and
    none keeps the zeros the array was created with. *)
Theorem Phi_com_arrays cs patch_names mass s :
  centroidal_samples cs patch_names mass = Ok s →
  matching_rows (py_but_last (ms_interval_data cs)) →
  PhiC.com_vcom (phi_c_ s)
  = concat ((λ spl, np_cols 0 6 (m2a (state_trajectory spl)))
            <$> py_but_last (ms_interval_data cs)) ∧
  PhiC.vcom_acom (phi_c_ s)
  = concat ((λ spl, np_cols 0 6 (m2a (dot_state_trajectory spl)))
            <$> py_but_last (ms_interval_data cs)).
Proof. apply centroidal_samples_com. Qed.

(** X12. When the samples are computed from intervals whose sample arrays
    have as many rows as their time axis: for every interval, every patch
    of the end-effector map and every sample time [t] of the interval, the
    row of the patch's force array is [f_poly(t, range_def[patch])] and the
    row of its force-rate array is [f_dpoly(t, range_def[patch])], for the
    polynomials [polyfitND] gave for the interval's control; both rows have
    6 entries. *)
Theorem Phi_force_rows cs patch_names mass s k spl patch j t :
  centroidal_samples cs patch_names mass = Ok s →
  matching_rows (py_but_last (ms_interval_data cs)) →
  py_but_last (ms_interval_data cs) !! k = Some spl →
  patch ∈ patch_names →
  time_trajectory spl !! j = Some t →
  ∃ polys r a b row drow,
    polyfitND (time_trajectory spl) (m2a (control_trajectory spl)) 3 = Ok polys ∧
    od_get range_def patch = Ok r ∧
    od_get (PhiC.f (phi_c_ s)) patch = Ok a ∧
    od_get (PhiC.df (phi_c_ s)) patch = Ok b ∧
    a !! (segment_offset (py_but_last (ms_interval_data cs)) k + j) = Some row ∧
    b !! (segment_offset (py_but_last (ms_interval_data cs)) k + j) = Some drow ∧
    f_poly polys.1 t r = Ok row ∧ f_dpoly polys.2 t r = Ok drow ∧
    length row = 6 ∧ length drow = 6.
Proof.
  intros H Hmatch Hk Hin Hj.
  destruct (centroidal_samples_rows _ _ _ _ H Hmatch k spl Hk)
    as [_ (polys & Hfit & Hpatch)].
  destruct (Hpatch patch Hin)
    as [(r & a & Hr & Ha & Hrows) (r' & b & Hr' & Hb & Hdrows)].
  assert (r' = r) as -> by congruence.
  destruct (Hrows j t Hj) as (row & Hrow & Hf).
  destruct (Hdrows j t Hj) as (drow & Hdrow & Hdf).
  exists polys, r, a, b, row, drow. split_and!; try done.
  - apply f_poly_length in Hf. by rewrite Hf, (range_def_length patch).
  - apply f_poly_length in Hdf. by rewrite Hdf, (range_def_length patch).
Qed.

(** X13. The force samples of a patch depend neither on the other patches of
    the end-effector map, nor on their order, nor on the mass: for the same
    contact sequence, two computations of the samples that both have the
    patch give the same deduplicated timeline and, for this patch, the same
    force and force-rate arrays, before and after the deduplication. *)
Theorem Phi_patch_independent cs names1 names2 mass1 mass2 s1 s2 patch :
  centroidal_samples cs names1 mass1 = Ok s1 →
  centroidal_samples cs names2 mass2 = Ok s2 →
  matching_rows (py_but_last (ms_interval_data cs)) →
  patch ∈ names1 → patch ∈ names2 →
  t_traj s1 = t_traj s2 ∧
  od_get (PhiC.f (phi_c_ s1)) patch = od_get (PhiC.f (phi_c_ s2)) patch ∧
  od_get (PhiC.df (phi_c_ s1)) patch = od_get (PhiC.df (phi_c_ s2)) patch ∧
  od_get (PhiC.f (phi_c_2 s1)) patch = od_get (PhiC.f (phi_c_2 s2)) patch ∧
  od_get (PhiC.df (phi_c_2 s1)) patch = od_get (PhiC.df (phi_c_2 s2)) patch.
Proof.
  intros H1 H2 Hmatch Hin1 Hin2.
  destruct (force_arrays_independent _ _ _ _ _ _ _ _ H1 H2 Hmatch Hin1 Hin2) as [? ?].
  destruct (force_arrays_independent_2 _ _ _ _ _ _ _ _ H1 H2 Hmatch Hin1 Hin2)
    as (? & ? & ?).
  by split_and!.
Qed.

End SampleArrayProperties.


(** * The claims on concrete inputs *)

Import Toy.

(** The samples of the contact sequence with two intervals are computed
    without exception. *)
Lemma cs_two_samples_Ok :
  ∃ s, centroidal_samples cs_two (od_keys four_patches) 7%Z = Ok s.
Proof. apply exc_okb_Ok. vm_compute. reflexivity. Qed.

Lemma cs_two_matching_rows : matching_rows (py_but_last (ms_interval_data cs_two)).
Proof. vm_compute. repeat constructor. Qed.

(** C1 on two intervals that share the timestamp 2. *)
Lemma C1_witness :
  ∃ s, centroidal_samples cs_two (od_keys four_patches) 7%Z = Ok s ∧
       deduplicated (raw_timeline s) (t_traj s) (raw_timeline s) (t_traj s) ∧
       parallel_arrays (od_keys four_patches) (phi_c_ s) (phi_c_2 s)
                       (deduplicated (raw_timeline s) (t_traj s)).
Proof.
  destruct cs_two_samples_Ok as [s Hs]. exists s. split; [exact Hs|].
  destruct (C1_deduplication cs_two (od_keys four_patches) 7%Z s Hs)
    as (_ & _ & H1 & H2 & _).
  split; [exact H1 | exact H2].
Defined.

(** C2 on the same contact sequence. *)
Lemma C2_witness :
  ∃ w', createCentroidalPhi (world cs_two four_patches []) = (Ok (), w') ∧
    ∃ mass s,
      centroidal_samples cs_two (od_keys four_patches) mass = Ok s ∧
      parallel_arrays (od_keys four_patches) (phi_c_ s) (phi_c_2 s)
        (λ _ a', length a' = length (t_traj s)) ∧
      (∃ sp, CentroidalPhi.com_vcom (phi_c (self w')) = Some sp ∧
             abscissa sp = t_traj s ∧ spline_rows_match sp) ∧
      (∃ sp, CentroidalPhi.hg (phi_c (self w')) = Some sp ∧
             abscissa sp = t_traj s ∧ spline_rows_match sp) ∧
      ∀ patch, patch ∈ od_keys four_patches →
        ∃ sp, od_get (CentroidalPhi.forces (phi_c (self w'))) patch = Ok sp ∧
              abscissa sp = t_traj s ∧ spline_rows_match sp.
Proof.
  destruct (run_okb_Ok (createCentroidalPhi (world cs_two four_patches [])))
    as [w' Hw']; [vm_compute; reflexivity|].
  exists w'. split; [exact Hw'|].
  exact (C2_row_counts (world cs_two four_patches []) w' Hw').
Defined.

(** C3 on the same contact sequence, for the order of the integers. *)
Lemma C3_witness :
  ∃ s, centroidal_samples cs_two (od_keys four_patches) 7%Z = Ok s ∧
       non_decreasing Z.lt (timeline cs_two) ∧
       strictly_increasing Z.lt (t_traj s).
Proof.
  assert (Hnd : non_decreasing Z.lt (timeline cs_two)).
  { unfold non_decreasing. vm_compute timeline.
    repeat constructor; ((left; reflexivity) || (right; reflexivity)). }
  destruct cs_two_samples_Ok as [s Hs]. exists s. split; [exact Hs|].
  split; [exact Hnd|].
  exact (C3_strictly_increasing Z.lt cs_two (od_keys four_patches) 7%Z s Hs Hnd).
Defined.

(** C4 on the first sample of the second interval (row 3): with mass 7,
    column 0 of [hg] is 7 times column 3 of the state row, and column 3 is
    the third last column of the state row. *)
Lemma C4_witness :
  ∃ s, centroidal_samples cs_two (od_keys four_patches) 7%Z = Ok s ∧
       matching_rows (py_but_last (ms_interval_data cs_two)) ∧
       ∃ h, PhiC.hg (phi_c_ s) !! 3 = Some h ∧ h !! 0 = Some (7 * 23)%Z
            ∧ h !! 3 = Some 26%Z.
Proof.
  destruct cs_two_samples_Ok as [s Hs]. exists s. split; [exact Hs|].
  split; [exact cs_two_matching_rows|].
  destruct (C4_angular_momentum cs_two (od_keys four_patches) 7%Z s Hs
              cs_two_matching_rows 1 (interval [2; 3; 4]%Z 24) 0 eq_refl)
    as [Hx _].
  destruct (Hx (state_row 20) eq_refl) as (h & Hh & _ & _ & Hc03 & Hc36).
  exists h. split; [exact Hh|]. split.
  - etrans; [apply (Hc03 0); lia | reflexivity].
  - etrans; [apply (Hc36 0); lia | reflexivity].
Defined.

(** C5 on the same contact sequence: the row of the first sample of the
    second interval in the force array of the fourth patch. *)
Lemma C5_witness :
  ∃ s, centroidal_samples cs_two (od_keys four_patches) 7%Z = Ok s ∧
       matching_rows (py_but_last (ms_interval_data cs_two)) ∧
       "LH_patch" ∈ od_keys four_patches ∧
       concat (range_def.*2) = seq 0 24 ∧
       ∃ polys a,
         polyfitND [2; 3; 4]%Z (control_trajectory (interval [2; 3; 4]%Z 24)) 3
         = Ok polys ∧
         od_get (PhiC.f (phi_c_ s)) "LH_patch" = Ok a ∧
         a !! 3 = Some ((λ p, poly_eval p 2%Z) <$> drop 18 polys.1).
Proof.
  assert (Hin : "LH_patch" ∈ od_keys four_patches)
    by (apply (bool_decide_unpack _); vm_compute; exact I).
  destruct cs_two_samples_Ok as [s Hs]. exists s. split; [exact Hs|].
  split; [exact cs_two_matching_rows|]. split; [exact Hin|].
  destruct (C5_partition cs_two (od_keys four_patches) 7%Z s Hs
              cs_two_matching_rows Hin) as (_ & Hcat & Hrows).
  split; [exact Hcat|].
  destruct (Hrows 1 (interval [2; 3; 4]%Z 24) eq_refl eq_refl)
    as (polys & a & Hfit & _ & _ & Ha & Hrow).
  exists polys, a. split; [exact Hfit|]. split; [exact Ha|].
  exact (Hrow 0 2%Z eq_refl).
Defined.

(** C6, as stated, fails: on two robot states and four patches
    [createEESplines] returns, and the robot data is not what it was. *)
Lemma C6_counterexample :
  (createEESplines 1%Z (world cs_terminal four_patches two_states)).1 = Ok () ∧
  rdata (createEESplines 1%Z (world cs_terminal four_patches two_states)).2
  ≠ rdata (world cs_terminal four_patches two_states).
Proof. split; [vm_compute; reflexivity|]. vm_compute. discriminate. Qed.


(** C7, as stated, fails on two inputs: on this contact sequence with
    controls of width 30 the method returns; on this one with controls of
    width 12 it raises [IndexError], not a shape error. *)
Lemma C7_counterexample :
  np_width (control_trajectory (interval [0; 1; 2]%Z 30)) = 30 ∧
  (createCentroidalPhi (world cs_wide four_patches [])).1 = Ok () ∧
  np_width (control_trajectory (interval [0; 1; 2]%Z 12)) = 12 ∧
  (createCentroidalPhi (world cs_narrow four_patches [])).1 = Raise IndexError.
Proof. by vm_compute. Qed.


(** C7, as amended, on controls of width 12: the range of the third patch
    starts at column 12. *)
Lemma C7_witness :
  np_width (control_trajectory (interval [0; 1; 2]%Z 12)) ≤ 12 ∧
  np_width (control_trajectory (interval [0; 1; 2]%Z 12)) < 24 ∧
  createCentroidalPhi (world cs_narrow four_patches [])
  = (Raise IndexError, with_rdata ([], []) (world cs_narrow four_patches [])).
Proof.
  split; [vm_compute; lia|].
  eapply (C7_narrow_control (world cs_narrow four_patches [])
            [[7%Z]] ([], []) 7%Z [] (interval [0; 1; 2]%Z 12) []
            ["RF_patch"; "LF_patch"] "RH_patch" ["LH_patch"]
            _ _ (py_range 12 18) 12).
  - vm_compute. reflexivity.
  - vm_compute. reflexivity.
  - vm_compute. reflexivity.
  - vm_compute. reflexivity.
  - vm_compute. reflexivity.
  - vm_compute. reflexivity.
  - vm_compute. discriminate.
  - vm_compute. reflexivity.
  - apply (bool_decide_unpack _). vm_compute. exact I.
  - vm_compute. lia.
Defined.


(** C8, as stated, fails on two inputs: on this contact sequence without an
    interval before the terminal marker, the method returns for a foreign
    patch name and has assigned [self.phi_c]; and on this one with controls
    of width 12, a patch before the foreign one raises [IndexError], not
    [KeyError]. *)
Lemma C8_counterexample :
  ("foo" ∉ ["RF_patch"; "LF_patch"; "RH_patch"; "LH_patch"]) ∧
  (createCentroidalPhi (world cs_terminal [("foo", "lf")] [])).1 = Ok () ∧
  phi_c (self (createCentroidalPhi (world cs_terminal [("foo", "lf")] [])).2)
  ≠ phi_c (self (world cs_terminal [("foo", "lf")] [])) ∧
  (createCentroidalPhi
     (world cs_narrow [("LH_patch", "lh"); ("foo", "lf")] [])).1
  = Raise IndexError.
Proof.
  split_and!.
  - apply (bool_decide_unpack _). vm_compute. exact I.
  - vm_compute. reflexivity.
  - vm_compute. discriminate.
  - vm_compute. reflexivity.
Qed.


(** C8, as amended, on two intervals and a foreign name after a known one. *)
Lemma C8_witness :
  ∃ w', createCentroidalPhi (world cs_two [("RF_patch", "rf"); ("foo", "lf")] [])
        = (Raise (KeyError "foo"), w') ∧
        phi_c (self w')
        = phi_c (self (world cs_two [("RF_patch", "rf"); ("foo", "lf")] [])).
Proof.
  eapply (C8_foreign_patch (world cs_two [("RF_patch", "rf"); ("foo", "lf")] [])
            [[7%Z]] ([], []) 7%Z (interval [0; 1; 2]%Z 24)
            [interval [2; 3; 4]%Z 24] ["RF_patch"] "foo" []).
  - vm_compute. reflexivity.
  - vm_compute. reflexivity.
  - vm_compute. reflexivity.
  - vm_compute. reflexivity.
  - apply (bool_decide_unpack _). vm_compute. exact I.
  - vm_compute. reflexivity.
  - vm_compute. discriminate.
Defined.


(** C9, as stated, fails: for an empty state trajectory the method leaves
    the map empty, and the variant stores a spline for every patch. *)
Lemma C9_counterexample :
  createEESplines 1%Z (world cs_terminal four_patches [])
  ≠ createEESplines_once 1%Z (world cs_terminal four_patches []) ∧
  ee_splines (self (createEESplines 1%Z (world cs_terminal four_patches [])).2)
  = Some [] ∧
  length (default [] (ee_splines (self
            (createEESplines_once 1%Z (world cs_terminal four_patches [])).2)))
  = 4.
Proof.
  split_and!.
  - vm_compute. discriminate.
  - vm_compute. reflexivity.
  - vm_compute. reflexivity.
Qed.


(** C9, as amended, on two robot states. *)
Lemma C9_witness :
  two_states ≠ [] ∧
  outcomes_agree
    (createEESplines 1%Z (world cs_terminal four_patches two_states))
    (createEESplines_once 1%Z (world cs_terminal four_patches two_states)).
Proof.
  split; [discriminate|].
  apply (@C9_built_once Z_scalar toy_numpy toy_pinocchio 1%Z
           (world cs_terminal four_patches two_states)).
  vm_compute. discriminate.
Defined.


(** C10 on an empty state trajectory and four patches. *)
Lemma C10_witness :
  xs (world cs_terminal four_patches []) = [] ∧
  ∃ w', createEESplines 1%Z (world cs_terminal four_patches []) = (Ok (), w') ∧
        fk_calls w' = 0 ∧ ee_splines (self w') = Some [].
Proof.
  split; [reflexivity|].
  destruct (@C10_empty_trajectory Z_scalar toy_numpy toy_pinocchio 1%Z
              (world cs_terminal four_patches []))
    as (_ & w' & Hrun & Hfk & _ & Hee & _); [reflexivity|].
  exists w'. split; [exact Hrun|]. split; [exact Hfk | exact Hee].
Defined.



(** * The further properties on concrete inputs *)

Import ToyKinematics.

(** X1 on two robot states and four patches: eight forward kinematics. *)
Lemma EE_forward_kinematics_count_witness :
  ∃ w', createEESplines 1%Z (world cs_terminal four_patches two_states) = (Ok (), w') ∧
        fk_calls w' = 8.
Proof.
  destruct (run_okb_Ok (@createEESplines Z_scalar toy_numpy toy_pinocchio 1%Z
                          (world cs_terminal four_patches two_states)))
    as [w' Hw']; [vm_compute; reflexivity|].
  exists w'. split; [exact Hw'|].
  exact (@EE_forward_kinematics_count Z_scalar toy_numpy toy_pinocchio 1%Z
           (world cs_terminal four_patches two_states) w' Hw').
Defined.

(** X2 on the same input: the entry of the patch LF_patch. *)
Lemma EE_spline_map_entries_witness :
  ∃ w' m sp,
    createEESplines 1%Z (world cs_terminal four_patches two_states) = (Ok (), w') ∧
    ee_splines (self w') = Some m ∧ od_get m "LF_patch" = Ok sp ∧
    abscissa sp = [0; 1]%Z ∧ has_shape 3 2 (points sp).
Proof.
  destruct (run_okb_Ok (@createEESplines Z_scalar toy_numpy toy_pinocchio 1%Z
                          (world cs_terminal four_patches two_states)))
    as [w' Hw']; [vm_compute; reflexivity|].
  destruct (@EE_spline_map_entries Z_scalar toy_numpy toy_pinocchio 1%Z
              (world cs_terminal four_patches two_states) w' Hw')
    as (m & Hm & _ & Hsp); [discriminate|].
  destruct (Hsp "LF_patch") as (sp & Hget & Habs & _ & Hp & _).
  { apply (bool_decide_unpack _). vm_compute. exact I. }
  exists w', m, sp. split; [exact Hw'|]. split; [exact Hm|]. split; [exact Hget|].
  split; [exact Habs | exact Hp].
Defined.

(** X3 on the same input: column 1 of the arrays of LF_patch. *)
Lemma EE_spline_columns_witness :
  ∃ w' m sp,
    createEESplines 1%Z (world cs_terminal four_patches two_states) = (Ok (), w') ∧
    ee_splines (self w') = Some m ∧ od_get m "LF_patch" = Ok sp ∧
    sampled_at (world cs_terminal four_patches two_states) "LF_patch" 1 sp.
Proof.
  destruct (run_okb_Ok (@createEESplines Z_scalar toy_numpy toy_pinocchio 1%Z
                          (world cs_terminal four_patches two_states)))
    as [w' Hw']; [vm_compute; reflexivity|].
  destruct (@EE_spline_columns Z_scalar toy_numpy toy_pinocchio 1%Z
              (world cs_terminal four_patches two_states) w' "LF_patch" 1 Hw')
    as (m & sp & Hm & Hget & Hcol).
  { apply (bool_decide_unpack _). vm_compute. exact I. }
  { vm_compute. lia. }
  exists w', m, sp. split; [exact Hw'|]. split; [exact Hm|]. split; [exact Hget|].
  exact Hcol.
Defined.

(** X5 with the kinematics library that always returns. *)
Lemma EE_returns_witness :
  @kinematics_returns Z_scalar still_pinocchio model ∧
  ∃ w', @createEESplines Z_scalar toy_numpy still_pinocchio 1%Z (still_world two_states)
        = (Ok (), w').
Proof.
  assert (H : @kinematics_returns Z_scalar still_pinocchio model).
  { split; [|split].
    - intros d q v. reflexivity.
    - intros d id. eexists. split; reflexivity.
    - intros d id. eexists. split; reflexivity. }
  split; [exact H|].
  exact (@EE_returns Z_scalar toy_numpy still_pinocchio 1%Z (still_world two_states) H).
Defined.

(** X7 on [cs_two] and the same sequence with another last element. *)
Lemma Phi_last_interval_unread_witness :
  py_but_last (ms_interval_data cs_two_other_end)
  = py_but_last (ms_interval_data cs_two) ∧
  createCentroidalPhi (with_cs cs_two_other_end (world cs_two four_patches []))
  = ((createCentroidalPhi (world cs_two four_patches [])).1,
     with_cs cs_two_other_end (createCentroidalPhi (world cs_two four_patches [])).2).
Proof.
  split; [reflexivity|].
  apply (@Phi_last_interval_unread Z_scalar toy_numpy toy_pinocchio
           cs_two_other_end (world cs_two four_patches [])).
  reflexivity.
Defined.

(** X11 on [cs_two]. *)
Lemma Phi_com_arrays_witness :
  ∃ s, centroidal_samples cs_two (od_keys four_patches) 7%Z = Ok s ∧
       PhiC.com_vcom (phi_c_ s)
       = concat ((λ spl, np_cols 0 6 (m2a (state_trajectory spl)))
                 <$> py_but_last (ms_interval_data cs_two)).
Proof.
  destruct cs_two_samples_Ok as [s Hs]. exists s. split; [exact Hs|].
  destruct (Phi_com_arrays cs_two (od_keys four_patches) 7%Z s Hs cs_two_matching_rows)
    as [H _].
  exact H.
Defined.

(** X12 on the first sample of the second interval of [cs_two] and the patch
    LF_patch. *)
Lemma Phi_force_rows_witness :
  ∃ s a row,
    centroidal_samples cs_two (od_keys four_patches) 7%Z = Ok s ∧
    od_get (PhiC.f (phi_c_ s)) "LF_patch" = Ok a ∧
    a !! 3 = Some row ∧ length row = 6.
Proof.
  destruct cs_two_samples_Ok as [s Hs].
  destruct (Phi_force_rows cs_two (od_keys four_patches) 7%Z s 1
              (interval [2; 3; 4]%Z 24) "LF_patch" 0 2%Z Hs cs_two_matching_rows)
    as (polys & r & a & b & row & drow & _ & _ & Ha & _ & Hrow & _ & _ & _ & Hlen & _).
  { reflexivity. }
  { apply (bool_decide_unpack _). vm_compute. exact I. }
  { reflexivity. }
  exists s, a, row. split; [exact Hs|]. split; [exact Ha|]. split; [exact Hrow | exact Hlen].
Defined.

(** X13 on [cs_two]: the patch LH_patch among four patches and mass 7, and
    first of two patches and mass 3. *)
Lemma Phi_patch_independent_witness :
  ∃ s1 s2,
    centroidal_samples cs_two (od_keys four_patches) 7%Z = Ok s1 ∧
    centroidal_samples cs_two ["LH_patch"; "RF_patch"] 3%Z = Ok s2 ∧
    od_get (PhiC.f (phi_c_2 s1)) "LH_patch" = od_get (PhiC.f (phi_c_2 s2)) "LH_patch".
Proof.
  destruct cs_two_samples_Ok as [s1 Hs1].
  destruct (exc_okb_Ok (centroidal_samples cs_two ["LH_patch"; "RF_patch"] 3%Z))
    as [s2 Hs2]; [vm_compute; reflexivity|].
  exists s1, s2. split; [exact Hs1|]. split; [exact Hs2|].
  destruct (Phi_patch_independent cs_two (od_keys four_patches)
              ["LH_patch"; "RF_patch"] 7%Z 3%Z s1 s2 "LH_patch"
              Hs1 Hs2 cs_two_matching_rows) as (_ & _ & _ & H & _).
  { apply (bool_decide_unpack _). vm_compute. exact I. }
  { apply (bool_decide_unpack _). vm_compute. exact I. }
  exact H.
Defined.

(** X8 on controls of width 12, for which the method raises. *)
Lemma Phi_raise_keeps_self_witness :
  createCentroidalPhi (world cs_narrow four_patches [])
  = (Raise IndexError, with_rdata ([], []) (world cs_narrow four_patches [])) ∧
  self (with_rdata ([], []) (world cs_narrow four_patches []))
  = self (world cs_narrow four_patches []).
Proof.
  assert (H : createCentroidalPhi (world cs_narrow four_patches [])
              = (Raise IndexError,
                 with_rdata ([], []) (world cs_narrow four_patches []))).
  { vm_compute. reflexivity. }
  split; [exact H|].
  destruct (@Phi_raise_keeps_self Z_scalar toy_numpy toy_pinocchio
              (world cs_narrow four_patches []) IndexError _ H) as [Hself _].
  exact Hself.
Defined.

(** X9 on an interval whose state rows have 3 columns. *)
Lemma Phi_narrow_state_witness :
  [1; 2; 3]%Z ∈ state_trajectory flat_interval ∧
  createCentroidalPhi (world (cs_of [flat_interval]) four_patches [])
  = (Raise ValueError,
     with_rdata ([], []) (world (cs_of [flat_interval]) four_patches [])).
Proof.
  assert (Hin : [1; 2; 3]%Z ∈ state_trajectory flat_interval).
  { apply (bool_decide_unpack _). vm_compute. exact I. }
  split; [exact Hin|].
  eapply (@Phi_narrow_state Z_scalar toy_numpy toy_pinocchio
            (world (cs_of [flat_interval]) four_patches [])
            [[7%Z]] ([], []) 7%Z [] flat_interval []).
  - vm_compute. reflexivity.
  - vm_compute. reflexivity.
  - vm_compute. reflexivity.
  - vm_compute. reflexivity.
  - left. exists [1; 2; 3]%Z. split; [exact Hin | vm_compute; lia].
Defined.

(** X6 on a patch whose frame the robot model does not have. *)
Lemma EE_raise_origin_witness :
  ∃ w', createEESplines 1%Z (world cs_terminal [("RF_patch", "nose")] two_states)
        = (Raise (LibraryError 1), w') ∧
        kinematics_fault model (LibraryError 1).
Proof.
  assert (H : ∃ w', @createEESplines Z_scalar toy_numpy toy_pinocchio 1%Z
                      (world cs_terminal [("RF_patch", "nose")] two_states)
                    = (Raise (LibraryError 1), w')).
  { eexists. vm_compute. reflexivity. }
  destruct H as [w' Hw']. exists w'. split; [exact Hw'|].
  exact (@EE_raise_origin Z_scalar toy_numpy toy_pinocchio 1%Z
           (world cs_terminal [("RF_patch", "nose")] two_states) _ w' Hw').
Defined.

(** X10 on [cs_two] and the four patches. *)
Lemma Phi_returns_witness :
  Forall well_formed_interval (py_but_last (ms_interval_data cs_two)) ∧
  ∃ w', createCentroidalPhi (world cs_two four_patches []) = (Ok (), w').
Proof.
  assert (Hwf : Forall well_formed_interval (py_but_last (ms_interval_data cs_two))).
  { change (Forall well_formed_interval
              [interval [0; 1; 2]%Z 24; interval [2; 3; 4]%Z 24]).
    apply Forall_cons_2; [|apply Forall_cons_2; [|apply Forall_nil_2]];
      unfold well_formed_interval;
      (split_and!;
       [apply (bool_decide_unpack _); vm_compute; exact I..
       |apply exc_okb_Ok; vm_compute; reflexivity]). }
  split; [exact Hwf|].
  apply (@Phi_returns Z_scalar toy_numpy toy_pinocchio
           (world cs_two four_patches []) [[7%Z]] ([], []) 7%Z).
  - reflexivity.
  - reflexivity.
  - apply (bool_decide_unpack _). vm_compute. exact I.
  - exact Hwf.
Defined.
